(** * Sing2Notes: the audio-to-notation pipeline of [pitchDetection.js]

    A shallow embedding of the class [PitchDetection] and the properties of
    its transcription pipeline

      buffer -> mono signal -> segments -> pitch samples -> notes
             -> { simple notes, chords, sheet music }.

    Conventions of the embedding.

    - A JavaScript Number that holds an audio sample, a window weight or a
      correlation is a [num]: a real number, or [NaN].  Arithmetic on the
      real part is exact (binary64 and Float32Array rounding, signed zeros
      and infinities are not modelled); reading an array out of range gives
      [undefined], which every arithmetic operator turns into [NaN].
    - Times and frequencies are rationals ([Q]): every time the pipeline
      produces is [i * (4096/44100) / 2 (+ 4096/44100)] and every frequency is
      [44100 / lag], so the stages behind the pitch estimator are executable.
    - [Math.log2], [Math.pow] and [Math.cos] are the real functions they
      approximate; [Math.round x] is [floor (x + 1/2)].
    - Where the outcome of the code can depend on rounding (the comparison
      of two sums, a mean, a value next to a rounding boundary), the
      properties are stated about the values as stored, or for inputs on
      which the arithmetic of the code is exact; lemmas that hold in exact
      arithmetic only say so.
    - Strings are byte strings in UTF-8. *)

From Stdlib Require Import Reals QArith Qreals Qround Qabs Qminmax ZArith.
From Stdlib Require Import List String Ascii Bool Lia Lra Sorted Permutation.
From Stdlib Require Lqa.
Import ListNotations.

Local Open Scope string_scope.
Local Open Scope list_scope.
Local Open Scope nat_scope.

(* ================================================================== *)
(** ** Numbers *)

Inductive num : Type :=
| Num (r : R)
| NaN.

Definition nadd (a b : num) : num :=
  match a, b with
  | Num x, Num y => Num (x + y)
  | _, _ => NaN
  end.

Definition nmul (a b : num) : num :=
  match a, b with
  | Num x, Num y => Num (x * y)
  | _, _ => NaN
  end.

(** [0 / 0] is [NaN].  Every division of this program whose divisor can be
    zero has a zero numerator, so [x / 0] for [x <> 0] never arises. *)
Definition ndiv (a b : num) : num :=
  match a, b with
  | Num x, Num y => if Req_dec_T y 0 then NaN else Num (x / y)
  | _, _ => NaN
  end.

Definition ncos (a : num) : num :=
  match a with
  | Num x => Num (cos x)
  | NaN => NaN
  end.

(** [Math.round]. *)
Definition mathRound (x : R) : Z := Int_part (x + / 2).

(** [Math.log2]. *)
Definition log2 (x : R) : R := (ln x / ln 2)%R.

Definition Qltb (x y : Q) : bool := negb (Qle_bool y x).

(** JavaScript array reads: [a[i]] is [undefined] out of range, and
    [undefined] behaves as [NaN] under [+], [*] and [>]. *)
Definition readNum (a : list num) (i : nat) : num := nth i a NaN.

(** [Array.prototype.slice(start, end)] for [0 <= start <= end]. *)
Definition slice {A : Type} (a : list A) (start stop : nat) : list A :=
  firstn (stop - start) (skipn start a).

(** [Array.prototype.sort((a, b) => a - b)] on integers. *)
Fixpoint insertZ (x : Z) (l : list Z) : list Z :=
  match l with
  | [] => [x]
  | y :: l' => if (x <=? y)%Z then x :: l else y :: insertZ x l'
  end.

Fixpoint sortZ (l : list Z) : list Z :=
  match l with
  | [] => []
  | x :: l' => insertZ x (sortZ l')
  end.

(** [Array.prototype.includes] on integers. *)
Definition includes (l : list Z) (x : Z) : bool := existsb (Z.eqb x) l.

(** [Array.prototype.indexOf] on strings, [-1] when absent. *)
Fixpoint indexOfFrom (x : string) (l : list string) (i : Z) : Z :=
  match l with
  | [] => (-1)%Z
  | y :: l' => if String.eqb y x then i else indexOfFrom x l' (i + 1)%Z
  end.

Definition indexOf (l : list string) (x : string) : Z := indexOfFrom x l 0%Z.

(** [Array.from(new Set(a))]: the distinct elements, in the order of their
    first occurrence. *)
Definition uniqueStrings (a : list string) : list string :=
  fold_left (fun seen x => if existsb (String.eqb x) seen then seen else seen ++ [x])
            a [].

(** [String.prototype.replace(pattern, replacement)] with a one-character
    string pattern: only the first occurrence is replaced. *)
Fixpoint replaceFirst (pattern : ascii) (replacement s : string) : string :=
  match s with
  | EmptyString => EmptyString
  | String c s' =>
      if Ascii.eqb c pattern then replacement ++ s'
      else String c (replaceFirst pattern replacement s')
  end%string.

(** [Math.min(...a)] and [Math.max(...a)] for a non-empty argument list (the
    only call sites pass at least two values). *)
Definition minOf (a : list Q) : Q :=
  match a with
  | [] => 0
  | x :: a' => fold_left Qmin a' x
  end.

Definition maxOf (a : list Q) : Q :=
  match a with
  | [] => 0
  | x :: a' => fold_left Qmax a' x
  end.

(* ================================================================== *)
(** ** The constructor's tables and settings *)

Definition chordDefinitions : list (string * list Z) :=
  [ ("Major",      [0; 4; 7]);
    ("Minor",      [0; 3; 7]);
    ("Diminished", [0; 3; 6]);
    ("Augmented",  [0; 4; 8]);
    ("Major 7",    [0; 4; 7; 11]);
    ("Dominant 7", [0; 4; 7; 10]);
    ("Minor 7",    [0; 3; 7; 10]);
    ("Sus4",       [0; 5; 7]);
    ("Sus2",       [0; 2; 7]) ]%Z.

Definition sampleRate : Z := 44100.
Definition bufferSize : nat := 4096.
Definition minFrequency : Z := 80.
Definition maxFrequency : Z := 1000.

(* ================================================================== *)
(** ** Data model *)

Module AudioBuffer.
Record t : Type := mk
  { length : nat;                      (* frames per channel, as announced *)
    channelData : list (list num) }.   (* one sample array per channel *)

Definition numberOfChannels (b : t) : nat := List.length (channelData b).

Definition getChannelData (b : t) (channel : nat) : list num :=
  nth channel (channelData b) [].
End AudioBuffer.

Module Note.
Record t : Type := mk
  { name : string;
    octave : Z;
    frequency : Q;
    cents : Z }.
End Note.

Module Pitch.
Record t : Type := mk
  { frequency : Q;
    note : Note.t;
    startTime : Q;
    endTime : Q }.

(** [{ ...p, endTime: e }] *)
Definition withEndTime (p : t) (e : Q) : t :=
  mk (frequency p) (note p) (startTime p) e.
End Pitch.

Module SimpleNote.
Record t : Type := mk
  { note : string;
    octave : Z;
    duration : Q;
    startTime : Q }.
End SimpleNote.

Module Chord.
Record id : Type := mkId
  { idRoot : string;
    idType : string }.

Record t : Type := mk
  { root : string;
    type : string;
    notes : list string;
    startTime : Q;
    endTime : Q;
    duration : Q }.
End Chord.

Module Sheet.
Record note : Type := mkNote
  { pitch : string;
    octave : Z;
    duration : string;
    startTime : Q }.

Record t : Type := mk
  { notes : list note;
    timeSignature : Z * Z;           (* numerator, denominator *)
    clef : string }.
End Sheet.

Record TranscriptionResult : Type := mkResult
  { simpleNotes : list SimpleNote.t;
    complexChords : list Chord.t;
    sheetMusic : Sheet.t;
    rawPitchData : list Pitch.t }.

(** The settlement of the promise [analyzeAudio] returns. *)
Inductive outcome (A : Type) : Type :=
| Resolved (a : A)
| Rejected (error : string).

Arguments Resolved {A} a.
Arguments Rejected {A} error.

(* ================================================================== *)
(** ** convertToMono *)

(** The inner loop: the sum of sample [i] over the channels. *)
Definition channelSum (audioBuffer : AudioBuffer.t) (numChannels i : nat) : num :=
  fold_left
    (fun sum channel =>
       nadd sum (readNum (AudioBuffer.getChannelData audioBuffer channel) i))
    (seq 0 numChannels) (Num 0).

Definition convertToMono (audioBuffer : AudioBuffer.t) : list num :=
  let numChannels := AudioBuffer.numberOfChannels audioBuffer in
  let length := AudioBuffer.length audioBuffer in
  if numChannels =? 1 then AudioBuffer.getChannelData audioBuffer 0
  else
    map (fun i => ndiv (channelSum audioBuffer numChannels i)
                       (Num (INR numChannels)))
        (seq 0 length).

(* ================================================================== *)
(** ** segmentAudio *)

(** [segmentLength / 2]; [bufferSize] is even. *)
Definition overlap : nat := bufferSize / 2.

(** The [for] loop of [segmentAudio]; [i] advances by [overlap > 0], so
    [length audioData] iterations always suffice. *)
Fixpoint segmentLoop (fuel : nat) (audioData : list num) (i : nat)
         (segments : list (list num)) : list (list num) :=
  match fuel with
  | O => segments
  | S fuel' =>
      if (Z.of_nat i <? Z.of_nat (List.length audioData) - Z.of_nat bufferSize)%Z
      then segmentLoop fuel' audioData (i + overlap)
                       (segments ++ [slice audioData i (i + bufferSize)])
      else segments
  end.

Definition segmentAudio (audioData : list num) : list (list num) :=
  segmentLoop (List.length audioData) audioData 0 [].

(* ================================================================== *)
(** ** applyHannWindow and detectPitchAutocorrelation *)

Definition windowValue (len i : nat) : num :=
  match ncos (ndiv (Num (2 * PI * INR i)) (Num (INR len - 1))) with
  | Num c => Num (0.5 * (1 - c))
  | NaN => NaN
  end.

Definition applyHannWindow (buffer : list num) : list num :=
  map (fun i => nmul (readNum buffer i) (windowValue (List.length buffer) i))
      (seq 0 (List.length buffer)).

Definition minSamples : nat :=
  Z.to_nat (Qfloor (inject_Z sampleRate / inject_Z maxFrequency)).

Definition maxSamples : nat :=
  Z.to_nat (Qceiling (inject_Z sampleRate / inject_Z minFrequency)).

Definition autocorrelationAt (windowedBuffer : list num) (lag : nat) : num :=
  fold_left
    (fun sum i =>
       nadd sum (nmul (readNum windowedBuffer i) (readNum windowedBuffer (i + lag))))
    (seq 0 (bufferSize - lag)) (Num 0).

Definition autocorrelationOf (windowedBuffer : list num) : list num :=
  map (autocorrelationAt windowedBuffer) (seq 0 bufferSize).

(** One iteration of the peak search; the state is
    [(maxCorrelation, maxIndex)]. *)
Definition peakStep (autocorrelation : list num) (st : R * Z) (i : nat) : R * Z :=
  match readNum autocorrelation i with
  | Num x => if Rlt_dec (fst st) x then (x, Z.of_nat i) else st
  | NaN => st
  end.

Definition peakSearch (autocorrelation : list num) : R * Z :=
  fold_left (peakStep autocorrelation)
            (seq minSamples (maxSamples - minSamples)) (0%R, (-1)%Z).

Definition detectPitchAutocorrelation (buffer : list num) : Q :=
  let windowedBuffer := applyHannWindow buffer in
  let autocorrelation := autocorrelationOf windowedBuffer in
  let maxIndex := snd (peakSearch autocorrelation) in
  if (0 <? maxIndex)%Z then inject_Z sampleRate / inject_Z maxIndex
  else 0.

(** The second half of [detectPitchAutocorrelation], from "Find peaks in
    autocorrelation" on, as a function of the array the first half has
    filled: [detectPitchAutocorrelation buffer] is
    [pitchOfAutocorrelation (autocorrelationOf (applyHannWindow buffer))]. *)
Definition pitchOfAutocorrelation (autocorrelation : list num) : Q :=
  let maxIndex := snd (peakSearch autocorrelation) in
  if (0 <? maxIndex)%Z then inject_Z sampleRate / inject_Z maxIndex
  else 0.

(* ================================================================== *)
(** ** frequencyToNote *)

Definition noteNames : list string :=
  ["A"; "A#"; "B"; "C"; "C#"; "D"; "D#"; "E"; "F"; "F#"; "G"; "G#"].

Definition a4 : R := 440.

Definition semitoneRatio : R := Rpower 2 (1 / 12).

Definition semitonesFromA4 (frequency : Q) : Z :=
  mathRound (12 * log2 (Q2R frequency / a4)).

Definition closestNoteFreq (semitones : Z) : R :=
  (a4 * Rpower semitoneRatio (IZR semitones))%R.

Definition centsOf (frequency : Q) (semitones : Z) : Z :=
  mathRound (1200 * log2 (Q2R frequency / closestNoteFreq semitones)).

(** The integer part of [frequencyToNote]: index into [noteNames] and
    octave, from the semitone distance to A4. *)
Definition noteIndexOf (semitones : Z) : Z :=
  let noteIndex := Z.rem (semitones + 9) 12 in
  if (noteIndex <? 0)%Z then (noteIndex + 12)%Z else noteIndex.

Definition octaveOf (semitones : Z) : Z :=
  let octave := (4 + (semitones + 9) / 12)%Z in
  if (noteIndexOf semitones <? 3)%Z then (octave - 1)%Z else octave.

Definition frequencyToNote (frequency : Q) : Note.t :=
  let semitones := semitonesFromA4 frequency in
  {| Note.name := nth (Z.to_nat (noteIndexOf semitones)) noteNames "";
     Note.octave := octaveOf semitones;
     Note.frequency := frequency;
     Note.cents := centsOf frequency semitones |}.

(* ================================================================== *)
(** ** consolidateNotes *)

(** The merge test of [consolidateNotes]; [0.05] is [5 # 100]. *)
Definition sameNote (note currentNote : Pitch.t) : bool :=
  String.eqb (Note.name (Pitch.note note)) (Note.name (Pitch.note currentNote))
  && Z.eqb (Note.octave (Pitch.note note)) (Note.octave (Pitch.note currentNote))
  && Qltb (Qabs (Pitch.startTime note - Pitch.endTime currentNote)) (5 # 100).

Fixpoint consolidateLoop (notes consolidated : list Pitch.t)
         (currentNote : Pitch.t) : list Pitch.t :=
  match notes with
  | [] => consolidated ++ [currentNote]
  | note :: rest =>
      if sameNote note currentNote
      then consolidateLoop rest consolidated
                           (Pitch.withEndTime currentNote (Pitch.endTime note))
      else consolidateLoop rest (consolidated ++ [currentNote]) note
  end.

Definition consolidateNotes (notes : list Pitch.t) : list Pitch.t :=
  match notes with
  | [] => []
  | first :: rest => consolidateLoop rest [] first
  end.

(* ================================================================== *)
(** ** detectPitches *)

Definition segmentDuration : Q :=
  inject_Z (Z.of_nat bufferSize) / inject_Z sampleRate.

Definition segmentStart (i : nat) : Q :=
  inject_Z (Z.of_nat i) * segmentDuration * (1 # 2).

Definition inRange (frequency : Q) : bool :=
  Qle_bool (inject_Z minFrequency) frequency
  && Qle_bool frequency (inject_Z maxFrequency).

Definition pitchAt (i : nat) (frequency : Q) : Pitch.t :=
  {| Pitch.frequency := frequency;
     Pitch.note := frequencyToNote frequency;
     Pitch.startTime := segmentStart i;
     Pitch.endTime := segmentStart i + segmentDuration |}.

Fixpoint detectLoop (segments : list (list num)) (i : nat)
         (pitches : list Pitch.t) : list Pitch.t :=
  match segments with
  | [] => pitches
  | segment :: rest =>
      let frequency := detectPitchAutocorrelation segment in
      detectLoop rest (S i)
                 (if inRange frequency then pitches ++ [pitchAt i frequency]
                  else pitches)
  end.

Definition detectPitches (segments : list (list num)) : list Pitch.t :=
  consolidateNotes (detectLoop segments 0 []).

(* ================================================================== *)
(** ** generateSimpleNotes *)

(** The sharp sign U+266F, three bytes in UTF-8. *)
Definition sharpSign : string := "♯".

Definition generateSimpleNotes (pitchData : list Pitch.t) : list SimpleNote.t :=
  map (fun pitch =>
         {| SimpleNote.note :=
              replaceFirst "#"%char sharpSign (Note.name (Pitch.note pitch));
            SimpleNote.octave := Note.octave (Pitch.note pitch);
            SimpleNote.duration := Pitch.endTime pitch - Pitch.startTime pitch;
            SimpleNote.startTime := Pitch.startTime pitch |})
      pitchData.

(* ================================================================== *)
(** ** identifyChord *)

Definition chromatic : list string :=
  ["C"; "C#"; "D"; "D#"; "E"; "F"; "F#"; "G"; "G#"; "A"; "A#"; "B"].

Definition calculateInterval (rootNote noteName : string) : Z :=
  let rootIndex := indexOf chromatic rootNote in
  let noteIndex := indexOf chromatic noteName in
  if ((rootIndex =? -1) || (noteIndex =? -1))%Z then 0%Z
  else
    let interval := Z.rem (noteIndex - rootIndex) 12 in
    if (interval <? 0)%Z then (interval + 12)%Z else interval.

(** [0.75] is [75 # 100]. *)
Definition intervalsMatchChord (detectedIntervals chordIntervals : list Z) : bool :=
  let matchCount :=
    fold_left (fun matchCount interval =>
                 if includes detectedIntervals interval
                 then (matchCount + 1)%Z else matchCount)
              chordIntervals 0%Z in
  let matchRatio :=
    (inject_Z matchCount / inject_Z (Z.of_nat (List.length chordIntervals)))%Q in
  (3 <=? matchCount)%Z && Qle_bool (75 # 100) matchRatio.

(** The inner loop over [Object.entries(this.chordDefinitions)]: the first
    chord type, in table order, that the intervals match. *)
Fixpoint firstChordType (intervals : list Z)
         (definitions : list (string * list Z)) : option string :=
  match definitions with
  | [] => None
  | (chordType, chordIntervals) :: rest =>
      if intervalsMatchChord intervals chordIntervals then Some chordType
      else firstChordType intervals rest
  end.

(** The outer loop over the candidate roots. *)
Fixpoint tryRoots (noteNames roots : list string) : option Chord.id :=
  match roots with
  | [] => None
  | rootNote :: rest =>
      let intervals := sortZ (map (calculateInterval rootNote) noteNames) in
      match firstChordType intervals chordDefinitions with
      | Some chordType => Some (Chord.mkId rootNote chordType)
      | None => tryRoots noteNames rest
      end
  end.

Definition identifyChord (noteNames : list string) : option Chord.id :=
  if List.length noteNames <? 2 then None else tryRoots noteNames noteNames.

(* ================================================================== *)
(** ** detectChords *)

(** [0.2] is [2 # 10]. *)
Definition timeWindow : Q := 2 # 10.

Definition windowKey (pitch : Pitch.t) : Z :=
  Qfloor (Pitch.startTime pitch / timeWindow).

(** The object [timeWindows], as its properties in creation order. *)
Definition windows : Type := list (Z * list Pitch.t).

(** [if (!timeWindows[k]) timeWindows[k] = []; timeWindows[k].push(pitch)] *)
Fixpoint pushWindow (key : Z) (pitch : Pitch.t) (timeWindows : windows) : windows :=
  match timeWindows with
  | [] => [(key, [pitch])]
  | (k, ps) :: rest =>
      if (k =? key)%Z then (k, ps ++ [pitch]) :: rest
      else (k, ps) :: pushWindow key pitch rest
  end.

Definition groupByWindow (pitchData : list Pitch.t) : windows :=
  fold_left (fun timeWindows pitch => pushWindow (windowKey pitch) pitch timeWindows)
            pitchData [].

Fixpoint lookupWindow (key : Z) (timeWindows : windows) : list Pitch.t :=
  match timeWindows with
  | [] => []
  | (k, ps) :: rest => if (k =? key)%Z then ps else lookupWindow key rest
  end.

(** A property key that is an array index: a canonical integer in
    [0, 2^32 - 2]. *)
Definition isArrayIndex (k : Z) : bool := ((0 <=? k) && (k <? 2 ^ 32 - 1))%Z.

(** [Object.keys]: the array indices in ascending order, then the other
    keys in creation order. *)
Definition objectKeys (timeWindows : windows) : list Z :=
  let keys := map fst timeWindows in
  sortZ (filter isArrayIndex keys)
  ++ filter (fun k => negb (isArrayIndex k)) keys.

(** The body of the loop over the windows: the chord of one window, if
    any. *)
Definition chordOfWindow (notes : list Pitch.t) : option Chord.t :=
  if 2 <=? List.length notes then
    let startTime := minOf (map Pitch.startTime notes) in
    let endTime := maxOf (map Pitch.endTime notes) in
    let uniqueNotes :=
      uniqueStrings (map (fun n => Note.name (Pitch.note n)) notes) in
    match identifyChord uniqueNotes with
    | Some chord =>
        Some {| Chord.root := Chord.idRoot chord;
                Chord.type := Chord.idType chord;
                Chord.notes := uniqueNotes;
                Chord.startTime := startTime;
                Chord.endTime := endTime;
                Chord.duration := endTime - startTime |}
    | None => None
    end
  else None.

Definition detectChords (pitchData : list Pitch.t) : list Chord.t :=
  let timeWindows := groupByWindow pitchData in
  fold_left
    (fun chords key =>
       match chordOfWindow (lookupWindow key timeWindows) with
       | Some chord => chords ++ [chord]
       | None => chords
       end)
    (objectKeys timeWindows) [].

(* ================================================================== *)
(** ** generateSheetMusic *)

Definition notationType (durationMs : Q) : string :=
  if Qle_bool 1000 durationMs then "whole"
  else if Qle_bool 500 durationMs then "half"
  else if Qle_bool 250 durationMs then "quarter"
  else if Qle_bool 125 durationMs then "eighth"
  else "sixteenth".

Definition generateSheetMusic (pitchData : list Pitch.t) : Sheet.t :=
  let notes :=
    map (fun pitch =>
           let durationMs :=
             ((Pitch.endTime pitch - Pitch.startTime pitch) * 1000)%Q in
           {| Sheet.pitch := Note.name (Pitch.note pitch);
              Sheet.octave := Note.octave (Pitch.note pitch);
              Sheet.duration := notationType durationMs;
              Sheet.startTime := Pitch.startTime pitch |})
        pitchData in
  {| Sheet.notes := notes;
     Sheet.timeSignature := (4, 4)%Z;
     Sheet.clef := "treble" |}.

(* ================================================================== *)
(** ** convertToMusicalNotation and analyzeAudio *)

Definition convertToMusicalNotation (pitchData : list Pitch.t) : TranscriptionResult :=
  {| simpleNotes := generateSimpleNotes pitchData;
     complexChords := detectChords pitchData;
     sheetMusic := generateSheetMusic pitchData;
     rawPitchData := pitchData |}.

(** [try { ... } catch (error) { console.error(...); throw error; }]: a
    failure of the body is passed on unchanged. *)
Definition rethrow {A : Type} (body : outcome A) : outcome A :=
  match body with
  | Resolved a => Resolved a
  | Rejected error => Rejected error
  end.

(** No step of the body raises: the four stages are total functions of the
    buffer's fields, and the buffer is not validated. *)
Definition analyzeAudio (audioBuffer : AudioBuffer.t) : outcome TranscriptionResult :=
  rethrow
    (let monoAudio := convertToMono audioBuffer in
     let segments := segmentAudio monoAudio in
     let pitchData := detectPitches segments in
     let result := convertToMusicalNotation pitchData in
     Resolved result).

(* ================================================================== *)
(** ** NotationDisplay: what the renderer computes from [sheetMusic] *)

Definition measuresPerLine : nat := 4.
Definition notesPerMeasure : nat := 4.

(** [Math.ceil(a / b)] for integers [a >= 0] and [b > 0]. *)
Definition ceilDiv (a b : nat) : nat := (a + b - 1) / b.

(** [totalMeasures] and [lines] of [renderNotation], from the number of
    notes. *)
Definition totalMeasuresOf (n : nat) : nat := ceilDiv n notesPerMeasure.

Definition linesOf (n : nat) : nat := ceilDiv (totalMeasuresOf n) measuresPerLine.

(** The array [measures] of [renderNotation]. *)
Definition groupMeasures {A : Type} (notes : list A) : list (list A) :=
  map (fun i =>
         let startIdx := i * notesPerMeasure in
         let endIdx := Nat.min (startIdx + notesPerMeasure) (List.length notes) in
         slice notes startIdx endIdx)
      (seq 0 (totalMeasuresOf (List.length notes))).

(** The inner drawing loop of [renderNotation] for one line: the indices
    [measureIdx] it draws, from column [m] on.  [m] stays below
    [measuresPerLine], so that many iterations suffice. *)
Fixpoint lineMeasures (fuel totalMeasures line m : nat) : list nat :=
  match fuel with
  | O => []
  | S fuel' =>
      if (m <? measuresPerLine) && (line * measuresPerLine + m <? totalMeasures)
      then (line * measuresPerLine + m)
             :: lineMeasures fuel' totalMeasures line (S m)
      else []
  end.

(** All the measures [renderNotation] draws for [n] notes, in drawing
    order. *)
Definition drawnMeasures (n : nat) : list nat :=
  flat_map (fun line => lineMeasures measuresPerLine (totalMeasuresOf n) line 0)
           (seq 0 (linesOf n)).

(** The divisor of [staveWidth] on a line.  On the lines the loop reaches,
    [line * measuresPerLine < totalMeasures], so the difference is not
    negative. *)
Definition stavesOnLine (totalMeasures line : nat) : nat :=
  Nat.min measuresPerLine (totalMeasures - line * measuresPerLine).

(** [String.prototype.includes] with a one-character pattern. *)
Fixpoint includesChar (s : string) (c : ascii) : bool :=
  match s with
  | EmptyString => false
  | String c' s' => Ascii.eqb c' c || includesChar s' c
  end.

(** The accidental [createVexFlowNotes] adds to a note, if any. *)
Definition accidentalOf (pitch : string) : option string :=
  if includesChar pitch "#"%char then Some "#"
  else if includesChar pitch "b"%char then Some "b"
  else None.

Definition durationMap : list (string * string) :=
  [("whole", "w"); ("half", "h"); ("quarter", "q"); ("eighth", "8");
   ("sixteenth", "16")].

(** The names every object literal inherits from [Object.prototype]. *)
Definition objectPrototypeKeys : list string :=
  ["constructor"; "hasOwnProperty"; "isPrototypeOf"; "propertyIsEnumerable";
   "toLocaleString"; "toString"; "valueOf"; "__proto__"; "__defineGetter__";
   "__defineSetter__"; "__lookupGetter__"; "__lookupSetter__"].

(** What [durationMap[duration] || 'q'] evaluates to: a string, or a
    member inherited from [Object.prototype] (an object or a function,
    which is truthy and so returned as it is). *)
Inductive member : Type :=
| Str (s : string)
| Inherited (key : string).

Fixpoint ownProperty (key : string) (object : list (string * string)) : option string :=
  match object with
  | [] => None
  | (k, v) :: rest => if String.eqb k key then Some v else ownProperty key rest
  end.

Definition convertDuration (duration : string) : member :=
  match ownProperty duration durationMap with
  | Some code => Str code
  | None =>
      if existsb (String.eqb duration) objectPrototypeKeys
      then Inherited duration
      else Str "q"
  end.

(* ================================================================== *)
(** ** Vocabulary of the specification *)

(** Scientific pitch notation in 12-tone equal temperament at A4 = 440 Hz:
    name and octave of the pitch [k] semitones above A4.  The octave number
    changes at C, nine semitones below A. *)
Definition tetName (k : Z) : string := nth (Z.to_nat (k mod 12)) noteNames "".

Definition tetOctave (k : Z) : Z := (4 + (k + 9) / 12)%Z.

(** The number of offsets [0, overlap, 2 * overlap, ...] with
    [offset + bufferSize < n], the bound of the loop in [segmentAudio]. *)
Definition segmentCount (n : nat) : nat :=
  if n <=? bufferSize then 0 else (n - bufferSize - 1) / overlap + 1.

(** The number of offsets with [offset + bufferSize <= n], the bound the
    specification states. *)
Definition segmentCountInclusive (n : nat) : nat :=
  if n <? bufferSize then 0 else (n - bufferSize) / overlap + 1.

Definition segmentAt (audioData : list num) (k : nat) : list num :=
  slice audioData (k * overlap) (k * overlap + bufferSize).

(** [consolidateNotes] without the accumulator: the running note and the
    notes still to read. *)
Fixpoint consolidateFrom (currentNote : Pitch.t) (notes : list Pitch.t) : list Pitch.t :=
  match notes with
  | [] => [currentNote]
  | note :: rest =>
      if sameNote note currentNote
      then consolidateFrom (Pitch.withEndTime currentNote (Pitch.endTime note)) rest
      else currentNote :: consolidateFrom note rest
  end.

(** No note of the list merges into the one before it. *)
Fixpoint separated (previous : Pitch.t) (notes : list Pitch.t) : Prop :=
  match notes with
  | [] => True
  | note :: rest => sameNote note previous = false /\ separated note rest
  end.

Definition pitchName (p : Pitch.t) : string := Note.name (Pitch.note p).

(** A pitch sample given by note name, octave and time range, for examples
    in which frequency and cents play no part. *)
Definition mkPitch (name : string) (octave : Z) (startTime endTime : Q) : Pitch.t :=
  Pitch.mk 0 (Note.mk name octave 0 0) startTime endTime.

(** A sample that is zero, or missing. *)
Definition quiet (x : num) : Prop := x = Num 0 \/ x = NaN.

Definition finite (x : num) : Prop := exists r, x = Num r.

(** The channel arrays of the buffer do not all have one length. *)
Definition mismatched (b : AudioBuffer.t) : Prop :=
  exists c1 c2,
    In c1 (AudioBuffer.channelData b) /\ In c2 (AudioBuffer.channelData b)
    /\ List.length c1 <> List.length c2.

Definition emptyResult : TranscriptionResult :=
  {| simpleNotes := [];
     complexChords := [];
     sheetMusic := {| Sheet.notes := []; Sheet.timeSignature := (4, 4)%Z;
                      Sheet.clef := "treble" |};
     rawPitchData := [] |}.

(** The Hann weight [0.5 * (1 - cos (2 * pi * i / (L - 1)))]. *)
Definition hann (len i : nat) : R :=
  (0.5 * (1 - cos (2 * PI * INR i / (INR len - 1))))%R.

Definition sampleOf (segment : list num) (i : nat) : R :=
  match readNum segment i with
  | Num x => x
  | NaN => 0%R
  end.

Definition windowed (segment : list num) (i : nat) : R :=
  (sampleOf segment i * hann (List.length segment) i)%R.

(** [f 0 + f 1 + ... + f (n - 1)], summed in this order. *)
Definition sumTo (f : nat -> R) (n : nat) : R :=
  fold_left (fun sum i => (sum + f i)%R) (seq 0 n) 0%R.

(** The autocorrelation of the Hann-windowed segment at a lag:
    [R[lag] = sum over i < bufferSize - lag of x[i] * x[i + lag]]. *)
Definition acf (segment : list num) (lag : nat) : R :=
  sumTo (fun i => (windowed segment i * windowed segment (i + lag))%R)
        (bufferSize - lag).

(** [l] is the lowest lag of [lo, hi) at which [r] takes its maximum over
    [lo, hi): the pure argmax, ties to the lowest lag. *)
Definition firstArgmax (r : nat -> R) (lo hi l : nat) : Prop :=
  lo <= l < hi
  /\ (forall j, lo <= j < hi -> (r j <= r l)%R)
  /\ (forall j, lo <= j < l -> (r j < r l)%R).

(** [l] is the lowest lag of [lo, hi) at which the array holds its largest
    number over [lo, hi), and that number is positive.  An entry that
    holds no number (NaN) is neither a candidate nor a competitor. *)
Definition firstPositivePeak (autocorrelation : list num) (lo hi l : nat) : Prop :=
  lo <= l < hi
  /\ exists x,
       readNum autocorrelation l = Num x /\ (0 < x)%R
       /\ (forall j y, lo <= j < hi -> readNum autocorrelation j = Num y ->
                       (y <= x)%R)
       /\ (forall j y, lo <= j < l -> readNum autocorrelation j = Num y ->
                       (y < x)%R).

(** The array holds no positive number at the lags of [lo, hi). *)
Definition noPositiveValue (autocorrelation : list num) (lo hi : nat) : Prop :=
  forall j y, lo <= j < hi -> readNum autocorrelation j = Num y -> (y <= 0)%R.

(** An array of correlations with the same largest value at the lags 100
    and 200, and 0 elsewhere. *)
Definition twoPeaks : list num :=
  map (fun i => if (i =? 100) || (i =? 200) then Num 1 else Num 0)
      (seq 0 bufferSize).

(** The frequency [sampleRate / lag]. *)
Definition frequencyOfLag (lag : nat) : Q :=
  inject_Z sampleRate / inject_Z (Z.of_nat lag).

(** Non-decreasing order of a sequence of times. *)
Definition nondecreasing (times : list Q) : Prop := StronglySorted Qle times.

(** The time ranges [s1, e1] and [s2, e2] share more than an end point. *)
Definition overlapping (s1 e1 s2 e2 : Q) : Prop := (s1 < e2 /\ s2 < e1)%Q.

(** One pitch sample per segment whose detected frequency is in range, in
    segment order: the sequence before consolidation. *)
Fixpoint samplesFrom (i : nat) (segments : list (list num)) : list Pitch.t :=
  match segments with
  | [] => []
  | segment :: rest =>
      (if inRange (detectPitchAutocorrelation segment)
       then [pitchAt i (detectPitchAutocorrelation segment)]
       else [])
      ++ samplesFrom (S i) rest
  end.

Definition perSegmentSamples (segments : list (list num)) : list Pitch.t :=
  samplesFrom 0 segments.

(** The chords of the windows with the given keys, in this order. *)
Definition chordsOfKeys (timeWindows : windows) (keys : list Z) : list Chord.t :=
  flat_map (fun key => match chordOfWindow (lookupWindow key timeWindows) with
                       | Some chord => [chord]
                       | None => []
                       end)
           keys.

(** The name with its first ['#'] replaced, as [generateSimpleNotes] spells
    it. *)
Definition sharpen (name : string) : string := replaceFirst "#"%char sharpSign name.

(** The twelve note names, each with the spelling in which the ASCII
    ['#'] is replaced by the sharp sign U+266F. *)
Definition sharpSpelling : list (string * string) :=
  [("A", "A"); ("A#", "A♯"); ("B", "B"); ("C", "C"); ("C#", "C♯");
   ("D", "D"); ("D#", "D♯"); ("E", "E"); ("F", "F"); ("F#", "F♯");
   ("G", "G"); ("G#", "G♯")].

Fixpoint hasHash (s : string) : bool :=
  match s with
  | EmptyString => false
  | String c s' => Ascii.eqb c "#"%char || hasHash s'
  end.

(** A signal of [n] samples that is 1 at the given positions and 0
    elsewhere. *)
Definition impulseSignal (n : nat) (positions : list nat) : list num :=
  map (fun i => if existsb (Nat.eqb i) positions then Num 1 else Num 0)
      (seq 0 n).

(** [p] starts no later than [q]. *)
Definition startsBefore (p q : Pitch.t) : Prop :=
  (Pitch.startTime p <= Pitch.startTime q)%Q.

(** What every pitch sample of the pipeline satisfies: it starts at or
    after time 0, ends no earlier than it starts, has a frequency in the
    detection range and one of the twelve note names. *)
Definition wellFormed (p : Pitch.t) : Prop :=
  (0 <= Pitch.startTime p)%Q
  /\ (Pitch.startTime p <= Pitch.endTime p)%Q
  /\ inRange (Pitch.frequency p) = true
  /\ In (pitchName p) noteNames.

Definition chordStartsBefore (c c' : Chord.t) : Prop :=
  (Chord.startTime c <= Chord.startTime c')%Q.

(** One channel of [3 * overlap + 1] samples, hence two segments, with two
    impulses 100 samples apart that both segments see. *)
Definition sameNoteBuffer : AudioBuffer.t :=
  AudioBuffer.mk (3 * overlap + 1)
                 [impulseSignal (3 * overlap + 1) [3000; 3100]].

(** One channel of [3 * overlap + 1] samples with two impulses 100 samples
    apart that only the first segment sees, and two impulses 50 samples
    apart that only the second segment sees. *)
Definition twoNotesBuffer : AudioBuffer.t :=
  AudioBuffer.mk (3 * overlap + 1)
                 [impulseSignal (3 * overlap + 1) [1000; 1100; 4500; 4550]].

(** One channel of [6 * overlap + 1] samples, hence five segments, with
    three pairs of impulses: 100 samples apart, seen by segment 0 only; 79
    apart, seen by segments 1 and 2; 67 apart, seen by segments 3 and 4.
    The three notes start at 0, 46 and 139 ms, within one chord window. *)
Definition chordBuffer : AudioBuffer.t :=
  AudioBuffer.mk (6 * overlap + 1)
                 [impulseSignal (6 * overlap + 1)
                                [1000; 1100;
                                 bufferSize + 904; bufferSize + 983;
                                 2 * bufferSize + 808; 2 * bufferSize + 875]].

(** The notes [window] are notes of [pitchData] and contiguous in start
    time: with two of its notes, [window] holds every note of [pitchData]
    that starts no earlier than the one and no later than the other. *)
Definition contiguous (pitchData window : list Pitch.t) : Prop :=
  incl window pitchData
  /\ forall p q r,
       In p window -> In r window -> In q pitchData ->
       (Pitch.startTime p <= Pitch.startTime q)%Q ->
       (Pitch.startTime q <= Pitch.startTime r)%Q ->
       In q window.

(** [chord] spans the notes [window] and lists their names: it starts
    with the earliest start and ends with the latest end among them, its
    duration is end minus start, and its note names are exactly the
    names of these notes. *)
Definition spansWindow (window : list Pitch.t) (chord : Chord.t) : Prop :=
  (forall p, In p window ->
             (Chord.startTime chord <= Pitch.startTime p)%Q
             /\ (Pitch.endTime p <= Chord.endTime chord)%Q)
  /\ (exists p, In p window /\ Chord.startTime chord = Pitch.startTime p)
  /\ (exists p, In p window /\ Chord.endTime chord = Pitch.endTime p)
  /\ Chord.duration chord = (Chord.endTime chord - Chord.startTime chord)%Q
  /\ (forall name, In name (Chord.notes chord)
                   <-> exists p, In p window /\ pitchName p = name).

(** The time range of a simple note. *)
Definition simpleNoteEnd (s : SimpleNote.t) : Q :=
  (SimpleNote.startTime s + SimpleNote.duration s)%Q.

(** The segment multiplied by a constant gain. *)
Definition scaleBy (gain : R) (segment : list num) : list num :=
  map (nmul (Num gain)) segment.

(** [p] runs from the start of segment [i] to the end of segment [j], for
    some [lo <= i <= j < hi]. *)
Definition spans (lo hi : nat) (p : Pitch.t) : Prop :=
  exists i j,
    lo <= i /\ i <= j /\ j < hi
    /\ Pitch.startTime p = segmentStart i
    /\ Pitch.endTime p = (segmentStart j + segmentDuration)%Q.

(** Samples of single segments, in ascending order of segment index within
    [lo, hi). *)
Fixpoint chain (lo hi : nat) (samples : list Pitch.t) : Prop :=
  match samples with
  | [] => True
  | p :: rest =>
      exists i, lo <= i /\ i < hi
                /\ Pitch.startTime p = segmentStart i
                /\ Pitch.endTime p = (segmentStart i + segmentDuration)%Q
                /\ chain (S i) hi rest
  end.

(** The sample keeps the note computed from its own frequency. *)
Definition noteOfFrequency (p : Pitch.t) : Prop :=
  Pitch.note p = frequencyToNote (Pitch.frequency p).

(* ================================================================== *)
(** * Properties *)

(* ================================================================== *)
(** ** Chord identification *)

Lemma firstChordType_major_triad :
  firstChordType [0; 4; 7; 10]%Z chordDefinitions = Some "Major".
Proof. reflexivity. Qed.

(** The table is searched in its own order, so a set of intervals holding
    a full major triad never reaches the seventh chords. *)
Lemma firstChordType_with_major_triad (intervals : list Z) :
  includes intervals 0%Z = true ->
  includes intervals 4%Z = true ->
  includes intervals 7%Z = true ->
  firstChordType intervals chordDefinitions = Some "Major".
Proof.
  intros H0 H4 H7.
  unfold chordDefinitions, firstChordType, intervalsMatchChord.
  simpl fold_left. rewrite H0, H4, H7. reflexivity.
Qed.

Lemma identifyChord_C_E_G_Bb :
  identifyChord ["C"; "E"; "G"; "A#"] = Some (Chord.mkId "C" "Major").
Proof. reflexivity. Qed.

(** The pitch classes C, E, G, A# are not identified as C Dominant 7. *)
Lemma identifyChord_not_dominant7 :
  identifyChord ["C"; "E"; "G"; "A#"] <> Some (Chord.mkId "C" "Dominant 7").
Proof. rewrite identifyChord_C_E_G_Bb. discriminate. Qed.

(** In whatever order the four pitch classes are first seen, the answer is
    never a dominant seventh. *)
Lemma identifyChord_any_order_not_dominant7 (a b c d : string) :
  In a ["C"; "E"; "G"; "A#"] -> In b ["C"; "E"; "G"; "A#"] ->
  In c ["C"; "E"; "G"; "A#"] -> In d ["C"; "E"; "G"; "A#"] ->
  NoDup [a; b; c; d] ->
  exists chord, identifyChord [a; b; c; d] = Some chord
                /\ Chord.idType chord <> "Dominant 7".
Proof.
  intros Ha Hb Hc Hd Hnd.
  assert (Hab : a <> b /\ a <> c /\ a <> d /\ b <> c /\ b <> d /\ c <> d).
  { inversion Hnd as [|? ? Ha' Hnd1]; subst.
    inversion Hnd1 as [|? ? Hb' Hnd2]; subst.
    inversion Hnd2 as [|? ? Hc' _]; subst.
    simpl in Ha', Hb', Hc'. intuition congruence. }
  destruct Hab as (? & ? & ? & ? & ? & ?).
  simpl in Ha, Hb, Hc, Hd.
  repeat match goal with
         | H : _ \/ _ |- _ => destruct H
         | H : False |- _ => destruct H
         end; subst; try congruence;
    (eexists; split; [vm_compute; reflexivity | vm_compute; discriminate]).
Qed.

Lemma objectKeys_single (key : Z) (ps : list Pitch.t) :
  objectKeys [(key, ps)] = [key].
Proof.
  unfold objectKeys. simpl. destruct (isArrayIndex key); reflexivity.
Qed.

(** Four notes named C, E, G, A# that are grouped under one window key
    give exactly one chord, C Major, listing all four pitch classes. *)
Theorem detectChords_C_E_G_Bb_is_C_Major (p1 p2 p3 p4 : Pitch.t) :
  pitchName p1 = "C" -> pitchName p2 = "E" ->
  pitchName p3 = "G" -> pitchName p4 = "A#" ->
  windowKey p2 = windowKey p1 -> windowKey p3 = windowKey p1 ->
  windowKey p4 = windowKey p1 ->
  exists chord,
    detectChords [p1; p2; p3; p4] = [chord]
    /\ Chord.root chord = "C"
    /\ Chord.type chord = "Major"
    /\ Chord.notes chord = ["C"; "E"; "G"; "A#"].
Proof.
  unfold pitchName. intros N1 N2 N3 N4 K2 K3 K4.
  unfold detectChords, groupByWindow. cbn [fold_left].
  rewrite K2, K3, K4. cbn [pushWindow].
  repeat (rewrite Z.eqb_refl; cbn [pushWindow app]).
  rewrite objectKeys_single. cbn [fold_left lookupWindow]. rewrite Z.eqb_refl.
  unfold chordOfWindow. cbn [List.length Nat.leb map].
  rewrite N1, N2, N3, N4.
  change (uniqueStrings ["C"; "E"; "G"; "A#"]) with ["C"; "E"; "G"; "A#"].
  rewrite identifyChord_C_E_G_Bb.
  eexists. split; [reflexivity|]. simpl. auto.
Qed.

Lemma detectChords_C_E_G_Bb_is_C_Major_witness :
  exists chord,
    detectChords [mkPitch "C" 4 0 (1 # 10); mkPitch "E" 4 (5 # 100) (15 # 100);
                  mkPitch "G" 4 (1 # 10) (2 # 10); mkPitch "A#" 4 (15 # 100) (25 # 100)]
    = [chord]
    /\ Chord.root chord = "C"
    /\ Chord.type chord = "Major"
    /\ Chord.notes chord = ["C"; "E"; "G"; "A#"].
Proof.
  apply (detectChords_C_E_G_Bb_is_C_Major
           (mkPitch "C" 4 0 (1 # 10)) (mkPitch "E" 4 (5 # 100) (15 # 100))
           (mkPitch "G" 4 (1 # 10) (2 # 10)) (mkPitch "A#" 4 (15 # 100) (25 # 100)));
    reflexivity.
Defined.

(** C2 fails on the code: a complete dominant seventh is not named.  For
    the pitch classes C, E, G, A# the table entry "Dominant 7" matches
    with all four of its tones, and no entry after "Major" matches more;
    but "Major" comes first in the table and matches with its three, so
    [identifyChord] answers C Major, and [detectChords] reports C Major
    for four such notes starting at 0, 50, 100 and 150 ms, within one
    window of 200 ms. *)
Theorem identifyChord_complete_seventh_named_major :
  identifyChord ["C"; "E"; "G"; "A#"] = Some (Chord.mkId "C" "Major")
  /\ intervalsMatchChord
       (sortZ (map (calculateInterval "C") ["C"; "E"; "G"; "A#"]))
       [0; 4; 7; 10]%Z = true
  /\ detectChords [mkPitch "C" 4 0 (1 # 10); mkPitch "E" 4 (5 # 100) (15 # 100);
                   mkPitch "G" 4 (1 # 10) (2 # 10);
                   mkPitch "A#" 4 (15 # 100) (25 # 100)]
     = [Chord.mk "C" "Major" ["C"; "E"; "G"; "A#"] 0 (25 # 100)
                 ((25 # 100) - 0)%Q].
Proof. repeat split; vm_compute; reflexivity. Qed.

(* ================================================================== *)
(** ** Note consolidation *)

Lemma consolidateLoop_acc (notes consolidated : list Pitch.t) (currentNote : Pitch.t) :
  consolidateLoop notes consolidated currentNote
  = consolidated ++ consolidateFrom currentNote notes.
Proof.
  revert consolidated currentNote.
  induction notes as [|note rest IH]; intros consolidated currentNote; simpl.
  - reflexivity.
  - destruct (sameNote note currentNote).
    + apply IH.
    + rewrite IH, <- app_assoc. reflexivity.
Qed.

Lemma consolidateNotes_from (first : Pitch.t) (rest : list Pitch.t) :
  consolidateNotes (first :: rest) = consolidateFrom first rest.
Proof. unfold consolidateNotes. apply consolidateLoop_acc. Qed.

(** The merge test reads the name, octave and start of the incoming note
    and the name, octave and end of the running one. *)
Lemma sameNote_ext (n n' c c' : Pitch.t) :
  Pitch.note n = Pitch.note n' -> Pitch.startTime n = Pitch.startTime n' ->
  Pitch.note c = Pitch.note c' -> Pitch.endTime c = Pitch.endTime c' ->
  sameNote n c = sameNote n' c'.
Proof. unfold sameNote. intros -> -> -> ->. reflexivity. Qed.

(** A run of the loop emits first the running note with, possibly, a later
    end; what follows it never merges backwards. *)
Lemma consolidateFrom_separated (notes : list Pitch.t) :
  forall currentNote,
  exists head tail,
    consolidateFrom currentNote notes = head :: tail
    /\ Pitch.note head = Pitch.note currentNote
    /\ Pitch.startTime head = Pitch.startTime currentNote
    /\ Pitch.frequency head = Pitch.frequency currentNote
    /\ separated head tail.
Proof.
  induction notes as [|note rest IH]; intros currentNote; simpl.
  - exists currentNote, []. simpl. auto.
  - destruct (sameNote note currentNote) eqn:Hsame.
    + destruct (IH (Pitch.withEndTime currentNote (Pitch.endTime note)))
        as (head & tail & -> & Hn & Hs & Hf & Hsep).
      exists head, tail. simpl in Hn, Hs, Hf. auto.
    + destruct (IH note) as (head & tail & -> & Hn & Hs & Hf & Hsep).
      exists currentNote, (head :: tail). simpl. repeat split; trivial.
      rewrite <- Hsame. apply sameNote_ext; auto.
Qed.

Lemma consolidateFrom_fixed (notes : list Pitch.t) :
  forall currentNote,
  separated currentNote notes ->
  consolidateFrom currentNote notes = currentNote :: notes.
Proof.
  induction notes as [|note rest IH]; intros currentNote Hsep; simpl.
  - reflexivity.
  - destruct Hsep as [Hsame Hsep]. rewrite Hsame. f_equal. apply IH, Hsep.
Qed.

(** C9: consolidating a consolidated sequence changes nothing. *)
Theorem consolidateNotes_idempotent (xs : list Pitch.t) :
  consolidateNotes (consolidateNotes xs) = consolidateNotes xs.
Proof.
  destruct xs as [|first rest]; [reflexivity|].
  rewrite consolidateNotes_from.
  destruct (consolidateFrom_separated rest first)
    as (head & tail & -> & _ & _ & _ & Hsep).
  rewrite consolidateNotes_from. apply consolidateFrom_fixed, Hsep.
Qed.

Example consolidateNotes_merges_adjacent :
  consolidateNotes [mkPitch "A" 4 0 (1 # 10); mkPitch "A" 4 (1 # 10) (2 # 10);
                    mkPitch "B" 4 (2 # 10) (3 # 10); mkPitch "B" 4 (4 # 10) (5 # 10)]
  = [mkPitch "A" 4 0 (2 # 10); mkPitch "B" 4 (2 # 10) (3 # 10);
     mkPitch "B" 4 (4 # 10) (5 # 10)].
Proof. reflexivity. Qed.

(* ================================================================== *)
(** ** Segmentation *)

Lemma bufferSize_eq : Z.of_nat bufferSize = 4096%Z.
Proof. reflexivity. Qed.

Lemma overlap_eq : Z.of_nat overlap = 2048%Z.
Proof. reflexivity. Qed.

Lemma minSamples_eq : Z.of_nat minSamples = 44%Z.
Proof. reflexivity. Qed.

Lemma maxSamples_eq : Z.of_nat maxSamples = 552%Z.
Proof. reflexivity. Qed.

Global Opaque bufferSize overlap minSamples maxSamples.

Ltac sizes :=
  pose proof bufferSize_eq; pose proof overlap_eq;
  pose proof minSamples_eq; pose proof maxSamples_eq.

Lemma segmentCount_lt (n k : nat) :
  k < segmentCount n <-> k * overlap + bufferSize < n.
Proof.
  sizes. unfold segmentCount.
  destruct (Nat.leb_spec n bufferSize) as [Hle|Hlt].
  - split; [lia | nia].
  - assert (Hov : overlap = 2048) by lia.
    pose proof (Nat.div_mod_eq (n - bufferSize - 1) overlap) as Hdm.
    pose proof (Nat.mod_upper_bound (n - bufferSize - 1) overlap) as Hub.
    split; nia.
Qed.

Lemma segmentLoop_spec (audioData : list num) (fuel : nat) :
  forall k segments,
  segmentCount (List.length audioData) - k <= fuel ->
  segmentLoop fuel audioData (k * overlap) segments
  = segments ++ map (segmentAt audioData)
                    (seq k (segmentCount (List.length audioData) - k)).
Proof.
  induction fuel as [|fuel IH]; intros k segments Hfuel.
  - replace (segmentCount (List.length audioData) - k) with 0 by lia.
    simpl. rewrite app_nil_r. reflexivity.
  - cbn [segmentLoop].
    destruct (Z.ltb_spec (Z.of_nat (k * overlap))
                (Z.of_nat (List.length audioData) - Z.of_nat bufferSize)) as [Hlt|Hge].
    + assert (Hk : k < segmentCount (List.length audioData))
        by (apply segmentCount_lt; lia).
      replace (k * overlap + overlap) with (S k * overlap) by lia.
      rewrite IH by lia.
      replace (segmentCount (List.length audioData) - k)
        with (S (segmentCount (List.length audioData) - S k)) by lia.
      cbn [seq map]. rewrite <- app_assoc. reflexivity.
    + assert (Hk : ~ k < segmentCount (List.length audioData))
        by (rewrite segmentCount_lt; lia).
      replace (segmentCount (List.length audioData) - k) with 0 by lia.
      simpl. rewrite app_nil_r. reflexivity.
Qed.

Lemma segmentCount_le_length (n : nat) : segmentCount n <= n.
Proof.
  destruct (segmentCount n) as [|c] eqn:Hc; [lia|].
  assert (H : c < segmentCount n) by lia.
  apply segmentCount_lt in H. sizes. nia.
Qed.

(** What [segmentAudio] returns: the slices at the offsets [k * overlap]
    with [k * overlap + bufferSize < length audioData], in order.  The loop
    always runs to its end. *)
Theorem segmentAudio_offsets (audioData : list num) :
  segmentAudio audioData
  = map (segmentAt audioData) (seq 0 (segmentCount (List.length audioData))).
Proof.
  unfold segmentAudio.
  pose proof (segmentLoop_spec audioData (List.length audioData) 0 []) as H.
  cbn [Nat.mul app] in H. rewrite H.
  - rewrite Nat.sub_0_r. reflexivity.
  - pose proof (segmentCount_le_length (List.length audioData)). lia.
Qed.

Lemma segmentAt_length (audioData : list num) (k : nat) :
  k < segmentCount (List.length audioData) ->
  List.length (segmentAt audioData k) = bufferSize.
Proof.
  intros Hk. apply segmentCount_lt in Hk.
  unfold segmentAt, slice. rewrite length_firstn, length_skipn. lia.
Qed.

Lemma segmentAudio_lengths (audioData segment : list num) :
  In segment (segmentAudio audioData) -> List.length segment = bufferSize.
Proof.
  rewrite segmentAudio_offsets, in_map_iff.
  intros (k & <- & Hk). apply in_seq in Hk. apply segmentAt_length. lia.
Qed.

(** C6 fails on the code: a signal of exactly [bufferSize] samples holds one
    whole window, [0 + bufferSize <= length], and yet yields no segment. *)
Theorem segmentAudio_exact_length_yields_nothing :
  segmentCountInclusive (List.length (repeat (Num 0) bufferSize)) = 1
  /\ segmentAudio (repeat (Num 0) bufferSize) = [].
Proof.
  rewrite segmentAudio_offsets, repeat_length. split.
  - unfold segmentCountInclusive. rewrite Nat.ltb_irrefl, Nat.sub_diag.
    reflexivity.
  - unfold segmentCount. rewrite Nat.leb_refl. reflexivity.
Qed.

(* ================================================================== *)
(** ** The note mapper *)

Lemma mathRound_near (x : R) (k : Z) :
  (IZR k - / 2 <= x)%R -> (x < IZR k + / 2)%R -> mathRound x = k.
Proof.
  intros Hlo Hhi. unfold mathRound. symmetry. apply Int_part_spec. lra.
Qed.

Lemma mathRound_bounds (x : R) :
  (IZR (mathRound x) - / 2 <= x < IZR (mathRound x) + / 2)%R.
Proof.
  unfold mathRound. pose proof (base_Int_part (x + / 2)) as [Hle Hgt]. lra.
Qed.

Lemma ln_2_pos : (0 < ln 2)%R.
Proof. pose proof ln_lt_2. lra. Qed.

Lemma log2_1 : log2 1 = 0%R.
Proof. unfold log2. rewrite ln_1. unfold Rdiv. ring. Qed.

Lemma log2_Rpower (y : R) : log2 (Rpower 2 y) = y.
Proof.
  unfold log2. rewrite ln_Rpower. field. pose proof ln_2_pos. lra.
Qed.

Lemma log2_div (x y : R) :
  (0 < x)%R -> (0 < y)%R -> log2 (x / y) = (log2 x - log2 y)%R.
Proof.
  intros Hx Hy. unfold log2.
  change (x / y)%R with (x * / y)%R.
  rewrite ln_mult, ln_Rinv; try assumption.
  - field. pose proof ln_2_pos. lra.
  - apply Rinv_0_lt_compat, Hy.
Qed.

Lemma semitoneRatio_pos : (0 < semitoneRatio)%R.
Proof. unfold semitoneRatio, Rpower. apply exp_pos. Qed.

Lemma log2_semitoneRatio_power (k : Z) :
  log2 (Rpower semitoneRatio (IZR k)) = (IZR k / 12)%R.
Proof.
  unfold log2, semitoneRatio. rewrite !ln_Rpower. field.
  pose proof ln_2_pos. lra.
Qed.

Lemma closestNoteFreq_pos (k : Z) : (0 < closestNoteFreq k)%R.
Proof.
  unfold closestNoteFreq, a4. apply Rmult_lt_0_compat; [lra|].
  unfold Rpower. apply exp_pos.
Qed.

Lemma log2_mult (x y : R) :
  (0 < x)%R -> (0 < y)%R -> log2 (x * y) = (log2 x + log2 y)%R.
Proof.
  intros Hx Hy. unfold log2. rewrite ln_mult by assumption.
  field. pose proof ln_2_pos. lra.
Qed.

(** The deviation from the nearest note, in cents, before rounding. *)
Lemma cents_argument (frequency : Q) (k : Z) :
  (0 < Q2R frequency)%R ->
  (1200 * log2 (Q2R frequency / closestNoteFreq k)
   = 100 * (12 * log2 (Q2R frequency / a4) - IZR k))%R.
Proof.
  intros Hf. pose proof (closestNoteFreq_pos k) as Hc.
  assert (Ha : (0 < a4)%R) by (unfold a4; lra).
  rewrite !log2_div by trivial.
  unfold closestNoteFreq.
  rewrite log2_mult by (trivial; unfold Rpower; apply exp_pos).
  rewrite log2_semitoneRatio_power. field.
Qed.

(** The part of C1 that holds: the deviation is at most 50 cents either
    way, for every positive frequency. *)
Lemma frequencyToNote_cents_range (frequency : Q) :
  (0 < frequency)%Q ->
  (-50 <= Note.cents (frequencyToNote frequency) <= 50)%Z.
Proof.
  intros Hf. apply Qlt_Rlt in Hf. rewrite RMicromega.Q2R_0 in Hf.
  cbn [frequencyToNote Note.cents]. unfold centsOf.
  set (k := semitonesFromA4 frequency).
  pose proof (mathRound_bounds (12 * log2 (Q2R frequency / a4))) as Hk.
  fold (semitonesFromA4 frequency) in Hk. fold k in Hk.
  rewrite (cents_argument frequency k Hf).
  set (x := (12 * log2 (Q2R frequency / a4))%R) in *.
  pose proof (mathRound_bounds (100 * (x - IZR k))) as Hc.
  set (c := mathRound (100 * (x - IZR k))) in *.
  split.
  - apply Z.lt_pred_le, lt_IZR. simpl Z.pred. lra.
  - apply Z.lt_succ_r, lt_IZR. simpl Z.succ. lra.
Qed.

(** Rounding [12 * log2 (f / 440)] to [k] is a comparison of
    [(f / 440) ^ 24] with two powers of two. *)
Lemma semitonesFromA4_bracket (frequency : Q) (k : Z) :
  (0 < Q2R frequency)%R ->
  (powerRZ 2 (2 * k - 1) <= (Q2R frequency / 440) ^ 24)%R ->
  ((Q2R frequency / 440) ^ 24 < powerRZ 2 (2 * k + 1))%R ->
  semitonesFromA4 frequency = k.
Proof.
  intros Hf Hlo Hhi. unfold semitonesFromA4, a4.
  set (x := (Q2R frequency / 440)%R) in *.
  assert (Hx : (0 < x)%R) by (unfold x; apply Rdiv_lt_0_compat; lra).
  assert (Hx24 : (0 < x ^ 24)%R) by (apply pow_lt; exact Hx).
  pose proof ln_2_pos as Hln2.
  assert (Hp : forall m : Z, ln (powerRZ 2 m) = (IZR m * ln 2)%R).
  { intros m. rewrite powerRZ_Rpower by lra. apply ln_Rpower. }
  assert (Hpos : forall m : Z, (0 < powerRZ 2 m)%R).
  { intros m. apply powerRZ_lt. lra. }
  assert (H24 : ln (x ^ 24) = (24 * ln x)%R).
  { rewrite ln_pow by exact Hx. simpl INR. ring. }
  assert (Hlo' : (IZR (2 * k - 1) * ln 2 <= 24 * ln x)%R).
  { rewrite <- Hp, <- H24. destruct Hlo as [Hlt|Heq].
    - left. apply ln_increasing; [apply Hpos | exact Hlt].
    - right. rewrite Heq. reflexivity. }
  assert (Hhi' : (24 * ln x < IZR (2 * k + 1) * ln 2)%R).
  { rewrite <- Hp, <- H24. apply ln_increasing; assumption. }
  rewrite minus_IZR, mult_IZR in Hlo'. rewrite plus_IZR, mult_IZR in Hhi'.
  apply mathRound_near; unfold log2.
  - apply Rmult_le_reg_r with (ln 2); [exact Hln2|].
    replace (12 * (ln x / ln 2) * ln 2)%R with (12 * ln x)%R by (field; lra).
    lra.
  - apply Rmult_lt_reg_r with (ln 2); [exact Hln2|].
    replace (12 * (ln x / ln 2) * ln 2)%R with (12 * ln x)%R by (field; lra).
    lra.
Qed.

Ltac semitones k :=
  apply (semitonesFromA4_bracket _ k); unfold Q2R; simpl; lra.

Lemma semitonesFromA4_440 : semitonesFromA4 440 = 0%Z.
Proof. semitones 0%Z. Qed.

Lemma Q2R_440_over_a4 : (Q2R 440 / a4 = 1)%R.
Proof. unfold Q2R, a4. simpl. field. Qed.

Lemma centsOf_440 : centsOf 440 0 = 0%Z.
Proof.
  unfold centsOf. rewrite cents_argument by (unfold Q2R; simpl; lra).
  rewrite Q2R_440_over_a4, log2_1. apply mathRound_near; lra.
Qed.

(** C1 fails on the code: 440 Hz is A4, and [frequencyToNote] names it F#.
    The index [(semitones + 9) mod 12] counts from C, while [noteNames]
    starts at A. *)
Theorem frequencyToNote_A4 :
  frequencyToNote 440 = Note.mk "F#" 4 440 0
  /\ tetName 0 = "A" /\ tetOctave 0 = 4%Z.
Proof.
  unfold frequencyToNote. rewrite semitonesFromA4_440, centsOf_440.
  repeat split.
Qed.

(** Middle C, 261.63 Hz, is C4; [frequencyToNote] answers A3. *)
Lemma frequencyToNote_middle_C :
  Note.name (frequencyToNote (26163 # 100)) = "A"
  /\ Note.octave (frequencyToNote (26163 # 100)) = 3%Z
  /\ tetName (-9) = "C" /\ tetOctave (-9) = 4%Z.
Proof.
  assert (H : semitonesFromA4 (26163 # 100) = (-9)%Z) by semitones (-9)%Z.
  cbn [frequencyToNote Note.name Note.octave]. rewrite H. repeat split.
Qed.

Lemma noteIndexOf_mod (k : Z) : noteIndexOf k = ((k + 9) mod 12)%Z.
Proof.
  unfold noteIndexOf.
  destruct (Z.ltb_spec (Z.rem (k + 9) 12) 0).
  - apply (Z.mod_unique _ _ (Z.quot (k + 9) 12 - 1));
      Z.quot_rem_to_equations; lia.
  - apply (Z.mod_unique _ _ (Z.quot (k + 9) 12));
      Z.quot_rem_to_equations; lia.
Qed.

Lemma noteNames_NoDup : NoDup noteNames.
Proof.
  unfold noteNames.
  repeat (constructor; [simpl; intuition discriminate|]). constructor.
Qed.

(** The defect is uniform: whatever the frequency, the name returned is
    that of the pitch nine semitones above the nearest one, and so never
    the name of the nearest pitch itself. *)
Lemma frequencyToNote_name_nine_above (frequency : Q) :
  Note.name (frequencyToNote frequency) = tetName (semitonesFromA4 frequency + 9)
  /\ Note.name (frequencyToNote frequency) <> tetName (semitonesFromA4 frequency).
Proof.
  cbn [frequencyToNote Note.name]. set (k := semitonesFromA4 frequency).
  rewrite noteIndexOf_mod. unfold tetName. split; [reflexivity|].
  pose proof (Z.mod_pos_bound k 12 eq_refl) as Hk.
  pose proof (Z.mod_pos_bound (k + 9) 12 eq_refl) as Hk9.
  intros Heq.
  apply (proj1 (NoDup_nth noteNames "") noteNames_NoDup) in Heq;
    [|change (List.length noteNames) with 12; lia ..].
  assert (Hm : ((k + 9) mod 12 = (k mod 12 + 9) mod 12)%Z)
    by (rewrite Zplus_mod_idemp_l; reflexivity).
  assert (Hc : ((k + 9) mod 12 = k mod 12)%Z) by lia.
  rewrite Hm in Hc.
  assert (Hcases : (k mod 12 < 3 \/ 3 <= k mod 12)%Z) by lia.
  destruct Hcases.
  - rewrite Z.mod_small in Hc; lia.
  - replace (k mod 12 + 9)%Z with ((k mod 12 - 3) + 1 * 12)%Z in Hc by lia.
    rewrite Z.mod_add, Z.mod_small in Hc; lia.
Qed.

Lemma noteIndexOf_range (k : Z) : (0 <= noteIndexOf k < 12)%Z.
Proof. rewrite noteIndexOf_mod. apply Z.mod_pos_bound. reflexivity. Qed.

Lemma frequencyToNote_name_in (frequency : Q) :
  In (Note.name (frequencyToNote frequency)) noteNames.
Proof.
  cbn [frequencyToNote Note.name]. apply nth_In.
  pose proof (noteIndexOf_range (semitonesFromA4 frequency)).
  change (List.length noteNames) with 12. lia.
Qed.

(* ================================================================== *)
(** ** Silence *)

Lemma nadd_quiet (a b : num) : quiet a -> quiet b -> quiet (nadd a b).
Proof.
  intros [-> | ->] [-> | ->]; simpl; try (right; reflexivity).
  left. f_equal. lra.
Qed.

Lemma nmul_quiet_l (a b : num) : quiet a -> quiet (nmul a b).
Proof.
  intros [-> | ->]; destruct b as [y|]; simpl; try (right; reflexivity).
  left. f_equal. lra.
Qed.

Lemma ndiv_quiet_l (a b : num) : quiet a -> quiet (ndiv a b).
Proof.
  intros [-> | ->]; destruct b as [y|]; simpl; try (right; reflexivity).
  destruct (Req_dec_T y 0); [right; reflexivity|].
  left. f_equal. unfold Rdiv. lra.
Qed.

Lemma readNum_quiet (a : list num) (i : nat) :
  Forall quiet a -> quiet (readNum a i).
Proof.
  intros Ha. unfold readNum.
  destruct (nth_in_or_default i a NaN) as [Hin | ->].
  - rewrite Forall_forall in Ha. apply Ha, Hin.
  - right. reflexivity.
Qed.

Lemma fold_left_invariant {A B : Type} (P : A -> Prop) (f : A -> B -> A)
      (l : list B) (a : A) :
  P a -> (forall x y, P x -> In y l -> P (f x y)) -> P (fold_left f l a).
Proof.
  revert a. induction l as [|y l IH]; intros a Ha Hf; simpl.
  - exact Ha.
  - apply IH.
    + apply Hf; [exact Ha | left; reflexivity].
    + intros x z Hx Hz. apply Hf; [exact Hx | right; exact Hz].
Qed.

Lemma applyHannWindow_quiet (buffer : list num) :
  Forall quiet buffer -> Forall quiet (applyHannWindow buffer).
Proof.
  intros Hb. unfold applyHannWindow. apply Forall_forall.
  intros x Hx. apply in_map_iff in Hx. destruct Hx as (i & <- & _).
  apply nmul_quiet_l, readNum_quiet, Hb.
Qed.

Lemma autocorrelationAt_quiet (windowedBuffer : list num) (lag : nat) :
  Forall quiet windowedBuffer -> quiet (autocorrelationAt windowedBuffer lag).
Proof.
  intros Hw. unfold autocorrelationAt. apply fold_left_invariant.
  - left. reflexivity.
  - intros sum i Hsum _. apply nadd_quiet; [exact Hsum|].
    apply nmul_quiet_l, readNum_quiet, Hw.
Qed.

Lemma autocorrelationOf_quiet (windowedBuffer : list num) :
  Forall quiet windowedBuffer -> Forall quiet (autocorrelationOf windowedBuffer).
Proof.
  intros Hw. unfold autocorrelationOf. apply Forall_forall.
  intros x Hx. apply in_map_iff in Hx. destruct Hx as (lag & <- & _).
  apply autocorrelationAt_quiet, Hw.
Qed.

(** A correlation that is zero or missing never beats the initial
    [maxCorrelation = 0]. *)
Lemma peakSearch_quiet (autocorrelation : list num) :
  Forall quiet autocorrelation ->
  peakSearch autocorrelation = (0%R, (-1)%Z).
Proof.
  intros Ha. unfold peakSearch.
  apply (fold_left_invariant (fun st => st = (0%R, (-1)%Z))); [reflexivity|].
  intros st i -> _. unfold peakStep.
  destruct (readNum_quiet autocorrelation i Ha) as [-> | ->]; [|reflexivity].
  cbn [fst]. destruct (Rlt_dec 0 0) as [Hlt|_]; [lra | reflexivity].
Qed.

Lemma detectPitchAutocorrelation_quiet (buffer : list num) :
  Forall quiet buffer -> detectPitchAutocorrelation buffer = 0%Q.
Proof.
  intros Hb. unfold detectPitchAutocorrelation.
  rewrite peakSearch_quiet; [reflexivity|].
  apply autocorrelationOf_quiet, applyHannWindow_quiet, Hb.
Qed.

Lemma firstn_Forall {A : Type} (P : A -> Prop) (n : nat) (a : list A) :
  Forall P a -> Forall P (firstn n a).
Proof.
  intros Ha. revert n. induction Ha as [|x a Hx _ IH]; intros [|n]; simpl;
    constructor; auto.
Qed.

Lemma skipn_Forall {A : Type} (P : A -> Prop) (n : nat) (a : list A) :
  Forall P a -> Forall P (skipn n a).
Proof.
  intros Ha. revert n. induction Ha as [|x a Hx Ha IH]; intros [|n]; simpl;
    auto.
Qed.

Lemma slice_Forall {A : Type} (P : A -> Prop) (a : list A) (start stop : nat) :
  Forall P a -> Forall P (slice a start stop).
Proof. intros Ha. apply firstn_Forall, skipn_Forall, Ha. Qed.

Lemma segmentAudio_Forall (P : num -> Prop) (audioData : list num) :
  Forall P audioData -> Forall (Forall P) (segmentAudio audioData).
Proof.
  intros Ha. rewrite segmentAudio_offsets. apply Forall_forall.
  intros segment Hs. apply in_map_iff in Hs. destruct Hs as (k & <- & _).
  apply slice_Forall, Ha.
Qed.

Lemma channelSum_quiet (b : AudioBuffer.t) (numChannels i : nat) :
  Forall (Forall (eq (Num 0))) (AudioBuffer.channelData b) ->
  quiet (channelSum b numChannels i).
Proof.
  intros Hb. unfold channelSum. apply fold_left_invariant.
  - left. reflexivity.
  - intros sum channel Hsum _. apply nadd_quiet; [exact Hsum|].
    unfold readNum, AudioBuffer.getChannelData.
    destruct (nth_in_or_default channel (AudioBuffer.channelData b) [])
      as [Hin | ->].
    + rewrite Forall_forall in Hb. specialize (Hb _ Hin).
      destruct (nth_in_or_default i (nth channel (AudioBuffer.channelData b) []) NaN)
        as [Hin' | ->]; [|right; reflexivity].
      rewrite Forall_forall in Hb. left. symmetry. apply Hb, Hin'.
    + destruct i; right; reflexivity.
Qed.

Lemma convertToMono_quiet (b : AudioBuffer.t) :
  Forall (Forall (eq (Num 0))) (AudioBuffer.channelData b) ->
  Forall quiet (convertToMono b).
Proof.
  intros Hb. unfold convertToMono.
  destruct (AudioBuffer.numberOfChannels b =? 1) eqn:Hn.
  - unfold AudioBuffer.getChannelData.
    destruct (nth_in_or_default 0 (AudioBuffer.channelData b) []) as [Hin | ->];
      [|constructor].
    rewrite Forall_forall in Hb. specialize (Hb _ Hin).
    eapply Forall_impl; [|exact Hb]. intros x <-. left. reflexivity.
  - apply Forall_forall. intros x Hx. apply in_map_iff in Hx.
    destruct Hx as (i & <- & _). apply ndiv_quiet_l, channelSum_quiet, Hb.
Qed.

Lemma inRange_0 : inRange 0 = false.
Proof. reflexivity. Qed.

Lemma detectLoop_cons (segment : list num) (rest : list (list num)) (i : nat)
      (pitches : list Pitch.t) :
  detectLoop (segment :: rest) i pitches
  = detectLoop rest (S i)
      (if inRange (detectPitchAutocorrelation segment)
       then pitches ++ [pitchAt i (detectPitchAutocorrelation segment)]
       else pitches).
Proof. unfold detectLoop at 1. fold detectLoop. reflexivity. Qed.

Lemma detectLoop_quiet (segments : list (list num)) :
  Forall (Forall quiet) segments ->
  forall i pitches, detectLoop segments i pitches = pitches.
Proof.
  induction 1 as [|segment rest Hs _ IH]; intros i pitches.
  - reflexivity.
  - rewrite detectLoop_cons, (detectPitchAutocorrelation_quiet segment Hs).
    rewrite inRange_0. apply IH.
Qed.

(** C8: a buffer of digital silence, whatever its channel count and
    length, resolves to a transcription with no raw pitch data, no simple
    notes and no chords. *)
Theorem analyzeAudio_silence (b : AudioBuffer.t) :
  Forall (Forall (eq (Num 0))) (AudioBuffer.channelData b) ->
  exists result,
    analyzeAudio b = Resolved result
    /\ rawPitchData result = []
    /\ simpleNotes result = []
    /\ complexChords result = [].
Proof.
  intros Hb. exists emptyResult. split; [|repeat split].
  unfold analyzeAudio, detectPitches, rethrow.
  rewrite detectLoop_quiet; [reflexivity|].
  apply segmentAudio_Forall, convertToMono_quiet, Hb.
Qed.

Lemma Forall_repeat {A : Type} (P : A -> Prop) (x : A) (n : nat) :
  P x -> Forall P (repeat x n).
Proof. intros Hx. induction n; simpl; constructor; assumption. Qed.

Lemma analyzeAudio_silence_witness :
  exists result,
    analyzeAudio
      (AudioBuffer.mk (2 * bufferSize + 1)
                      [repeat (Num 0) (2 * bufferSize + 1);
                       repeat (Num 0) (2 * bufferSize + 1)])
    = Resolved result
    /\ rawPitchData result = []
    /\ simpleNotes result = []
    /\ complexChords result = [].
Proof.
  apply (analyzeAudio_silence
           (AudioBuffer.mk (2 * bufferSize + 1)
                           [repeat (Num 0) (2 * bufferSize + 1);
                            repeat (Num 0) (2 * bufferSize + 1)])).
  cbn [AudioBuffer.channelData].
  apply Forall_cons; [apply Forall_repeat; reflexivity|].
  apply Forall_cons; [apply Forall_repeat; reflexivity|].
  apply Forall_nil.
Defined.

(* ================================================================== *)
(** ** Buffers whose channels differ in length *)

Lemma convertToMono_length (b : AudioBuffer.t) :
  AudioBuffer.numberOfChannels b <> 1 ->
  List.length (convertToMono b) = AudioBuffer.length b.
Proof.
  intros Hn. unfold convertToMono.
  destruct (Nat.eqb_spec (AudioBuffer.numberOfChannels b) 1) as [H1|_];
    [contradiction|].
  rewrite length_map, length_seq. reflexivity.
Qed.

Lemma fold_nadd_NaN {B : Type} (f : B -> num) (l : list B) :
  fold_left (fun sum x => nadd sum (f x)) l NaN = NaN.
Proof. induction l as [|x l IH]; simpl; [reflexivity | exact IH]. Qed.

(** One missing sample makes the whole sum [NaN]. *)
Lemma fold_nadd_missing {B : Type} (f : B -> num) (l : list B) (x : B) :
  In x l -> f x = NaN ->
  forall sum, fold_left (fun sum x => nadd sum (f x)) l sum = NaN.
Proof.
  intros Hin Hx. induction l as [|y l IH]; intros sum; [destruct Hin|].
  simpl. destruct Hin as [-> | Hin].
  - rewrite Hx. destruct sum; simpl; apply fold_nadd_NaN.
  - apply IH, Hin.
Qed.

Lemma mismatched_channels (b : AudioBuffer.t) :
  mismatched b -> AudioBuffer.numberOfChannels b <> 1.
Proof.
  intros (c1 & c2 & H1 & H2 & Hne) Hn. unfold AudioBuffer.numberOfChannels in Hn.
  destruct (AudioBuffer.channelData b) as [|c [|c' l]]; try discriminate.
  destruct H1 as [<- | []], H2 as [<- | []]. apply Hne. reflexivity.
Qed.

Lemma convertToMono_missing (b : AudioBuffer.t) (channel i : nat) :
  AudioBuffer.numberOfChannels b <> 1 ->
  channel < AudioBuffer.numberOfChannels b ->
  List.length (AudioBuffer.getChannelData b channel) <= i ->
  i < AudioBuffer.length b ->
  readNum (convertToMono b) i = NaN.
Proof.
  intros Hn Hc Hshort Hi. unfold convertToMono.
  destruct (Nat.eqb_spec (AudioBuffer.numberOfChannels b) 1) as [H1|_];
    [contradiction|].
  unfold readNum at 1.
  rewrite (nth_indep _ NaN (ndiv (channelSum b (AudioBuffer.numberOfChannels b) 0)
                                 (Num (INR (AudioBuffer.numberOfChannels b)))))
    by (rewrite length_map, length_seq; exact Hi).
  rewrite (map_nth (fun i => ndiv (channelSum b (AudioBuffer.numberOfChannels b) i)
                                  (Num (INR (AudioBuffer.numberOfChannels b))))
                   (seq 0 (AudioBuffer.length b)) 0 i).
  rewrite seq_nth by exact Hi. cbn [Nat.add].
  unfold channelSum.
  rewrite (fold_nadd_missing
             (fun channel => readNum (AudioBuffer.getChannelData b channel) i)
             (seq 0 (AudioBuffer.numberOfChannels b)) channel).
  - reflexivity.
  - apply in_seq. lia.
  - unfold readNum. apply nth_overflow. exact Hshort.
Qed.

(** The buffer of the counterexample: two channels, of three and of two
    samples. *)
Lemma analyzeAudio_mismatched_resolves :
  mismatched (AudioBuffer.mk 3 [[Num 1; Num 1; Num 1]; [Num 1; Num 1]])
  /\ analyzeAudio (AudioBuffer.mk 3 [[Num 1; Num 1; Num 1]; [Num 1; Num 1]])
     = Resolved emptyResult.
Proof.
  split.
  - exists [Num 1; Num 1; Num 1], [Num 1; Num 1]. simpl. intuition discriminate.
  - unfold analyzeAudio, rethrow. rewrite segmentAudio_offsets.
    rewrite convertToMono_length by (cbn; discriminate).
    cbn [AudioBuffer.length]. unfold segmentCount.
    replace (3 <=? bufferSize) with true
      by (symmetry; apply Nat.leb_le; sizes; lia).
    reflexivity.
Qed.

(** C5 fails on the code: a buffer whose channels differ in length is not
    rejected; it resolves, here to the very result silence gives. *)
Lemma analyzeAudio_mismatched_not_rejected :
  ~ (forall b, mismatched b -> exists error, analyzeAudio b = Rejected error).
Proof.
  intros H. destruct analyzeAudio_mismatched_resolves as [Hm Hr].
  destruct (H _ Hm) as [error He]. rewrite Hr in He. discriminate.
Qed.

(** C5, as the code has it: nothing validates the buffer.  A buffer whose
    channels differ in length always resolves; the downmix keeps the
    announced [length] (nothing is cut to the shortest channel), and
    every index that some channel lacks becomes [NaN]. *)
Theorem analyzeAudio_mismatched (b : AudioBuffer.t) :
  mismatched b ->
  (exists result, analyzeAudio b = Resolved result)
  /\ List.length (convertToMono b) = AudioBuffer.length b
  /\ (forall channel i,
        channel < AudioBuffer.numberOfChannels b ->
        List.length (AudioBuffer.getChannelData b channel) <= i ->
        i < AudioBuffer.length b ->
        readNum (convertToMono b) i = NaN).
Proof.
  intros Hm. pose proof (mismatched_channels b Hm) as Hn. split; [|split].
  - eexists. unfold analyzeAudio, rethrow. reflexivity.
  - apply convertToMono_length, Hn.
  - intros channel i. apply convertToMono_missing, Hn.
Qed.

Lemma analyzeAudio_mismatched_witness :
  (exists result,
      analyzeAudio (AudioBuffer.mk 3 [[Num 1; Num 1; Num 1]; [Num 1; Num 1]])
      = Resolved result)
  /\ List.length
       (convertToMono (AudioBuffer.mk 3 [[Num 1; Num 1; Num 1]; [Num 1; Num 1]]))
     = 3
  /\ (forall channel i,
        channel < 2 ->
        List.length
          (AudioBuffer.getChannelData
             (AudioBuffer.mk 3 [[Num 1; Num 1; Num 1]; [Num 1; Num 1]]) channel)
        <= i ->
        i < 3 ->
        readNum
          (convertToMono (AudioBuffer.mk 3 [[Num 1; Num 1; Num 1]; [Num 1; Num 1]]))
          i = NaN).
Proof.
  apply (analyzeAudio_mismatched
           (AudioBuffer.mk 3 [[Num 1; Num 1; Num 1]; [Num 1; Num 1]])).
  exists [Num 1; Num 1; Num 1], [Num 1; Num 1]. simpl. intuition discriminate.
Defined.

(* ================================================================== *)
(** ** The pitch estimator *)

Lemma windowValue_hann (len i : nat) :
  len <> 1 -> windowValue len i = Num (hann len i).
Proof.
  intros Hlen. unfold windowValue, ndiv, ncos, hann.
  destruct (Req_dec_T (INR len - 1) 0) as [H0|_]; [|reflexivity].
  exfalso. apply Hlen. apply INR_eq. rewrite INR_1. lra.
Qed.

Lemma applyHannWindow_length (buffer : list num) :
  List.length (applyHannWindow buffer) = List.length buffer.
Proof. unfold applyHannWindow. rewrite length_map, length_seq. reflexivity. Qed.

Lemma readNum_finite (a : list num) (i : nat) :
  Forall finite a -> i < List.length a -> readNum a i = Num (sampleOf a i).
Proof.
  intros Ha Hi. unfold sampleOf.
  assert (Hf : finite (readNum a i)).
  { rewrite Forall_forall in Ha. apply Ha. unfold readNum. apply nth_In, Hi. }
  destruct Hf as [r ->]. reflexivity.
Qed.

Lemma applyHannWindow_read (buffer : list num) (i : nat) :
  Forall finite buffer -> List.length buffer <> 1 -> i < List.length buffer ->
  readNum (applyHannWindow buffer) i = Num (windowed buffer i).
Proof.
  intros Hb Hlen Hi. unfold applyHannWindow, readNum at 1.
  rewrite (nth_indep _ NaN (nmul (readNum buffer 0)
                                 (windowValue (List.length buffer) 0)))
    by (rewrite length_map, length_seq; exact Hi).
  rewrite (map_nth (fun i => nmul (readNum buffer i)
                                  (windowValue (List.length buffer) i))
                   (seq 0 (List.length buffer)) 0 i).
  rewrite seq_nth by exact Hi. cbn [Nat.add].
  rewrite readNum_finite, windowValue_hann by assumption. reflexivity.
Qed.

(** A loop that adds finite terms computes their real sum. *)
Lemma fold_nadd_finite (g : nat -> num) (f : nat -> R) (l : list nat) :
  (forall i, In i l -> g i = Num (f i)) ->
  forall a,
  fold_left (fun sum i => nadd sum (g i)) l (Num a)
  = Num (fold_left (fun sum i => (sum + f i)%R) l a).
Proof.
  induction l as [|i l IH]; intros Hg a; simpl; [reflexivity|].
  rewrite (Hg i) by (left; reflexivity). simpl.
  apply IH. intros j Hj. apply Hg. right. exact Hj.
Qed.

Lemma autocorrelationAt_acf (segment : list num) (lag : nat) :
  List.length segment = bufferSize -> Forall finite segment ->
  autocorrelationAt (applyHannWindow segment) lag = Num (acf segment lag).
Proof.
  intros Hlen Hfin. unfold autocorrelationAt, acf, sumTo.
  apply fold_nadd_finite. intros i Hi. apply in_seq in Hi.
  assert (Hne : List.length segment <> 1) by (sizes; lia).
  rewrite !applyHannWindow_read by (trivial; lia). reflexivity.
Qed.

Lemma autocorrelationOf_read (windowedBuffer : list num) (lag : nat) :
  lag < bufferSize ->
  readNum (autocorrelationOf windowedBuffer) lag
  = autocorrelationAt windowedBuffer lag.
Proof.
  intros Hlag. unfold autocorrelationOf, readNum.
  rewrite (nth_indep _ NaN (autocorrelationAt windowedBuffer 0))
    by (rewrite length_map, length_seq; exact Hlag).
  rewrite (map_nth (autocorrelationAt windowedBuffer) (seq 0 bufferSize) 0 lag).
  rewrite seq_nth by exact Hlag. reflexivity.
Qed.

(** The state of the peak search after the lags [lo, lo + n): nothing
    positive seen yet, or the first maximum so far, which is positive. *)
Lemma peakSearch_invariant (autocorrelation : list num) (r : nat -> R)
      (lo n : nat) :
  (forall j, lo <= j < lo + n -> readNum autocorrelation j = Num (r j)) ->
  let st := fold_left (peakStep autocorrelation) (seq lo n) (0%R, (-1)%Z) in
  (st = (0%R, (-1)%Z) /\ forall j, lo <= j < lo + n -> (r j <= 0)%R)
  \/ (exists l, st = (r l, Z.of_nat l) /\ (0 < r l)%R
                /\ firstArgmax r lo (lo + n) l).
Proof.
  induction n as [|n IH]; intros Hr st.
  - left. split; [reflexivity | intros j Hj; lia].
  - subst st. rewrite seq_S, fold_left_app. cbn [fold_left].
    assert (Hr' : forall j, lo <= j < lo + n -> readNum autocorrelation j = Num (r j))
      by (intros j Hj; apply Hr; lia).
    specialize (IH Hr'). cbv zeta in IH.
    destruct IH as [[-> Hle] | (l & -> & Hpos & Hrange & Hmax & Hfirst)];
      unfold peakStep; rewrite (Hr (lo + n)) by lia; cbn [fst].
    + destruct (Rlt_dec 0 (r (lo + n))) as [Hlt|Hnlt].
      * right. exists (lo + n). split; [reflexivity|]. split; [exact Hlt|].
        unfold firstArgmax. split; [lia|]. split.
        -- intros j Hj. destruct (Nat.eq_dec j (lo + n)) as [->|Hne]; [lra|].
           assert (Hj' : lo <= j < lo + n) by lia. specialize (Hle j Hj'). lra.
        -- intros j Hj. specialize (Hle j Hj). lra.
      * left. split; [reflexivity|]. intros j Hj.
        destruct (Nat.eq_dec j (lo + n)) as [->|Hne]; [lra|].
        apply Hle. lia.
    + destruct (Rlt_dec (r l) (r (lo + n))) as [Hlt|Hnlt].
      * right. exists (lo + n). split; [reflexivity|]. split; [lra|].
        unfold firstArgmax. split; [lia|]. split.
        -- intros j Hj. destruct (Nat.eq_dec j (lo + n)) as [->|Hne]; [lra|].
           assert (Hj' : lo <= j < lo + n) by lia. specialize (Hmax j Hj'). lra.
        -- intros j Hj. specialize (Hmax j Hj). lra.
      * right. exists l. split; [reflexivity|]. split; [exact Hpos|].
        unfold firstArgmax. split; [lia|]. split; [|exact Hfirst].
        intros j Hj. destruct (Nat.eq_dec j (lo + n)) as [->|Hne]; [lra|].
        apply Hmax. lia.
Qed.

(** In exact arithmetic: what the estimator returns on a full segment of
    finite samples, in terms of the autocorrelation [acf]. *)
Lemma detectPitchAutocorrelation_peak (segment : list num) :
  List.length segment = bufferSize -> Forall finite segment ->
  (exists l, firstArgmax (acf segment) minSamples maxSamples l
             /\ (0 < acf segment l)%R
             /\ detectPitchAutocorrelation segment = frequencyOfLag l)
  \/ ((forall j, minSamples <= j < maxSamples -> (acf segment j <= 0)%R)
      /\ detectPitchAutocorrelation segment = 0%Q).
Proof.
  intros Hlen Hfin. unfold detectPitchAutocorrelation, peakSearch.
  assert (Hr : forall j, minSamples <= j < minSamples + (maxSamples - minSamples) ->
                         readNum (autocorrelationOf (applyHannWindow segment)) j
                         = Num (acf segment j)).
  { intros j Hj. rewrite autocorrelationOf_read by (sizes; lia).
    apply autocorrelationAt_acf; assumption. }
  pose proof (peakSearch_invariant _ _ _ _ Hr) as Hinv. cbv zeta in Hinv.
  replace (minSamples + (maxSamples - minSamples)) with maxSamples in Hinv
    by (sizes; lia).
  destruct Hinv as [[-> Hle] | (l & -> & Hpos & Harg)].
  - right. split; [exact Hle | reflexivity].
  - left. exists l. split; [exact Harg|]. split; [exact Hpos|].
    cbn [snd]. destruct Harg as [Hrange _].
    destruct (Z.ltb_spec 0 (Z.of_nat l)) as [_|Hl]; [reflexivity|].
    sizes. lia.
Qed.

Lemma detectPitchAutocorrelation_stages (buffer : list num) :
  detectPitchAutocorrelation buffer
  = pitchOfAutocorrelation (autocorrelationOf (applyHannWindow buffer)).
Proof. unfold detectPitchAutocorrelation, pitchOfAutocorrelation. reflexivity. Qed.

(** The state of the peak search after the lags [lo, lo + n), whatever the
    array holds: nothing positive seen yet, or the first positive peak so
    far. *)
Lemma peakSearch_first_positive (autocorrelation : list num) (lo n : nat) :
  let st := fold_left (peakStep autocorrelation) (seq lo n) (0%R, (-1)%Z) in
  (st = (0%R, (-1)%Z) /\ noPositiveValue autocorrelation lo (lo + n))
  \/ (exists l, snd st = Z.of_nat l
                /\ readNum autocorrelation l = Num (fst st)
                /\ firstPositivePeak autocorrelation lo (lo + n) l).
Proof.
  induction n as [|n IH]; intros st.
  - left. split; [reflexivity | intros j y Hj; lia].
  - subst st. rewrite seq_S, fold_left_app. cbn [fold_left].
    cbv zeta in IH.
    destruct IH as [[-> Hle] | (l & Hsnd & Hread & Hrange & x & Hx & Hpos & Hmax & Hfirst)].
    + unfold peakStep. cbn [fst].
      destruct (readNum autocorrelation (lo + n)) as [y|] eqn:Hy.
      * destruct (Rlt_dec 0 y) as [Hlt|Hnlt].
        -- right. exists (lo + n). cbn [fst snd].
           split; [reflexivity|]. split; [exact Hy|]. split; [lia|].
           exists y. split; [exact Hy|]. split; [exact Hlt|]. split.
           ++ intros j z Hj Hz. destruct (Nat.eq_dec j (lo + n)) as [->|Hne].
              ** rewrite Hy in Hz. injection Hz as <-. lra.
              ** assert (Hj' : lo <= j < lo + n) by lia.
                 specialize (Hle j z Hj' Hz). lra.
           ++ intros j z Hj Hz. specialize (Hle j z Hj Hz). lra.
        -- left. split; [reflexivity|]. intros j z Hj Hz.
           destruct (Nat.eq_dec j (lo + n)) as [->|Hne].
           ++ rewrite Hy in Hz. injection Hz as <-. lra.
           ++ apply (Hle j); [lia | exact Hz].
      * left. split; [reflexivity|]. intros j z Hj Hz.
        destruct (Nat.eq_dec j (lo + n)) as [->|Hne]; [congruence|].
        apply (Hle j); [lia | exact Hz].
    + set (st0 := fold_left (peakStep autocorrelation) (seq lo n) (0%R, (-1)%Z)) in *.
      clearbody st0. rewrite Hx in Hread. injection Hread as Hfst.
      unfold peakStep.
      destruct (readNum autocorrelation (lo + n)) as [y|] eqn:Hy.
      * rewrite <- Hfst. destruct (Rlt_dec x y) as [Hlt|Hnlt].
        -- right. exists (lo + n). cbn [fst snd].
           split; [reflexivity|]. split; [exact Hy|]. split; [lia|].
           exists y. split; [exact Hy|]. split; [lra|]. split.
           ++ intros j z Hj Hz. destruct (Nat.eq_dec j (lo + n)) as [->|Hne].
              ** rewrite Hy in Hz. injection Hz as <-. lra.
              ** assert (Hj' : lo <= j < lo + n) by lia.
                 specialize (Hmax j z Hj' Hz). lra.
           ++ intros j z Hj Hz. specialize (Hmax j z Hj Hz). lra.
        -- right. exists l. split; [exact Hsnd|].
           split; [rewrite Hx, Hfst; reflexivity|]. split; [lia|].
           exists x. split; [exact Hx|]. split; [exact Hpos|].
           split; [|exact Hfirst].
           intros j z Hj Hz. destruct (Nat.eq_dec j (lo + n)) as [->|Hne].
           ++ rewrite Hy in Hz. injection Hz as <-. lra.
           ++ apply (Hmax j); [lia | exact Hz].
      * right. exists l. split; [exact Hsnd|].
        split; [rewrite Hx, Hfst; reflexivity|]. split; [lia|].
        exists x. split; [exact Hx|]. split; [exact Hpos|].
        split; [|exact Hfirst].
        intros j z Hj Hz. destruct (Nat.eq_dec j (lo + n)) as [->|Hne]; [congruence|].
        apply (Hmax j); [lia | exact Hz].
Qed.

Lemma pitchOfAutocorrelation_peak (autocorrelation : list num) :
  (exists l, firstPositivePeak autocorrelation minSamples maxSamples l
             /\ pitchOfAutocorrelation autocorrelation = frequencyOfLag l)
  \/ (noPositiveValue autocorrelation minSamples maxSamples
      /\ pitchOfAutocorrelation autocorrelation = 0%Q).
Proof.
  unfold pitchOfAutocorrelation, peakSearch.
  pose proof (peakSearch_first_positive autocorrelation minSamples
                                        (maxSamples - minSamples)) as Hinv.
  cbv zeta in Hinv.
  replace (minSamples + (maxSamples - minSamples)) with maxSamples in Hinv
    by (sizes; lia).
  destruct Hinv as [[-> Hle] | (l & -> & _ & Hpeak)].
  - right. split; [exact Hle | reflexivity].
  - left. exists l. split; [exact Hpeak|].
    destruct Hpeak as [Hrange _].
    destruct (Z.ltb_spec 0 (Z.of_nat l)) as [_|Hl]; [reflexivity|].
    sizes. lia.
Qed.


Lemma readNum_map_seq (f : nat -> num) (n j : nat) :
  j < n -> readNum (map f (seq 0 n)) j = f j.
Proof.
  intros Hj. unfold readNum.
  rewrite (nth_indep _ NaN (f 0)) by (rewrite length_map, length_seq; exact Hj).
  rewrite map_nth, seq_nth by exact Hj. reflexivity.
Qed.

Lemma twoPeaks_read (j : nat) :
  j < bufferSize ->
  readNum twoPeaks j = Num (if (j =? 100) || (j =? 200) then 1 else 0).
Proof.
  intros Hj. unfold twoPeaks. rewrite readNum_map_seq by exact Hj.
  destruct ((j =? 100) || (j =? 200)); reflexivity.
Qed.

(** A tie is resolved to the lowest lag: with the same largest value at
    the lags 100 and 200 the answer is [sampleRate / 100], 441 Hz. *)
Lemma pitchOfAutocorrelation_tie :
  pitchOfAutocorrelation twoPeaks = frequencyOfLag 100.
Proof.
  destruct (pitchOfAutocorrelation_peak twoPeaks)
    as [(l & (Hrange & x & Hx & Hpos & _ & Hfirst) & ->) | [Hnone _]].
  - sizes. rewrite twoPeaks_read in Hx by lia.
    destruct (Nat.eqb_spec l 100) as [->|Hne]; [reflexivity|].
    destruct (Nat.eqb_spec l 200) as [->|Hne'].
    + cbn [orb] in Hx. injection Hx as <-.
      assert (H100 : readNum twoPeaks 100 = Num 1) by (apply twoPeaks_read; lia).
      specialize (Hfirst 100 1%R ltac:(lia) H100). lra.
    + cbn [orb] in Hx. injection Hx as <-. lra.
  - sizes. assert (H100 : readNum twoPeaks 100 = Num 1) by (apply twoPeaks_read; lia).
    specialize (Hnone 100 1%R ltac:(lia) H100). lra.
Qed.

Lemma sumTo_S (f : nat -> R) (n : nat) : sumTo f (S n) = (sumTo f n + f n)%R.
Proof. unfold sumTo. rewrite seq_S, fold_left_app. reflexivity. Qed.

Lemma sumTo_zero (f : nat -> R) (n : nat) :
  (forall i, i < n -> f i = 0%R) -> sumTo f n = 0%R.
Proof.
  induction n as [|n IH]; intros Hf; [reflexivity|].
  rewrite sumTo_S, IH, Hf by auto. lra.
Qed.

(** A sum with one non-zero term. *)
Lemma sumTo_single (f : nat -> R) (n a : nat) :
  a < n -> (forall i, i < n -> i <> a -> f i = 0%R) -> sumTo f n = f a.
Proof.
  induction n as [|n IH]; intros Ha Hf; [lia|].
  rewrite sumTo_S. destruct (Nat.eq_dec a n) as [->|Hne].
  - rewrite sumTo_zero; [lra|]. intros i Hi. apply Hf; lia.
  - rewrite IH, (Hf n) by (try lia; intros; apply Hf; lia). lra.
Qed.





(* ================================================================== *)
(** ** Grouping into chord windows *)

Lemma lookupWindow_pushWindow (k key : Z) (pitch : Pitch.t) (timeWindows : windows) :
  lookupWindow k (pushWindow key pitch timeWindows)
  = if (k =? key)%Z then lookupWindow key timeWindows ++ [pitch]
    else lookupWindow k timeWindows.
Proof.
  induction timeWindows as [|[k0 ps] rest IH]; cbn [pushWindow lookupWindow].
  - destruct (Z.eqb_spec key k), (Z.eqb_spec k key); subst;
      try reflexivity; contradiction.
  - destruct (Z.eqb_spec k0 key); cbn [lookupWindow]; [|rewrite IH];
      destruct (Z.eqb_spec k0 k), (Z.eqb_spec k key); subst;
      try reflexivity; try contradiction.
Qed.

Lemma lookupWindow_fold (k : Z) (pitchData : list Pitch.t) :
  forall timeWindows,
  lookupWindow k
    (fold_left (fun tw pitch => pushWindow (windowKey pitch) pitch tw)
               pitchData timeWindows)
  = lookupWindow k timeWindows
    ++ filter (fun pitch => (windowKey pitch =? k)%Z) pitchData.
Proof.
  induction pitchData as [|pitch rest IH]; intros timeWindows; cbn [fold_left filter].
  - rewrite app_nil_r. reflexivity.
  - rewrite IH, lookupWindow_pushWindow, (Z.eqb_sym k).
    destruct (windowKey pitch =? k)%Z eqn:Hk.
    + apply Z.eqb_eq in Hk. rewrite Hk, <- app_assoc. reflexivity.
    + reflexivity.
Qed.

(** A window holds exactly the notes whose start falls into it, in their
    order in the input. *)
Lemma lookupWindow_groupByWindow (k : Z) (pitchData : list Pitch.t) :
  lookupWindow k (groupByWindow pitchData)
  = filter (fun pitch => (windowKey pitch =? k)%Z) pitchData.
Proof. unfold groupByWindow. rewrite lookupWindow_fold. reflexivity. Qed.

Lemma pushWindow_keys (key : Z) (pitch : Pitch.t) (timeWindows : windows) :
  map fst (pushWindow key pitch timeWindows)
  = if existsb (Z.eqb key) (map fst timeWindows) then map fst timeWindows
    else map fst timeWindows ++ [key].
Proof.
  induction timeWindows as [|[k0 ps] rest IH]; cbn [pushWindow map fst existsb].
  - reflexivity.
  - rewrite (Z.eqb_sym key k0). destruct (k0 =? key)%Z; cbn [map fst orb].
    + reflexivity.
    + rewrite IH. destruct (existsb (Z.eqb key) (map fst rest)); reflexivity.
Qed.

Lemma chordsOfKeys_fold (timeWindows : windows) (keys : list Z) :
  forall chords,
  fold_left
    (fun chords key =>
       match chordOfWindow (lookupWindow key timeWindows) with
       | Some chord => chords ++ [chord]
       | None => chords
       end)
    keys chords
  = chords ++ chordsOfKeys timeWindows keys.
Proof.
  unfold chordsOfKeys.
  induction keys as [|key rest IH]; intros chords; cbn [fold_left flat_map].
  - rewrite app_nil_r. reflexivity.
  - rewrite IH. destruct (chordOfWindow (lookupWindow key timeWindows)).
    + rewrite <- app_assoc. reflexivity.
    + reflexivity.
Qed.

Lemma detectChords_chordsOfKeys (pitchData : list Pitch.t) :
  detectChords pitchData
  = chordsOfKeys (groupByWindow pitchData) (objectKeys (groupByWindow pitchData)).
Proof. unfold detectChords. rewrite chordsOfKeys_fold. reflexivity. Qed.

Lemma insertZ_In (x y : Z) (l : list Z) : In y (insertZ x l) <-> y = x \/ In y l.
Proof.
  induction l as [|z l IH]; simpl; [intuition|].
  destruct (x <=? z)%Z; simpl; [intuition|]. rewrite IH. intuition.
Qed.

Lemma sortZ_In (y : Z) (l : list Z) : In y (sortZ l) <-> In y l.
Proof.
  induction l as [|x l IH]; simpl; [reflexivity|].
  rewrite insertZ_In, IH. intuition.
Qed.

(** Every key [Object.keys] lists is the key of a window. *)
Lemma objectKeys_In (k : Z) (timeWindows : windows) :
  In k (objectKeys timeWindows) -> In k (map fst timeWindows).
Proof.
  unfold objectKeys. rewrite in_app_iff, sortZ_In, !filter_In. intuition.
Qed.

Lemma uniqueStrings_fold_incl (a : list string) :
  forall seen x,
  In x (fold_left (fun seen x => if existsb (String.eqb x) seen then seen
                                 else seen ++ [x]) a seen) ->
  In x seen \/ In x a.
Proof.
  induction a as [|y a IH]; intros seen x Hx; cbn [fold_left] in Hx.
  - left. exact Hx.
  - apply IH in Hx. destruct Hx as [Hx|Hx]; [|right; right; exact Hx].
    destruct (existsb (String.eqb y) seen); [left; exact Hx|].
    apply in_app_iff in Hx. destruct Hx as [Hx|[<-|[]]].
    + left. exact Hx.
    + right. left. reflexivity.
Qed.

Lemma uniqueStrings_incl (a : list string) (x : string) :
  In x (uniqueStrings a) -> In x a.
Proof.
  intros Hx. apply uniqueStrings_fold_incl in Hx. destruct Hx as [[]|Hx]. exact Hx.
Qed.

Lemma tryRoots_root (noteNames roots : list string) (chord : Chord.id) :
  tryRoots noteNames roots = Some chord -> In (Chord.idRoot chord) roots.
Proof.
  induction roots as [|rootNote rest IH]; cbn [tryRoots]; [discriminate|].
  destruct (firstChordType _ chordDefinitions).
  - intros [= <-]. left. reflexivity.
  - intros H. right. apply IH, H.
Qed.

(** The root of an identified chord is one of the names given. *)
Lemma identifyChord_root (noteNames : list string) (chord : Chord.id) :
  identifyChord noteNames = Some chord -> In (Chord.idRoot chord) noteNames.
Proof.
  unfold identifyChord. destruct (List.length noteNames <? 2); [discriminate|].
  apply tryRoots_root.
Qed.

Lemma Qmin_cases (x y : Q) : Qmin x y = x \/ Qmin x y = y.
Proof.
  unfold Qmin, GenericMinMax.gmin. destruct (x ?= y)%Q; auto.
Qed.

Lemma Qmax_cases (x y : Q) : Qmax x y = x \/ Qmax x y = y.
Proof.
  unfold Qmax, GenericMinMax.gmax. destruct (x ?= y)%Q; auto.
Qed.

Lemma fold_Qmin_In (a : list Q) :
  forall x, fold_left Qmin a x = x \/ In (fold_left Qmin a x) a.
Proof.
  induction a as [|y a IH]; intros x; cbn [fold_left]; [left; reflexivity|].
  destruct (IH (Qmin x y)) as [H|H].
  - rewrite H. destruct (Qmin_cases x y) as [-> | ->]; [left | right; left]; reflexivity.
  - right. right. exact H.
Qed.

Lemma fold_Qmin_le (a : list Q) :
  forall x, (fold_left Qmin a x <= x)%Q.
Proof.
  induction a as [|y a IH]; intros x; cbn [fold_left]; [apply Qle_refl|].
  eapply Qle_trans; [apply IH | apply Q.le_min_l].
Qed.

Lemma fold_Qmax_ge (a : list Q) :
  forall x, (x <= fold_left Qmax a x)%Q.
Proof.
  induction a as [|y a IH]; intros x; cbn [fold_left]; [apply Qle_refl|].
  eapply Qle_trans; [apply Q.le_max_l | apply IH].
Qed.

(** [Math.min] of a non-empty list is one of its elements. *)
Lemma minOf_In (a : list Q) : a <> [] -> In (minOf a) a.
Proof.
  destruct a as [|x a]; [contradiction|]. intros _. cbn [minOf].
  destruct (fold_Qmin_In a x) as [-> | H]; [left; reflexivity | right; exact H].
Qed.

Lemma chordOfWindow_Some (notes : list Pitch.t) (chord : Chord.t) :
  chordOfWindow notes = Some chord ->
  2 <= List.length notes
  /\ Chord.startTime chord = minOf (map Pitch.startTime notes)
  /\ Chord.endTime chord = maxOf (map Pitch.endTime notes)
  /\ Chord.duration chord = (Chord.endTime chord - Chord.startTime chord)%Q
  /\ Chord.notes chord = uniqueStrings (map pitchName notes)
  /\ In (Chord.root chord) (Chord.notes chord).
Proof.
  unfold chordOfWindow. destruct (Nat.leb_spec 2 (List.length notes)) as [Hlen|_];
    [|discriminate].
  fold pitchName.
  change (fun n : Pitch.t => Note.name (Pitch.note n)) with pitchName.
  destruct (identifyChord (uniqueStrings (map pitchName notes))) as [c|] eqn:Hid;
    [|discriminate].
  intros [= <-]. cbn. repeat split; trivial.
  apply identifyChord_root, Hid.
Qed.

(* ================================================================== *)
(** ** Pitch samples and their times *)

Lemma samplesFrom_cons (segment : list num) (rest : list (list num)) (i : nat) :
  samplesFrom i (segment :: rest)
  = (if inRange (detectPitchAutocorrelation segment)
     then [pitchAt i (detectPitchAutocorrelation segment)]
     else [])
    ++ samplesFrom (S i) rest.
Proof. unfold samplesFrom at 1. fold samplesFrom. reflexivity. Qed.

(** The loop of [detectPitches] collects one sample per segment whose
    frequency is in range. *)
Lemma detectLoop_samplesFrom (segments : list (list num)) :
  forall i pitches,
  detectLoop segments i pitches = pitches ++ samplesFrom i segments.
Proof.
  induction segments as [|segment rest IH]; intros i pitches.
  - cbn [detectLoop samplesFrom]. rewrite app_nil_r. reflexivity.
  - rewrite detectLoop_cons, samplesFrom_cons, IH.
    destruct (inRange (detectPitchAutocorrelation segment)).
    + rewrite <- app_assoc. reflexivity.
    + reflexivity.
Qed.

Lemma detectPitches_consolidated (segments : list (list num)) :
  detectPitches segments = consolidateNotes (perSegmentSamples segments).
Proof.
  unfold detectPitches, perSegmentSamples. rewrite detectLoop_samplesFrom.
  reflexivity.
Qed.

Lemma segmentDuration_pos : (0 < segmentDuration)%Q.
Proof. reflexivity. Qed.

Lemma segmentStart_nonneg (i : nat) : (0 <= segmentStart i)%Q.
Proof.
  unfold segmentStart. pose proof segmentDuration_pos as Hd.
  apply Qlt_le_weak in Hd.
  apply Qmult_le_0_compat; [apply Qmult_le_0_compat|]; trivial;
    try discriminate.
  all: change 0%Q with (inject_Z 0); rewrite <- Zle_Qle; lia.
Qed.

Lemma segmentStart_le (i j : nat) :
  i <= j -> (segmentStart i <= segmentStart j)%Q.
Proof.
  intros Hij. unfold segmentStart. pose proof segmentDuration_pos as Hd.
  apply Qmult_le_compat_r; [|discriminate].
  apply Qmult_le_compat_r; [|apply Qlt_le_weak, Hd].
  rewrite <- Zle_Qle. lia.
Qed.

Lemma pitchAt_wellFormed (i : nat) (frequency : Q) :
  inRange frequency = true -> wellFormed (pitchAt i frequency).
Proof.
  intros Hf. unfold wellFormed, pitchName. cbn [pitchAt Pitch.startTime Pitch.endTime
    Pitch.frequency Pitch.note].
  split; [apply segmentStart_nonneg|]. split; [|split; [exact Hf|]].
  - rewrite <- (Qplus_0_r (segmentStart i)) at 1.
    apply Qplus_le_r, Qlt_le_weak, segmentDuration_pos.
  - apply frequencyToNote_name_in.
Qed.

Lemma samplesFrom_props (segments : list (list num)) :
  forall i,
  Forall (fun p => wellFormed p /\ (segmentStart i <= Pitch.startTime p)%Q)
         (samplesFrom i segments)
  /\ StronglySorted startsBefore (samplesFrom i segments).
Proof.
  induction segments as [|segment rest IH]; intros i.
  - cbn [samplesFrom]. split; constructor.
  - rewrite samplesFrom_cons. destruct (IH (S i)) as [Hall Hsorted].
    assert (Hall' : Forall (fun p => wellFormed p
                                     /\ (segmentStart i <= Pitch.startTime p)%Q)
                           (samplesFrom (S i) rest)).
    { eapply Forall_impl; [|exact Hall]. intros p [Hw Hs]. split; [exact Hw|].
      eapply Qle_trans; [apply (segmentStart_le i (S i)); lia | exact Hs]. }
    destruct (inRange (detectPitchAutocorrelation segment)) eqn:Hr;
      cbn [app]; [|split; assumption].
    split.
    + constructor; [|exact Hall']. split; [apply pitchAt_wellFormed, Hr|].
      apply Qle_refl.
    + constructor; [exact Hsorted|].
      eapply Forall_impl; [|exact Hall']. intros p [_ Hs]. exact Hs.
Qed.

(* ================================================================== *)
(** ** What consolidation keeps *)

Lemma withEndTime_wellFormed (p : Pitch.t) (e : Q) :
  wellFormed p -> (Pitch.startTime p <= e)%Q ->
  wellFormed (Pitch.withEndTime p e).
Proof.
  unfold wellFormed, pitchName. cbn. intros (H0 & _ & Hf & Hn) He. auto.
Qed.

Lemma consolidateFrom_props (notes : list Pitch.t) :
  forall currentNote,
  Forall wellFormed (currentNote :: notes) ->
  StronglySorted startsBefore (currentNote :: notes) ->
  Forall wellFormed (consolidateFrom currentNote notes)
  /\ StronglySorted startsBefore (consolidateFrom currentNote notes)
  /\ Forall (fun p => (Pitch.startTime currentNote <= Pitch.startTime p)%Q)
            (consolidateFrom currentNote notes).
Proof.
  induction notes as [|note rest IH]; intros currentNote Hall Hsorted;
    cbn [consolidateFrom].
  - split; [exact Hall|]. split; [exact Hsorted|].
    constructor; [apply Qle_refl | constructor].
  - inversion Hall as [|? ? Hcur Hrest]; subst.
    inversion Hrest as [|? ? Hnote Hrest']; subst.
    inversion Hsorted as [|? ? Hsorted' Hle]; subst.
    inversion Hle as [|? ? Hcn Hle']; subst.
    inversion Hsorted' as [|? ? Hsorted'' Hle'']; subst.
    destruct (sameNote note currentNote).
    + assert (Hend : (Pitch.startTime currentNote <= Pitch.endTime note)%Q).
      { eapply Qle_trans; [exact Hcn | apply Hnote]. }
      apply (IH (Pitch.withEndTime currentNote (Pitch.endTime note))).
      * constructor; [apply withEndTime_wellFormed; assumption | exact Hrest'].
      * constructor; [exact Hsorted'' | exact Hle'].
    + destruct (IH note Hrest Hsorted') as (Hw & Hs & Hge).
      assert (Hge' : Forall (fun p => (Pitch.startTime currentNote
                                       <= Pitch.startTime p)%Q)
                            (consolidateFrom note rest)).
      { eapply Forall_impl; [|exact Hge]. intros p Hp.
        eapply Qle_trans; [exact Hcn | exact Hp]. }
      split; [constructor; assumption|]. split.
      * constructor; assumption.
      * constructor; [apply Qle_refl | exact Hge'].
Qed.

Lemma consolidateNotes_props (notes : list Pitch.t) :
  Forall wellFormed notes -> StronglySorted startsBefore notes ->
  Forall wellFormed (consolidateNotes notes)
  /\ StronglySorted startsBefore (consolidateNotes notes).
Proof.
  destruct notes as [|first rest]; intros Hall Hsorted.
  - split; constructor.
  - rewrite consolidateNotes_from.
    destruct (consolidateFrom_props rest first Hall Hsorted) as (Hw & Hs & _).
    split; assumption.
Qed.

Lemma consolidateFrom_length (notes : list Pitch.t) :
  forall currentNote,
  List.length (consolidateFrom currentNote notes) <= S (List.length notes).
Proof.
  induction notes as [|note rest IH]; intros currentNote; cbn [consolidateFrom].
  - simpl. lia.
  - destruct (sameNote note currentNote); cbn [List.length].
    + specialize (IH (Pitch.withEndTime currentNote (Pitch.endTime note))). lia.
    + specialize (IH note). lia.
Qed.

Lemma consolidateNotes_length (notes : list Pitch.t) :
  List.length (consolidateNotes notes) <= List.length notes.
Proof.
  destruct notes as [|first rest]; [simpl; lia|].
  rewrite consolidateNotes_from. apply consolidateFrom_length.
Qed.

(** The raw pitch data of every analysis. *)
Lemma detectPitches_props (segments : list (list num)) :
  Forall wellFormed (detectPitches segments)
  /\ StronglySorted startsBefore (detectPitches segments).
Proof.
  rewrite detectPitches_consolidated.
  destruct (samplesFrom_props segments 0) as [Hall Hsorted].
  apply consolidateNotes_props; [|exact Hsorted].
  eapply Forall_impl; [|exact Hall]. intros p [Hw _]. exact Hw.
Qed.

(* ================================================================== *)
(** ** The order of the chord windows *)

Lemma windowKey_mono (p q : Pitch.t) :
  startsBefore p q -> (windowKey p <= windowKey q)%Z.
Proof.
  unfold startsBefore, windowKey. intros Hpq. apply Qfloor_resp_le.
  unfold Qdiv. apply Qmult_le_compat_r; [exact Hpq | discriminate].
Qed.

Lemma windowKey_nonneg (p : Pitch.t) :
  (0 <= Pitch.startTime p)%Q -> (0 <= windowKey p)%Z.
Proof.
  intros Hp. unfold windowKey. change 0%Z with (Qfloor 0).
  apply Qfloor_resp_le. unfold Qdiv.
  apply Qmult_le_0_compat; [exact Hp | discriminate].
Qed.

Lemma StronglySorted_snoc_lt (keys : list Z) (k : Z) :
  StronglySorted Z.lt keys -> Forall (fun k' => (k' < k)%Z) keys ->
  StronglySorted Z.lt (keys ++ [k]).
Proof.
  induction 1 as [|k0 keys Hs IH Hk0]; intros Hall; cbn [app].
  - constructor; constructor.
  - inversion Hall as [|? ? Hlt Hall']; subst.
    constructor; [apply IH, Hall'|].
    apply Forall_app. split; [exact Hk0 | constructor; [exact Hlt | constructor]].
Qed.

Lemma existsb_eqb_In (k : Z) (keys : list Z) :
  existsb (Z.eqb k) keys = true <-> In k keys.
Proof.
  rewrite existsb_exists. split.
  - intros (x & Hx & Heq). apply Z.eqb_eq in Heq. subst. exact Hx.
  - intros Hk. exists k. split; [exact Hk | apply Z.eqb_refl].
Qed.

(** Reading notes in the order of their starts creates the windows in
    ascending order of their keys. *)
Lemma groupByWindow_fold_keys (pitchData : list Pitch.t) :
  forall timeWindows,
  StronglySorted startsBefore pitchData ->
  StronglySorted Z.lt (map fst timeWindows) ->
  (forall k p, In k (map fst timeWindows) -> In p pitchData ->
               (k <= windowKey p)%Z) ->
  Forall (fun k => (0 <= k)%Z) (map fst timeWindows) ->
  Forall (fun p => (0 <= Pitch.startTime p)%Q) pitchData ->
  let result := fold_left (fun tw pitch => pushWindow (windowKey pitch) pitch tw)
                          pitchData timeWindows in
  StronglySorted Z.lt (map fst result)
  /\ Forall (fun k => (0 <= k)%Z) (map fst result).
Proof.
  induction pitchData as [|pitch rest IH];
    intros timeWindows Hsorted Hkeys Hbound Hnonneg Hstart; cbn [fold_left].
  - split; assumption.
  - inversion Hsorted as [|? ? Hsorted' Hle]; subst.
    inversion Hstart as [|? ? Hp Hstart']; subst.
    assert (Hcases : map fst (pushWindow (windowKey pitch) pitch timeWindows)
                     = map fst timeWindows
                     \/ (map fst (pushWindow (windowKey pitch) pitch timeWindows)
                         = map fst timeWindows ++ [windowKey pitch]
                         /\ ~ In (windowKey pitch) (map fst timeWindows))).
    { rewrite pushWindow_keys.
      destruct (existsb (Z.eqb (windowKey pitch)) (map fst timeWindows)) eqn:He.
      - left. reflexivity.
      - right. split; [reflexivity|]. intros Hin.
        apply existsb_eqb_In in Hin. congruence. }
    assert (Hlater : forall q, In q rest -> (windowKey pitch <= windowKey q)%Z).
    { intros q Hq. apply windowKey_mono. rewrite Forall_forall in Hle.
      apply Hle, Hq. }
    apply IH; trivial.
    + destruct Hcases as [-> | [-> Hnew]]; [exact Hkeys|].
      apply StronglySorted_snoc_lt; [exact Hkeys|].
      apply Forall_forall. intros k Hk.
      assert (k <= windowKey pitch)%Z by (apply Hbound; [exact Hk | left; reflexivity]).
      assert (k <> windowKey pitch) by (intros ->; contradiction).
      lia.
    + intros k q Hk Hq.
      destruct Hcases as [Heq | [Heq _]]; rewrite Heq in Hk.
      * apply Hbound; [exact Hk | right; exact Hq].
      * apply in_app_iff in Hk. destruct Hk as [Hk | [<- | []]].
        -- apply Hbound; [exact Hk | right; exact Hq].
        -- apply Hlater, Hq.
    + destruct Hcases as [-> | [-> _]]; [exact Hnonneg|].
      apply Forall_app. split; [exact Hnonneg|].
      constructor; [apply windowKey_nonneg, Hp | constructor].
Qed.

Lemma groupByWindow_keys (pitchData : list Pitch.t) :
  StronglySorted startsBefore pitchData ->
  Forall (fun p => (0 <= Pitch.startTime p)%Q) pitchData ->
  StronglySorted Z.lt (map fst (groupByWindow pitchData))
  /\ Forall (fun k => (0 <= k)%Z) (map fst (groupByWindow pitchData)).
Proof.
  intros Hsorted Hstart. unfold groupByWindow.
  apply (groupByWindow_fold_keys pitchData []); trivial;
    try constructor.
  intros k p [].
Qed.

Lemma insertZ_head (x : Z) (l : list Z) :
  Forall (fun y => (x <= y)%Z) l -> insertZ x l = x :: l.
Proof.
  destruct l as [|y l]; [reflexivity|]. intros Hall.
  inversion Hall as [|? ? Hxy _]; subst. cbn [insertZ].
  destruct (Z.leb_spec x y); [reflexivity | lia].
Qed.

(** Sorting a sorted array changes nothing. *)
Lemma sortZ_sorted (l : list Z) : StronglySorted Z.lt l -> sortZ l = l.
Proof.
  induction 1 as [|x l Hs IH Hx]; cbn [sortZ]; [reflexivity|].
  rewrite IH. apply insertZ_head.
  eapply Forall_impl; [|exact Hx]. intros y Hy. lia.
Qed.

Lemma filter_StronglySorted {A : Type} (R : A -> A -> Prop) (f : A -> bool)
      (l : list A) :
  StronglySorted R l -> StronglySorted R (filter f l).
Proof.
  induction 1 as [|x l Hs IH Hx]; cbn [filter]; [constructor|].
  destruct (f x); [|exact IH]. constructor; [exact IH|].
  apply Forall_forall. intros y Hy. apply filter_In in Hy.
  rewrite Forall_forall in Hx. apply Hx, Hy.
Qed.

Lemma filter_none {A : Type} (f : A -> bool) (l : list A) :
  Forall (fun x => f x = false) l -> filter f l = [].
Proof.
  induction 1 as [|x l Hx _ IH]; cbn [filter]; [reflexivity|].
  rewrite Hx. exact IH.
Qed.

Lemma filter_all {A : Type} (f : A -> bool) (l : list A) :
  Forall (fun x => f x = true) l -> filter f l = l.
Proof.
  induction 1 as [|x l Hx _ IH]; cbn [filter]; [reflexivity|].
  rewrite Hx, IH. reflexivity.
Qed.

(** When the windows were created in ascending order of non-negative
    keys, [Object.keys] lists them in that same order. *)
Lemma objectKeys_ascending (timeWindows : windows) :
  StronglySorted Z.lt (map fst timeWindows) ->
  Forall (fun k => (0 <= k)%Z) (map fst timeWindows) ->
  objectKeys timeWindows = map fst timeWindows.
Proof.
  unfold objectKeys. generalize (map fst timeWindows) as keys.
  intros keys Hsorted Hnonneg.
  rewrite sortZ_sorted by (apply filter_StronglySorted, Hsorted).
  induction Hsorted as [|k keys Hs IH Hk]; [reflexivity|].
  inversion Hnonneg as [|? ? Hk0 Hnonneg']; subst.
  cbn [filter]. destruct (isArrayIndex k) eqn:Hidx; cbn [negb app].
  - f_equal. apply IH, Hnonneg'.
  - rewrite filter_none, filter_all; [reflexivity| |].
    + apply Forall_forall. intros k' Hk'. rewrite Forall_forall in Hk.
      specialize (Hk k' Hk'). unfold isArrayIndex in *.
      apply andb_false_iff in Hidx. destruct Hidx as [Hidx|Hidx].
      * apply Z.leb_gt in Hidx. lia.
      * apply Z.ltb_ge in Hidx. apply negb_true_iff, andb_false_iff. right.
        apply Z.ltb_ge. lia.
    + apply Forall_forall. intros k' Hk'. rewrite Forall_forall in Hk.
      specialize (Hk k' Hk'). unfold isArrayIndex in *.
      apply andb_false_iff in Hidx. destruct Hidx as [Hidx|Hidx].
      * apply Z.leb_gt in Hidx. lia.
      * apply Z.ltb_ge in Hidx. apply andb_false_iff. right.
        apply Z.ltb_ge. lia.
Qed.

Lemma maxOf_ge_head (x : Q) (a : list Q) : (x <= maxOf (x :: a))%Q.
Proof. cbn [maxOf]. apply fold_Qmax_ge. Qed.

Lemma minOf_le_head (x : Q) (a : list Q) : (minOf (x :: a) <= x)%Q.
Proof. cbn [minOf]. apply fold_Qmin_le. Qed.

(** The chord of a window starts with one of the window's notes and
    ends no earlier than it starts. *)
Lemma chordOfWindow_times (notes : list Pitch.t) (chord : Chord.t) :
  Forall (fun p => (Pitch.startTime p <= Pitch.endTime p)%Q) notes ->
  chordOfWindow notes = Some chord ->
  (exists p, In p notes /\ Chord.startTime chord = Pitch.startTime p)
  /\ (Chord.startTime chord <= Chord.endTime chord)%Q.
Proof.
  intros Hall Hc. apply chordOfWindow_Some in Hc.
  destruct Hc as (Hlen & Hs & He & _). split.
  - assert (Hin : In (minOf (map Pitch.startTime notes)) (map Pitch.startTime notes)).
    { apply minOf_In. destruct notes; [simpl in Hlen; lia | discriminate]. }
    apply in_map_iff in Hin. destruct Hin as (p & Hp & Hin).
    exists p. split; [exact Hin | congruence].
  - rewrite Hs, He. destruct notes as [|p rest]; [simpl in Hlen; lia|].
    inversion Hall as [|? ? Hp _]; subst. cbn [map].
    eapply Qle_trans; [apply minOf_le_head|].
    eapply Qle_trans; [exact Hp | apply maxOf_ge_head].
Qed.

(* ================================================================== *)
(** ** Times and order in the three views *)

Lemma chordsOfKeys_In (timeWindows : windows) (keys : list Z) (chord : Chord.t) :
  In chord (chordsOfKeys timeWindows keys) ->
  exists key, In key keys
              /\ chordOfWindow (lookupWindow key timeWindows) = Some chord.
Proof.
  unfold chordsOfKeys. rewrite in_flat_map. intros (key & Hkey & Hin).
  exists key. split; [exact Hkey|].
  destruct (chordOfWindow (lookupWindow key timeWindows)) as [c|];
    [|destruct Hin].
  destruct Hin as [-> | []]. reflexivity.
Qed.

Lemma window_notes (pitchData : list Pitch.t) (key : Z) (p : Pitch.t) :
  In p (lookupWindow key (groupByWindow pitchData)) ->
  In p pitchData /\ windowKey p = key.
Proof.
  rewrite lookupWindow_groupByWindow, filter_In. intros [Hin Hk].
  split; [exact Hin | apply Z.eqb_eq, Hk].
Qed.

Lemma chordsOfKeys_ordered (pitchData : list Pitch.t) (keys : list Z) :
  Forall wellFormed pitchData ->
  StronglySorted Z.lt keys ->
  StronglySorted chordStartsBefore (chordsOfKeys (groupByWindow pitchData) keys).
Proof.
  intros Hall. induction 1 as [|key rest Hs IH Hkey]; [constructor|].
  unfold chordsOfKeys. cbn [flat_map]. fold (chordsOfKeys (groupByWindow pitchData) rest).
  destruct (chordOfWindow (lookupWindow key (groupByWindow pitchData)))
    as [chord|] eqn:Hchord; cbn [app]; [|exact IH].
  constructor; [exact IH|]. apply Forall_forall. intros chord' Hin.
  apply chordsOfKeys_In in Hin. destruct Hin as (key' & Hkey' & Hchord').
  rewrite Forall_forall in Hkey. specialize (Hkey key' Hkey').
  assert (Hle : forall k, Forall (fun p => (Pitch.startTime p <= Pitch.endTime p)%Q)
                                 (lookupWindow k (groupByWindow pitchData))).
  { intros k. apply Forall_forall. intros p Hp. apply window_notes in Hp.
    rewrite Forall_forall in Hall. apply (Hall p), Hp. }
  destruct (chordOfWindow_times _ _ (Hle key) Hchord) as [(p & Hp & Hsp) _].
  destruct (chordOfWindow_times _ _ (Hle key') Hchord') as [(p' & Hp' & Hsp') _].
  apply window_notes in Hp, Hp'. destruct Hp as [_ Hk], Hp' as [_ Hk'].
  unfold chordStartsBefore. rewrite Hsp, Hsp'.
  destruct (Qlt_le_dec (Pitch.startTime p') (Pitch.startTime p)) as [Hlt|Hge];
    [|exact Hge].
  pose proof (windowKey_mono p' p (Qlt_le_weak _ _ Hlt)). lia.
Qed.

Lemma StronglySorted_map {A B : Type} (R : B -> B -> Prop) (f : A -> B)
      (l : list A) :
  StronglySorted (fun x y => R (f x) (f y)) l -> StronglySorted R (map f l).
Proof.
  induction 1 as [|x l Hs IH Hx]; cbn [map]; constructor; [exact IH|].
  apply Forall_forall. intros y Hy. apply in_map_iff in Hy.
  destruct Hy as (z & <- & Hz). rewrite Forall_forall in Hx. apply Hx, Hz.
Qed.

(** The chords of a note sequence that is ordered by start. *)
Lemma detectChords_props (pitchData : list Pitch.t) :
  Forall wellFormed pitchData -> StronglySorted startsBefore pitchData ->
  Forall (fun c => (Chord.startTime c <= Chord.endTime c)%Q)
         (detectChords pitchData)
  /\ nondecreasing (map Chord.startTime (detectChords pitchData))
  /\ Forall (fun c => In (Chord.root c) (map pitchName pitchData)
                      /\ incl (Chord.notes c) (map pitchName pitchData))
            (detectChords pitchData).
Proof.
  intros Hall Hsorted.
  assert (Hstart : Forall (fun p => (0 <= Pitch.startTime p)%Q) pitchData).
  { eapply Forall_impl; [|exact Hall]. intros p Hp. apply Hp. }
  destruct (groupByWindow_keys pitchData Hsorted Hstart) as [Hkeys Hnonneg].
  rewrite detectChords_chordsOfKeys, objectKeys_ascending by assumption.
  assert (Hle : forall k, Forall (fun p => (Pitch.startTime p <= Pitch.endTime p)%Q)
                                 (lookupWindow k (groupByWindow pitchData))).
  { intros k. apply Forall_forall. intros p Hp. apply window_notes in Hp.
    rewrite Forall_forall in Hall. apply (Hall p), Hp. }
  split; [|split].
  - apply Forall_forall. intros chord Hin. apply chordsOfKeys_In in Hin.
    destruct Hin as (key & _ & Hchord).
    apply (chordOfWindow_times _ _ (Hle key) Hchord).
  - apply StronglySorted_map. apply chordsOfKeys_ordered; assumption.
  - apply Forall_forall. intros chord Hin. apply chordsOfKeys_In in Hin.
    destruct Hin as (key & _ & Hchord). apply chordOfWindow_Some in Hchord.
    destruct Hchord as (_ & _ & _ & _ & Hnotes & Hroot).
    assert (Hincl : incl (Chord.notes chord) (map pitchName pitchData)).
    { rewrite Hnotes. intros name Hname. apply uniqueStrings_incl in Hname.
      apply in_map_iff in Hname. destruct Hname as (p & <- & Hp).
      apply window_notes in Hp. apply in_map, Hp. }
    split; [apply Hincl, Hroot | exact Hincl].
Qed.

Lemma generateSimpleNotes_startTimes (pitchData : list Pitch.t) :
  map SimpleNote.startTime (generateSimpleNotes pitchData)
  = map Pitch.startTime pitchData.
Proof.
  unfold generateSimpleNotes. rewrite map_map. reflexivity.
Qed.

Lemma generateSimpleNotes_names (pitchData : list Pitch.t) :
  map SimpleNote.note (generateSimpleNotes pitchData)
  = map (fun p => sharpen (pitchName p)) pitchData.
Proof.
  unfold generateSimpleNotes. rewrite map_map. reflexivity.
Qed.

Lemma generateSimpleNotes_durations (pitchData : list Pitch.t) :
  Forall (fun p => (Pitch.startTime p <= Pitch.endTime p)%Q) pitchData ->
  Forall (fun s => (0 <= SimpleNote.duration s)%Q) (generateSimpleNotes pitchData).
Proof.
  intros Hall. unfold generateSimpleNotes. apply Forall_forall.
  intros s Hs. apply in_map_iff in Hs. destruct Hs as (p & <- & Hp).
  rewrite Forall_forall in Hall. specialize (Hall p Hp).
  cbn [SimpleNote.duration]. unfold Qminus. rewrite <- Qle_minus_iff. exact Hall.
Qed.

Lemma generateSheetMusic_startTimes (pitchData : list Pitch.t) :
  map Sheet.startTime (Sheet.notes (generateSheetMusic pitchData))
  = map Pitch.startTime pitchData.
Proof.
  unfold generateSheetMusic. cbn [Sheet.notes]. rewrite map_map. reflexivity.
Qed.

Lemma generateSheetMusic_pitches (pitchData : list Pitch.t) :
  map Sheet.pitch (Sheet.notes (generateSheetMusic pitchData))
  = map pitchName pitchData.
Proof.
  unfold generateSheetMusic. cbn [Sheet.notes]. rewrite map_map. reflexivity.
Qed.

(** Every result of [analyzeAudio] is the notation of the consolidated
    per-segment samples. *)
Lemma analyzeAudio_Resolved (b : AudioBuffer.t) (result : TranscriptionResult) :
  analyzeAudio b = Resolved result ->
  result = convertToMusicalNotation
             (consolidateNotes
                (perSegmentSamples (segmentAudio (convertToMono b)))).
Proof.
  unfold analyzeAudio, rethrow. rewrite detectPitches_consolidated.
  intros [= <-]. reflexivity.
Qed.

Lemma pipeline_props (b : AudioBuffer.t) :
  Forall wellFormed
         (consolidateNotes (perSegmentSamples (segmentAudio (convertToMono b))))
  /\ StronglySorted startsBefore
       (consolidateNotes (perSegmentSamples (segmentAudio (convertToMono b)))).
Proof.
  rewrite <- detectPitches_consolidated. apply detectPitches_props.
Qed.

(** C3, as the code has it: in every result of [analyzeAudio] each raw
    pitch sample and each chord ends no earlier than it starts, each
    simple note has a non-negative duration, and each of the four
    sequences is ordered by non-decreasing start time.  Nothing is said
    about overlap: the ranges of consecutive notes can overlap. *)
Theorem analyzeAudio_times_ordered (b : AudioBuffer.t) (result : TranscriptionResult) :
  analyzeAudio b = Resolved result ->
  Forall (fun p => (Pitch.startTime p <= Pitch.endTime p)%Q) (rawPitchData result)
  /\ Forall (fun s => (0 <= SimpleNote.duration s)%Q) (simpleNotes result)
  /\ Forall (fun c => (Chord.startTime c <= Chord.endTime c)%Q)
            (complexChords result)
  /\ nondecreasing (map Pitch.startTime (rawPitchData result))
  /\ nondecreasing (map SimpleNote.startTime (simpleNotes result))
  /\ nondecreasing (map Sheet.startTime (Sheet.notes (sheetMusic result)))
  /\ nondecreasing (map Chord.startTime (complexChords result)).
Proof.
  intros Hr. apply analyzeAudio_Resolved in Hr. subst result.
  destruct (pipeline_props b) as [Hall Hsorted].
  set (pitchData := consolidateNotes _) in *.
  cbn [convertToMusicalNotation rawPitchData simpleNotes complexChords sheetMusic].
  assert (Hle : Forall (fun p => (Pitch.startTime p <= Pitch.endTime p)%Q) pitchData).
  { eapply Forall_impl; [|exact Hall]. intros p Hp. apply Hp. }
  assert (Hnd : nondecreasing (map Pitch.startTime pitchData)).
  { apply StronglySorted_map, Hsorted. }
  destruct (detectChords_props pitchData Hall Hsorted) as (Hc1 & Hc2 & _).
  rewrite generateSimpleNotes_startTimes, generateSheetMusic_startTimes.
  repeat split; trivial. apply generateSimpleNotes_durations, Hle.
Qed.

(** C4, as the code has it: [rawPitchData] is what [detectPitches]
    returns, the consolidation of the per-segment samples.  Each entry has
    a frequency inside the detection range (there is no placeholder for a
    segment out of range), and there are at most as many entries as
    segments in range. *)
Theorem analyzeAudio_rawPitchData (b : AudioBuffer.t) (result : TranscriptionResult) :
  analyzeAudio b = Resolved result ->
  rawPitchData result
  = consolidateNotes (perSegmentSamples (segmentAudio (convertToMono b)))
  /\ Forall (fun p => inRange (Pitch.frequency p) = true) (rawPitchData result)
  /\ List.length (rawPitchData result)
     <= List.length (perSegmentSamples (segmentAudio (convertToMono b))).
Proof.
  intros Hr. apply analyzeAudio_Resolved in Hr. subst result.
  destruct (pipeline_props b) as [Hall _].
  cbn [convertToMusicalNotation rawPitchData].
  split; [reflexivity|]. split.
  - eapply Forall_impl; [|exact Hall]. intros p Hp. apply Hp.
  - apply consolidateNotes_length.
Qed.

Lemma sharpSpelling_noteNames (name : string) :
  In name noteNames ->
  In (name, sharpen name) sharpSpelling
  /\ (sharpen name = name <-> hasHash name = false).
Proof.
  unfold noteNames. cbn [In]. intros H.
  repeat (destruct H as [<- | H];
          [split; [vm_compute; tauto
                  | vm_compute; split; intros E; first [reflexivity | discriminate E]]|]).
  destruct H.
Qed.

(** C10: in every result of [analyzeAudio] each simple note carries the
    name of its pitch in the spelling of the table [sharpSpelling]: A♯, C♯,
    D♯, F♯ and G♯ with the sharp sign U+266F for A#, C#, D#, F# and G#, and
    the seven other names as they are.  Each sheet-music pitch is the name
    of its pitch as it is, with the ASCII ['#'], and so are the root and
    the notes of every chord.  So a simple note and the sheet-music note
    of the same pitch are spelled alike exactly when the name has no
    ['#']. *)
Theorem analyzeAudio_sharp_spelling (b : AudioBuffer.t) (result : TranscriptionResult) :
  analyzeAudio b = Resolved result ->
  Forall2 (fun s p => In (pitchName p, SimpleNote.note s) sharpSpelling)
          (simpleNotes result) (rawPitchData result)
  /\ Forall2 (fun n p => Sheet.pitch n = pitchName p)
             (Sheet.notes (sheetMusic result)) (rawPitchData result)
  /\ Forall (fun c =>
               Forall (fun name => In name (map fst sharpSpelling)
                                   /\ In name (map pitchName (rawPitchData result)))
                      (Chord.root c :: Chord.notes c))
            (complexChords result)
  /\ Forall2 (fun s n => SimpleNote.note s = Sheet.pitch n
                         <-> hasHash (Sheet.pitch n) = false)
             (simpleNotes result) (Sheet.notes (sheetMusic result)).
Proof.
  intros Hr. apply analyzeAudio_Resolved in Hr. subst result.
  destruct (pipeline_props b) as [Hall Hsorted].
  set (pitchData := consolidateNotes _) in *.
  cbn [convertToMusicalNotation rawPitchData simpleNotes complexChords sheetMusic].
  assert (Hnames : Forall (fun p => In (pitchName p) noteNames) pitchData).
  { eapply Forall_impl; [|exact Hall]. intros p Hp. apply Hp. }
  split; [|split; [|split]].
  - unfold generateSimpleNotes. clear Hall Hsorted.
    induction Hnames as [|p rest Hp _ IH]; cbn [map]; constructor; [|exact IH].
    cbn [SimpleNote.note]. apply (sharpSpelling_noteNames _ Hp).
  - unfold generateSheetMusic. cbn [Sheet.notes]. clear.
    induction pitchData as [|p rest IH]; cbn [map]; constructor; [reflexivity | exact IH].
  - destruct (detectChords_props pitchData Hall Hsorted) as (_ & _ & Hc).
    eapply Forall_impl; [|exact Hc]. intros c [Hroot Hnotes].
    assert (Hin : forall name, In name (map pitchName pitchData) ->
                               In name (map fst sharpSpelling)).
    { intros name Hname. apply in_map_iff in Hname.
      destruct Hname as (p & <- & Hp). rewrite Forall_forall in Hnames.
      exact (Hnames p Hp). }
    constructor; [split; [apply Hin|]; exact Hroot|].
    apply Forall_forall. intros name Hname. specialize (Hnotes name Hname).
    split; [apply Hin|]; exact Hnotes.
  - unfold generateSimpleNotes, generateSheetMusic. cbn [Sheet.notes].
    clear Hall Hsorted.
    induction Hnames as [|p rest Hp _ IH]; cbn [map]; constructor; [|exact IH].
    cbn [SimpleNote.note Sheet.pitch]. apply (sharpSpelling_noteNames _ Hp).
Qed.

(* ================================================================== *)
(** ** Segments holding two impulses *)

(** Inside the window the Hann weight is positive; it vanishes at both
    ends only. *)
Lemma hann_pos (len i : nat) :
  0 < i -> i < len - 1 -> (0 < hann len i)%R.
Proof.
  intros Hi Hlen. unfold hann.
  assert (Hi' : (0 < INR i)%R) by (apply lt_0_INR; exact Hi).
  assert (Hl' : (INR i < INR len - 1)%R).
  { replace (INR len - 1)%R with (INR (len - 1)).
    - apply lt_INR. exact Hlen.
    - rewrite minus_INR by lia. rewrite INR_1. reflexivity. }
  set (x := (PI * INR i / (INR len - 1))%R).
  assert (Hx0 : (0 < x)%R).
  { unfold x, Rdiv. apply Rmult_lt_0_compat; [|apply Rinv_0_lt_compat; lra].
    apply Rmult_lt_0_compat; [apply PI_RGT_0 | exact Hi']. }
  assert (Hx1 : (x < PI)%R).
  { unfold x. apply Rmult_lt_reg_r with (INR len - 1)%R; [lra|].
    unfold Rdiv. rewrite Rmult_assoc, Rinv_l by lra.
    pose proof PI_RGT_0. nra. }
  replace (2 * PI * INR i / (INR len - 1))%R with (2 * x)%R
    by (unfold x; field; lra).
  rewrite cos_2a_sin. pose proof (sin_gt_0 x Hx0 Hx1) as Hs. nra.
Qed.

Lemma slice_read (a : list num) (start stop i : nat) :
  i < stop - start -> readNum (slice a start stop) i = readNum a (start + i).
Proof.
  intros Hi. unfold readNum, slice. rewrite nth_firstn.
  destruct (Nat.ltb_spec i (stop - start)) as [_|Hge]; [|lia].
  apply nth_skipn.
Qed.

Lemma segmentAt_read (audioData : list num) (k i : nat) :
  i < bufferSize ->
  readNum (segmentAt audioData k) i = readNum audioData (k * overlap + i).
Proof. intros Hi. unfold segmentAt. apply slice_read. lia. Qed.

Lemma impulseSignal_length (n : nat) (positions : list nat) :
  List.length (impulseSignal n positions) = n.
Proof. unfold impulseSignal. rewrite length_map, length_seq. reflexivity. Qed.

Lemma impulseSignal_read (n : nat) (positions : list nat) (j : nat) :
  j < n ->
  readNum (impulseSignal n positions) j
  = if existsb (Nat.eqb j) positions then Num 1 else Num 0.
Proof.
  intros Hj. unfold impulseSignal, readNum.
  rewrite (nth_indep _ NaN (if existsb (Nat.eqb 0) positions then Num 1 else Num 0))
    by (rewrite length_map, length_seq; exact Hj).
  rewrite (map_nth (fun i => if existsb (Nat.eqb i) positions then Num 1 else Num 0)
                   (seq 0 n) 0 j).
  rewrite seq_nth by exact Hj. reflexivity.
Qed.

Lemma impulseSignal_finite (n : nat) (positions : list nat) :
  Forall finite (impulseSignal n positions).
Proof.
  unfold impulseSignal. apply Forall_forall. intros x Hx.
  apply in_map_iff in Hx. destruct Hx as (i & <- & _).
  destruct (existsb (Nat.eqb i) positions); eexists; reflexivity.
Qed.

(** A segment that is 1 at [a] and at [a + lag], and 0 elsewhere, has
    its only positive autocorrelation at [lag]: the estimator answers
    [sampleRate / lag]. *)
Lemma detectPitchAutocorrelation_two_impulses (segment : list num) (a lag : nat) :
  List.length segment = bufferSize -> Forall finite segment ->
  0 < a -> a + lag < bufferSize - 1 ->
  minSamples <= lag < maxSamples ->
  (forall i, i < bufferSize ->
             sampleOf segment i
             = if (i =? a) || (i =? a + lag) then 1%R else 0%R) ->
  detectPitchAutocorrelation segment = frequencyOfLag lag.
Proof.
  intros Hlen Hfin Ha Hal Hlag Hs. sizes.
  assert (Hzero : forall i, i < bufferSize -> i <> a -> i <> a + lag ->
                            windowed segment i = 0%R).
  { intros i Hi Hna Hnal. unfold windowed. rewrite Hs by exact Hi.
    destruct (Nat.eqb_spec i a); [contradiction|].
    destruct (Nat.eqb_spec i (a + lag)); [contradiction|]. cbn [orb]. lra. }
  assert (Hone : forall i, i = a \/ i = a + lag -> (0 < windowed segment i)%R).
  { intros i Hi. unfold windowed. rewrite Hs by lia.
    replace ((i =? a) || (i =? a + lag)) with true.
    - rewrite Rmult_1_l. apply hann_pos; lia.
    - symmetry. apply orb_true_iff.
      destruct Hi as [-> | ->]; [left | right]; apply Nat.eqb_refl. }
  assert (Hpeak : (0 < acf segment lag)%R).
  { unfold acf. rewrite (sumTo_single _ _ a).
    - apply Rmult_lt_0_compat; apply Hone; auto.
    - lia.
    - intros i Hi Hne. destruct (Nat.eq_dec i (a + lag)) as [->|Hne'].
      + rewrite (Hzero (a + lag + lag)) by lia. lra.
      + rewrite (Hzero i) by lia. lra. }
  assert (Hflat : forall j, minSamples <= j < maxSamples -> j <> lag ->
                            acf segment j = 0%R).
  { intros j Hj Hne. unfold acf. apply sumTo_zero. intros i Hi.
    destruct (Nat.eq_dec i a) as [->|Hia].
    - rewrite (Hzero (a + j)) by lia. lra.
    - destruct (Nat.eq_dec i (a + lag)) as [->|Hil].
      + rewrite (Hzero (a + lag + j)) by lia. lra.
      + rewrite (Hzero i) by lia. lra. }
  destruct (detectPitchAutocorrelation_peak segment Hlen Hfin)
    as [(l & (Hrange & _) & Hpos & ->) | [Hle _]].
  - destruct (Nat.eq_dec l lag) as [->|Hne]; [reflexivity|].
    rewrite (Hflat l Hrange Hne) in Hpos. lra.
  - specialize (Hle lag Hlag). lra.
Qed.

Lemma segmentCount_three_halves : segmentCount (3 * overlap + 1) = 2.
Proof. reflexivity. Qed.

Lemma segmentAudio_impulseSignal (positions : list nat) :
  segmentAudio (impulseSignal (3 * overlap + 1) positions)
  = [segmentAt (impulseSignal (3 * overlap + 1) positions) 0;
     segmentAt (impulseSignal (3 * overlap + 1) positions) 1].
Proof.
  rewrite segmentAudio_offsets, impulseSignal_length, segmentCount_three_halves.
  reflexivity.
Qed.

Lemma segmentAt_impulseSignal_sample (positions : list nat) (k i : nat) :
  k < 2 -> i < bufferSize ->
  sampleOf (segmentAt (impulseSignal (3 * overlap + 1) positions) k) i
  = if existsb (Nat.eqb (k * overlap + i)) positions then 1%R else 0%R.
Proof.
  intros Hk Hi. unfold sampleOf.
  rewrite segmentAt_read, impulseSignal_read by (trivial; sizes; nia).
  destruct (existsb (Nat.eqb (k * overlap + i)) positions); reflexivity.
Qed.

Lemma segmentAt_impulseSignal_ok (positions : list nat) (k : nat) :
  k < 2 ->
  List.length (segmentAt (impulseSignal (3 * overlap + 1) positions) k) = bufferSize
  /\ Forall finite (segmentAt (impulseSignal (3 * overlap + 1) positions) k).
Proof.
  intros Hk. split.
  - apply segmentAt_length. rewrite impulseSignal_length, segmentCount_three_halves.
    exact Hk.
  - apply slice_Forall, impulseSignal_finite.
Qed.

(** The positions a segment sees: an index holds an impulse exactly when
    it is one of the two expected ones. *)
Lemma existsb_eqb_positions (x : nat) (positions : list nat) (b : bool) :
  (In x positions -> b = true) ->
  (b = true -> In x positions) ->
  existsb (Nat.eqb x) positions = b.
Proof.
  intros H1 H2. destruct b.
  - apply existsb_exists. exists x.
    split; [apply H2; reflexivity | apply Nat.eqb_refl].
  - destruct (existsb (Nat.eqb x) positions) eqn:He; [|reflexivity].
    apply existsb_exists in He. destruct He as (y & Hy & Heq).
    apply Nat.eqb_eq in Heq. subst y. symmetry. apply H1, Hy.
Qed.

Ltac positions :=
  match goal with
  | |- (if existsb (Nat.eqb ?x) ?ps then _ else _) = (if ?b then _ else _) =>
      rewrite (existsb_eqb_positions x ps b); [reflexivity | |]
  end;
  [ cbn [In]; intros ?; apply orb_true_iff; rewrite !Nat.eqb_eq; sizes; lia
  | let Hb := fresh "Hb" in
    intros Hb; apply orb_true_iff in Hb; rewrite !Nat.eqb_eq in Hb;
    cbn [In]; sizes; lia ].

Ltac impulse_positions :=
  intros i Hi; rewrite segmentAt_impulseSignal_sample by (trivial; lia);
  positions.

Lemma sameNoteBuffer_segment0 :
  detectPitchAutocorrelation
    (segmentAt (impulseSignal (3 * overlap + 1) [3000; 3100]) 0)
  = frequencyOfLag 100.
Proof.
  destruct (segmentAt_impulseSignal_ok [3000; 3100] 0) as [Hlen Hfin]; [lia|].
  apply (detectPitchAutocorrelation_two_impulses _ 3000 100);
    trivial; try (sizes; lia).
  impulse_positions.
Qed.

Lemma sameNoteBuffer_segment1 :
  detectPitchAutocorrelation
    (segmentAt (impulseSignal (3 * overlap + 1) [3000; 3100]) 1)
  = frequencyOfLag 100.
Proof.
  destruct (segmentAt_impulseSignal_ok [3000; 3100] 1) as [Hlen Hfin]; [lia|].
  apply (detectPitchAutocorrelation_two_impulses _ 952 100);
    trivial; try (sizes; lia).
  impulse_positions.
Qed.

(* ================================================================== *)
(** ** Two analyses, from the samples to the result *)

Lemma analyzeAudio_eq (b : AudioBuffer.t) :
  analyzeAudio b
  = Resolved (convertToMusicalNotation
                (consolidateNotes
                   (perSegmentSamples (segmentAudio (convertToMono b))))).
Proof.
  unfold analyzeAudio, rethrow. rewrite detectPitches_consolidated. reflexivity.
Qed.

Lemma convertToMono_single (n : nat) (channel : list num) :
  convertToMono (AudioBuffer.mk n [channel]) = channel.
Proof. reflexivity. Qed.

Lemma inRange_lag_100 : inRange (frequencyOfLag 100) = true.
Proof. reflexivity. Qed.

Lemma inRange_lag_50 : inRange (frequencyOfLag 50) = true.
Proof. reflexivity. Qed.

Lemma sameNoteBuffer_samples :
  perSegmentSamples (segmentAudio (convertToMono sameNoteBuffer))
  = [pitchAt 0 (frequencyOfLag 100); pitchAt 1 (frequencyOfLag 100)].
Proof.
  unfold sameNoteBuffer. rewrite convertToMono_single, segmentAudio_impulseSignal.
  unfold perSegmentSamples. rewrite !samplesFrom_cons.
  rewrite sameNoteBuffer_segment0, sameNoteBuffer_segment1, inRange_lag_100.
  reflexivity.
Qed.

(** Consecutive segments start half a segment apart, 46 ms: two samples
    of one note from consecutive segments merge. *)
Lemma sameNote_consecutive (frequency : Q) :
  sameNote (pitchAt 1 frequency) (pitchAt 0 frequency) = true.
Proof.
  unfold sameNote. cbn [pitchAt Pitch.note Pitch.startTime Pitch.endTime].
  rewrite String.eqb_refl, Z.eqb_refl. reflexivity.
Qed.

Lemma sameNoteBuffer_rawPitchData :
  consolidateNotes (perSegmentSamples (segmentAudio (convertToMono sameNoteBuffer)))
  = [Pitch.withEndTime (pitchAt 0 (frequencyOfLag 100))
                       (Pitch.endTime (pitchAt 1 (frequencyOfLag 100)))].
Proof.
  rewrite sameNoteBuffer_samples, consolidateNotes_from.
  cbn [consolidateFrom]. rewrite sameNote_consecutive. reflexivity.
Qed.

(** C4 fails on the code: two segments in range, one entry of raw pitch
    data. *)
Lemma analyzeAudio_rawPitchData_not_per_segment :
  ~ (forall b result,
        analyzeAudio b = Resolved result ->
        rawPitchData result
        = perSegmentSamples (segmentAudio (convertToMono b))).
Proof.
  intros H. specialize (H sameNoteBuffer _ (analyzeAudio_eq sameNoteBuffer)).
  cbn [convertToMusicalNotation rawPitchData] in H.
  rewrite sameNoteBuffer_rawPitchData, sameNoteBuffer_samples in H.
  discriminate H.
Qed.

Lemma frequencyOfLag_100 : frequencyOfLag 100 = (44100 # 100)%Q.
Proof. reflexivity. Qed.

Lemma frequencyOfLag_50 : frequencyOfLag 50 = (44100 # 50)%Q.
Proof. reflexivity. Qed.

Lemma semitonesFromA4_lag_100 : semitonesFromA4 (frequencyOfLag 100) = 0%Z.
Proof. rewrite frequencyOfLag_100. semitones 0%Z. Qed.

Lemma semitonesFromA4_lag_50 : semitonesFromA4 (frequencyOfLag 50) = 12%Z.
Proof. rewrite frequencyOfLag_50. semitones 12%Z. Qed.

Lemma twoNotesBuffer_segment0 :
  detectPitchAutocorrelation
    (segmentAt (impulseSignal (3 * overlap + 1) [1000; 1100; 4500; 4550]) 0)
  = frequencyOfLag 100.
Proof.
  destruct (segmentAt_impulseSignal_ok [1000; 1100; 4500; 4550] 0)
    as [Hlen Hfin]; [lia|].
  apply (detectPitchAutocorrelation_two_impulses _ 1000 100);
    trivial; try (sizes; lia).
  impulse_positions.
Qed.

Lemma twoNotesBuffer_segment1 :
  detectPitchAutocorrelation
    (segmentAt (impulseSignal (3 * overlap + 1) [1000; 1100; 4500; 4550]) 1)
  = frequencyOfLag 50.
Proof.
  destruct (segmentAt_impulseSignal_ok [1000; 1100; 4500; 4550] 1)
    as [Hlen Hfin]; [lia|].
  apply (detectPitchAutocorrelation_two_impulses _ 2452 50);
    trivial; try (sizes; lia).
  impulse_positions.
Qed.

Lemma twoNotesBuffer_samples :
  perSegmentSamples (segmentAudio (convertToMono twoNotesBuffer))
  = [pitchAt 0 (frequencyOfLag 100); pitchAt 1 (frequencyOfLag 50)].
Proof.
  unfold twoNotesBuffer. rewrite convertToMono_single, segmentAudio_impulseSignal.
  unfold perSegmentSamples. rewrite !samplesFrom_cons.
  rewrite twoNotesBuffer_segment0, twoNotesBuffer_segment1.
  rewrite inRange_lag_100, inRange_lag_50. reflexivity.
Qed.

Lemma frequencyToNote_lag_100 :
  Note.name (frequencyToNote (frequencyOfLag 100)) = "F#"
  /\ Note.octave (frequencyToNote (frequencyOfLag 100)) = 4%Z.
Proof.
  cbn [frequencyToNote Note.name Note.octave].
  rewrite semitonesFromA4_lag_100. split; reflexivity.
Qed.

Lemma frequencyToNote_lag_50 :
  Note.name (frequencyToNote (frequencyOfLag 50)) = "F#"
  /\ Note.octave (frequencyToNote (frequencyOfLag 50)) = 5%Z.
Proof.
  cbn [frequencyToNote Note.name Note.octave].
  rewrite semitonesFromA4_lag_50. split; reflexivity.
Qed.

Lemma twoNotesBuffer_rawPitchData :
  consolidateNotes (perSegmentSamples (segmentAudio (convertToMono twoNotesBuffer)))
  = [pitchAt 0 (frequencyOfLag 100); pitchAt 1 (frequencyOfLag 50)].
Proof.
  rewrite twoNotesBuffer_samples, consolidateNotes_from.
  cbn [consolidateFrom].
  replace (sameNote (pitchAt 1 (frequencyOfLag 50)) (pitchAt 0 (frequencyOfLag 100)))
    with false; [reflexivity|].
  unfold sameNote. cbn [pitchAt Pitch.note Pitch.startTime Pitch.endTime].
  rewrite (proj2 frequencyToNote_lag_100), (proj2 frequencyToNote_lag_50).
  rewrite andb_false_r. reflexivity.
Qed.

(** C3 fails on the code: the two simple notes of this analysis start at 0
    and at 46 ms, and each lasts 93 ms. *)
Lemma analyzeAudio_notes_overlap :
  exists result s1 s2,
    analyzeAudio twoNotesBuffer = Resolved result
    /\ simpleNotes result = [s1; s2]
    /\ overlapping (SimpleNote.startTime s1) (simpleNoteEnd s1)
                   (SimpleNote.startTime s2) (simpleNoteEnd s2).
Proof.
  eexists. eexists. eexists. split; [apply analyzeAudio_eq|].
  cbn [convertToMusicalNotation simpleNotes].
  rewrite twoNotesBuffer_rawPitchData.
  unfold generateSimpleNotes. cbn [map]. split; [reflexivity|].
  unfold overlapping, simpleNoteEnd.
  cbn [SimpleNote.startTime SimpleNote.duration pitchAt Pitch.startTime Pitch.endTime].
  split; reflexivity.
Qed.

(** The same analysis shows the two spellings of C10 side by side. *)
Lemma twoNotesBuffer_spellings :
  exists result,
    analyzeAudio twoNotesBuffer = Resolved result
    /\ map SimpleNote.note (simpleNotes result) = ["F♯"; "F♯"]
    /\ map Sheet.pitch (Sheet.notes (sheetMusic result)) = ["F#"; "F#"]
    /\ map SimpleNote.octave (simpleNotes result) = [4; 5]%Z.
Proof.
  eexists. split; [apply analyzeAudio_eq|].
  cbn [convertToMusicalNotation simpleNotes sheetMusic].
  rewrite generateSimpleNotes_names, generateSheetMusic_pitches.
  rewrite twoNotesBuffer_rawPitchData.
  unfold generateSimpleNotes, pitchName.
  cbn [map pitchAt Pitch.note SimpleNote.octave].
  rewrite (proj1 frequencyToNote_lag_100), (proj1 frequencyToNote_lag_50).
  rewrite (proj2 frequencyToNote_lag_100), (proj2 frequencyToNote_lag_50).
  repeat split.
Qed.

Lemma analyzeAudio_times_ordered_witness :
  let result := convertToMusicalNotation
                  (consolidateNotes
                     (perSegmentSamples (segmentAudio (convertToMono twoNotesBuffer)))) in
  Forall (fun p => (Pitch.startTime p <= Pitch.endTime p)%Q) (rawPitchData result)
  /\ Forall (fun s => (0 <= SimpleNote.duration s)%Q) (simpleNotes result)
  /\ Forall (fun c => (Chord.startTime c <= Chord.endTime c)%Q)
            (complexChords result)
  /\ nondecreasing (map Pitch.startTime (rawPitchData result))
  /\ nondecreasing (map SimpleNote.startTime (simpleNotes result))
  /\ nondecreasing (map Sheet.startTime (Sheet.notes (sheetMusic result)))
  /\ nondecreasing (map Chord.startTime (complexChords result)).
Proof.
  intros result.
  apply (analyzeAudio_times_ordered twoNotesBuffer result).
  apply analyzeAudio_eq.
Defined.

Lemma analyzeAudio_rawPitchData_witness :
  let result := convertToMusicalNotation
                  (consolidateNotes
                     (perSegmentSamples (segmentAudio (convertToMono sameNoteBuffer)))) in
  rawPitchData result
  = consolidateNotes (perSegmentSamples (segmentAudio (convertToMono sameNoteBuffer)))
  /\ Forall (fun p => inRange (Pitch.frequency p) = true) (rawPitchData result)
  /\ List.length (rawPitchData result)
     <= List.length (perSegmentSamples (segmentAudio (convertToMono sameNoteBuffer))).
Proof.
  intros result.
  apply (analyzeAudio_rawPitchData sameNoteBuffer result).
  apply analyzeAudio_eq.
Defined.

(* ================================================================== *)
(** ** An analysis with a chord *)

Lemma segmentAt_chordBuffer_sample (positions : list nat) (k i : nat) :
  k < 5 -> i < bufferSize ->
  sampleOf (segmentAt (impulseSignal (6 * overlap + 1) positions) k) i
  = if existsb (Nat.eqb (k * overlap + i)) positions then 1%R else 0%R.
Proof.
  intros Hk Hi. unfold sampleOf.
  rewrite segmentAt_read, impulseSignal_read by (trivial; sizes; nia).
  destruct (existsb (Nat.eqb (k * overlap + i)) positions); reflexivity.
Qed.

Lemma segmentCount_six_halves : segmentCount (6 * overlap + 1) = 5.
Proof. reflexivity. Qed.

Lemma segmentAt_chordBuffer_ok (positions : list nat) (k : nat) :
  k < 5 ->
  List.length (segmentAt (impulseSignal (6 * overlap + 1) positions) k) = bufferSize
  /\ Forall finite (segmentAt (impulseSignal (6 * overlap + 1) positions) k).
Proof.
  intros Hk. split.
  - apply segmentAt_length. rewrite impulseSignal_length, segmentCount_six_halves.
    exact Hk.
  - apply slice_Forall, impulseSignal_finite.
Qed.

Lemma chordBuffer_segment (k a lag : nat) :
  k < 5 -> 0 < a -> a + lag < bufferSize - 1 -> minSamples <= lag < maxSamples ->
  (forall i, i < bufferSize ->
             (if existsb (Nat.eqb (k * overlap + i))
                         [1000; 1100; bufferSize + 904; bufferSize + 983;
                          2 * bufferSize + 808; 2 * bufferSize + 875]
              then 1%R else 0%R)
             = (if (i =? a) || (i =? a + lag) then 1%R else 0%R)) ->
  detectPitchAutocorrelation
    (segmentAt (AudioBuffer.getChannelData chordBuffer 0) k)
  = frequencyOfLag lag.
Proof.
  intros Hk Ha Hal Hlag Hpos.
  change (AudioBuffer.getChannelData chordBuffer 0)
    with (impulseSignal (6 * overlap + 1)
                        [1000; 1100; bufferSize + 904; bufferSize + 983;
                         2 * bufferSize + 808; 2 * bufferSize + 875]).
  destruct (segmentAt_chordBuffer_ok
              [1000; 1100; bufferSize + 904; bufferSize + 983;
               2 * bufferSize + 808; 2 * bufferSize + 875] k Hk) as [Hlen Hfin].
  apply (detectPitchAutocorrelation_two_impulses _ a lag); trivial.
  intros i Hi. rewrite segmentAt_chordBuffer_sample by assumption.
  apply Hpos, Hi.
Qed.

Lemma chordBuffer_segment0 :
  detectPitchAutocorrelation (segmentAt (AudioBuffer.getChannelData chordBuffer 0) 0)
  = frequencyOfLag 100.
Proof.
  apply (chordBuffer_segment 0 1000 100); try (sizes; lia).
  intros i Hi. positions.
Qed.

Lemma chordBuffer_segment1 :
  detectPitchAutocorrelation (segmentAt (AudioBuffer.getChannelData chordBuffer 0) 1)
  = frequencyOfLag 79.
Proof.
  apply (chordBuffer_segment 1 2952 79); try (sizes; lia).
  intros i Hi. positions.
Qed.

Lemma chordBuffer_segment2 :
  detectPitchAutocorrelation (segmentAt (AudioBuffer.getChannelData chordBuffer 0) 2)
  = frequencyOfLag 79.
Proof.
  apply (chordBuffer_segment 2 904 79); try (sizes; lia).
  intros i Hi. positions.
Qed.

Lemma chordBuffer_segment3 :
  detectPitchAutocorrelation (segmentAt (AudioBuffer.getChannelData chordBuffer 0) 3)
  = frequencyOfLag 67.
Proof.
  apply (chordBuffer_segment 3 2856 67); try (sizes; lia).
  intros i Hi. positions.
Qed.

Lemma chordBuffer_segment4 :
  detectPitchAutocorrelation (segmentAt (AudioBuffer.getChannelData chordBuffer 0) 4)
  = frequencyOfLag 67.
Proof.
  apply (chordBuffer_segment 4 808 67); try (sizes; lia).
  intros i Hi. positions.
Qed.

Lemma frequencyOfLag_79 : frequencyOfLag 79 = (44100 # 79)%Q.
Proof. reflexivity. Qed.

Lemma frequencyOfLag_67 : frequencyOfLag 67 = (44100 # 67)%Q.
Proof. reflexivity. Qed.

Lemma semitonesFromA4_lag_79 : semitonesFromA4 (frequencyOfLag 79) = 4%Z.
Proof. rewrite frequencyOfLag_79. semitones 4%Z. Qed.

Lemma semitonesFromA4_lag_67 : semitonesFromA4 (frequencyOfLag 67) = 7%Z.
Proof. rewrite frequencyOfLag_67. semitones 7%Z. Qed.

Lemma frequencyToNote_lag_79 :
  Note.name (frequencyToNote (frequencyOfLag 79)) = "A#"
  /\ Note.octave (frequencyToNote (frequencyOfLag 79)) = 4%Z.
Proof.
  cbn [frequencyToNote Note.name Note.octave].
  rewrite semitonesFromA4_lag_79. split; reflexivity.
Qed.

Lemma frequencyToNote_lag_67 :
  Note.name (frequencyToNote (frequencyOfLag 67)) = "C#"
  /\ Note.octave (frequencyToNote (frequencyOfLag 67)) = 5%Z.
Proof.
  cbn [frequencyToNote Note.name Note.octave].
  rewrite semitonesFromA4_lag_67. split; reflexivity.
Qed.

Lemma chordBuffer_samples :
  perSegmentSamples (segmentAudio (convertToMono chordBuffer))
  = [pitchAt 0 (frequencyOfLag 100);
     pitchAt 1 (frequencyOfLag 79); pitchAt 2 (frequencyOfLag 79);
     pitchAt 3 (frequencyOfLag 67); pitchAt 4 (frequencyOfLag 67)].
Proof.
  change (convertToMono chordBuffer) with (AudioBuffer.getChannelData chordBuffer 0).
  rewrite segmentAudio_offsets.
  replace (segmentCount (List.length (AudioBuffer.getChannelData chordBuffer 0)))
    with 5
    by (unfold chordBuffer, AudioBuffer.getChannelData; cbn [AudioBuffer.channelData nth];
        rewrite impulseSignal_length; symmetry; apply segmentCount_six_halves).
  cbn [seq map]. unfold perSegmentSamples. rewrite !samplesFrom_cons.
  rewrite chordBuffer_segment0, chordBuffer_segment1, chordBuffer_segment2,
    chordBuffer_segment3, chordBuffer_segment4.
  replace (inRange (frequencyOfLag 100)) with true by reflexivity.
  replace (inRange (frequencyOfLag 79)) with true by reflexivity.
  replace (inRange (frequencyOfLag 67)) with true by reflexivity.
  reflexivity.
Qed.

(** Segments 1 and 2 merge into one note, and so do segments 3 and 4. *)
Lemma chordBuffer_rawPitchData :
  consolidateNotes (perSegmentSamples (segmentAudio (convertToMono chordBuffer)))
  = [pitchAt 0 (frequencyOfLag 100);
     Pitch.withEndTime (pitchAt 1 (frequencyOfLag 79))
                       (Pitch.endTime (pitchAt 2 (frequencyOfLag 79)));
     Pitch.withEndTime (pitchAt 3 (frequencyOfLag 67))
                       (Pitch.endTime (pitchAt 4 (frequencyOfLag 67)))].
Proof.
  rewrite chordBuffer_samples, consolidateNotes_from.
  destruct frequencyToNote_lag_100 as [N100 O100].
  destruct frequencyToNote_lag_79 as [N79 O79].
  destruct frequencyToNote_lag_67 as [N67 O67].
  assert (H10 : sameNote (pitchAt 1 (frequencyOfLag 79)) (pitchAt 0 (frequencyOfLag 100))
                = false).
  { unfold sameNote. cbn [pitchAt Pitch.note]. rewrite N100, N79. reflexivity. }
  assert (H21 : sameNote (pitchAt 2 (frequencyOfLag 79)) (pitchAt 1 (frequencyOfLag 79))
                = true).
  { unfold sameNote. cbn [pitchAt Pitch.note Pitch.startTime Pitch.endTime].
    rewrite String.eqb_refl, Z.eqb_refl. reflexivity. }
  assert (H32 : sameNote (pitchAt 3 (frequencyOfLag 67))
                         (Pitch.withEndTime (pitchAt 1 (frequencyOfLag 79))
                            (Pitch.endTime (pitchAt 2 (frequencyOfLag 79))))
                = false).
  { unfold sameNote, Pitch.withEndTime. cbn [pitchAt Pitch.note].
    rewrite N79, N67. reflexivity. }
  assert (H43 : sameNote (pitchAt 4 (frequencyOfLag 67)) (pitchAt 3 (frequencyOfLag 67))
                = true).
  { unfold sameNote. cbn [pitchAt Pitch.note Pitch.startTime Pitch.endTime].
    rewrite String.eqb_refl, Z.eqb_refl. reflexivity. }
  cbn [consolidateFrom]. rewrite H10. cbn [consolidateFrom]. rewrite H21.
  cbn [consolidateFrom]. rewrite H32. cbn [consolidateFrom]. rewrite H43.
  reflexivity.
Qed.

(** The analysis of [chordBuffer]: three notes, F#4, A#4 and C#5 as the
    code names them, spelled with the sharp sign in the simple notes and
    with ['#'] in the sheet music and in the one chord, F# Major. *)
Lemma chordBuffer_views :
  exists result,
    analyzeAudio chordBuffer = Resolved result
    /\ map SimpleNote.note (simpleNotes result) = ["F♯"; "A♯"; "C♯"]
    /\ map Sheet.pitch (Sheet.notes (sheetMusic result)) = ["F#"; "A#"; "C#"]
    /\ map (fun c => (Chord.root c, Chord.type c, Chord.notes c))
           (complexChords result)
       = [("F#", "Major", ["F#"; "A#"; "C#"])].
Proof.
  eexists. split; [apply analyzeAudio_eq|].
  cbn [convertToMusicalNotation simpleNotes sheetMusic complexChords].
  rewrite chordBuffer_rawPitchData.
  destruct frequencyToNote_lag_100 as [N100 O100].
  destruct frequencyToNote_lag_79 as [N79 O79].
  destruct frequencyToNote_lag_67 as [N67 O67].
  unfold pitchAt, Pitch.withEndTime. cbn [Pitch.frequency Pitch.note Pitch.startTime Pitch.endTime].
  destruct (frequencyToNote (frequencyOfLag 100)) as [n1 o1 f1 c1].
  destruct (frequencyToNote (frequencyOfLag 79)) as [n2 o2 f2 c2].
  destruct (frequencyToNote (frequencyOfLag 67)) as [n3 o3 f3 c3].
  cbn [Note.name Note.octave] in *. subst.
  split; [reflexivity|]. split; [reflexivity|].
  vm_compute. reflexivity.
Qed.

Lemma analyzeAudio_sharp_spelling_witness :
  let result := convertToMusicalNotation
                  (consolidateNotes
                     (perSegmentSamples (segmentAudio (convertToMono chordBuffer)))) in
  Forall2 (fun s p => In (pitchName p, SimpleNote.note s) sharpSpelling)
          (simpleNotes result) (rawPitchData result)
  /\ Forall2 (fun n p => Sheet.pitch n = pitchName p)
             (Sheet.notes (sheetMusic result)) (rawPitchData result)
  /\ Forall (fun c =>
               Forall (fun name => In name (map fst sharpSpelling)
                                   /\ In name (map pitchName (rawPitchData result)))
                      (Chord.root c :: Chord.notes c))
            (complexChords result)
  /\ Forall2 (fun s n => SimpleNote.note s = Sheet.pitch n
                         <-> hasHash (Sheet.pitch n) = false)
             (simpleNotes result) (Sheet.notes (sheetMusic result)).
Proof.
  intros result.
  apply (analyzeAudio_sharp_spelling chordBuffer result).
  apply analyzeAudio_eq.
Defined.

(* ================================================================== *)
(** * Further properties of the pipeline *)

(* ================================================================== *)
(** ** Segmentation and short recordings *)

(** X1: [segmentAudio] returns as many segments as there are offsets
    [k * overlap] with [k * overlap + bufferSize < length]; the [k]-th
    segment has exactly [bufferSize] samples, and its sample [i] is sample
    [k * overlap + i] of the signal. *)
Theorem segmentAudio_windows (audioData : list num) (k : nat) :
  k * overlap + bufferSize < List.length audioData ->
  k < List.length (segmentAudio audioData)
  /\ List.length (nth k (segmentAudio audioData) []) = bufferSize
  /\ (forall i, i < bufferSize ->
                readNum (nth k (segmentAudio audioData) []) i
                = readNum audioData (k * overlap + i))
  /\ List.length (segmentAudio audioData) = segmentCount (List.length audioData).
Proof.
  intros Hk. apply segmentCount_lt in Hk.
  rewrite segmentAudio_offsets, length_map, length_seq.
  assert (Hnth : nth k (map (segmentAt audioData)
                            (seq 0 (segmentCount (List.length audioData)))) []
                 = segmentAt audioData k).
  { rewrite (nth_indep _ [] (segmentAt audioData 0))
      by (rewrite length_map, length_seq; exact Hk).
    rewrite (map_nth (segmentAt audioData)), seq_nth by exact Hk. reflexivity. }
  rewrite Hnth. split; [exact Hk|]. split; [apply segmentAt_length, Hk|].
  split; [|reflexivity]. intros i Hi. apply segmentAt_read, Hi.
Qed.

Lemma segmentAudio_windows_witness :
  1 < List.length (segmentAudio (impulseSignal (3 * overlap + 1) [3000; 3100]))
  /\ List.length
       (nth 1 (segmentAudio (impulseSignal (3 * overlap + 1) [3000; 3100])) [])
     = bufferSize
  /\ (forall i, i < bufferSize ->
                readNum
                  (nth 1 (segmentAudio (impulseSignal (3 * overlap + 1) [3000; 3100])) [])
                  i
                = readNum (impulseSignal (3 * overlap + 1) [3000; 3100])
                          (1 * overlap + i))
  /\ List.length (segmentAudio (impulseSignal (3 * overlap + 1) [3000; 3100]))
     = segmentCount (List.length (impulseSignal (3 * overlap + 1) [3000; 3100])).
Proof.
  apply (segmentAudio_windows (impulseSignal (3 * overlap + 1) [3000; 3100]) 1).
  rewrite impulseSignal_length. vm_compute. lia.
Defined.

Lemma segmentCount_short (n : nat) : n <= bufferSize -> segmentCount n = 0.
Proof.
  intros Hn. unfold segmentCount.
  destruct (Nat.leb_spec n bufferSize); [reflexivity | lia].
Qed.

(** X2: a recording whose mono signal has at most [bufferSize] samples
    (93 ms) is not analysed at all: whatever it holds, the result is the
    empty transcription. *)
Theorem analyzeAudio_too_short (b : AudioBuffer.t) :
  List.length (convertToMono b) <= bufferSize ->
  analyzeAudio b = Resolved emptyResult.
Proof.
  intros Hlen. rewrite analyzeAudio_eq, segmentAudio_offsets.
  rewrite segmentCount_short by exact Hlen. reflexivity.
Qed.

Lemma analyzeAudio_too_short_witness :
  analyzeAudio (AudioBuffer.mk bufferSize [impulseSignal bufferSize [1000; 1100]])
  = Resolved emptyResult.
Proof.
  apply (analyzeAudio_too_short
           (AudioBuffer.mk bufferSize [impulseSignal bufferSize [1000; 1100]])).
  rewrite convertToMono_single, impulseSignal_length. apply Nat.le_refl.
Defined.

(* ================================================================== *)
(** ** The downmix *)

Lemma channelSum_finite (b : AudioBuffer.t) (numChannels i : nat) :
  (forall channel, channel < numChannels ->
                   finite (readNum (AudioBuffer.getChannelData b channel) i)) ->
  channelSum b numChannels i
  = Num (sumTo (fun channel => sampleOf (AudioBuffer.getChannelData b channel) i)
               numChannels).
Proof.
  intros Hfin. unfold channelSum, sumTo. apply fold_nadd_finite.
  intros channel Hc. apply in_seq in Hc. unfold sampleOf.
  destruct (Hfin channel) as [r Hr]; [lia|]. rewrite Hr. reflexivity.
Qed.

(** In exact arithmetic: with two channels or more, every mono sample
    whose index all channels hold is the arithmetic mean of the channels'
    samples. *)
Lemma convertToMono_mean (b : AudioBuffer.t) (i : nat) :
  2 <= AudioBuffer.numberOfChannels b ->
  i < AudioBuffer.length b ->
  (forall channel, channel < AudioBuffer.numberOfChannels b ->
                   finite (readNum (AudioBuffer.getChannelData b channel) i)) ->
  readNum (convertToMono b) i
  = Num (sumTo (fun channel => sampleOf (AudioBuffer.getChannelData b channel) i)
               (AudioBuffer.numberOfChannels b)
         / INR (AudioBuffer.numberOfChannels b)).
Proof.
  intros Hn Hi Hfin. unfold convertToMono.
  destruct (Nat.eqb_spec (AudioBuffer.numberOfChannels b) 1) as [H1|_]; [lia|].
  unfold readNum at 1.
  rewrite (nth_indep _ NaN (ndiv (channelSum b (AudioBuffer.numberOfChannels b) 0)
                                 (Num (INR (AudioBuffer.numberOfChannels b)))))
    by (rewrite length_map, length_seq; exact Hi).
  rewrite (map_nth (fun i => ndiv (channelSum b (AudioBuffer.numberOfChannels b) i)
                                  (Num (INR (AudioBuffer.numberOfChannels b))))
                   (seq 0 (AudioBuffer.length b)) 0 i).
  rewrite seq_nth by exact Hi. cbn [Nat.add].
  rewrite channelSum_finite by exact Hfin. unfold ndiv.
  destruct (Req_dec_T (INR (AudioBuffer.numberOfChannels b)) 0) as [H0|_];
    [|reflexivity].
  exfalso. apply (not_0_INR (AudioBuffer.numberOfChannels b)); [lia | exact H0].
Qed.

Lemma sumTo_constant (f : nat -> R) (x : R) (n : nat) :
  (forall i, i < n -> f i = x) -> sumTo f n = (INR n * x)%R.
Proof.
  induction n as [|n IH]; intros Hf.
  - unfold sumTo. simpl. ring.
  - rewrite sumTo_S, IH, Hf, S_INR by auto. ring.
Qed.

(** X3: a recording whose channels all carry the same sample at an index
    (the same signal on every channel, as a mono recording stored in
    stereo) has that very sample in the mono signal: the sum of [n] equal
    samples divided by [n]. *)
Theorem convertToMono_identical_channels (b : AudioBuffer.t) (i : nat) (x : R) :
  2 <= AudioBuffer.numberOfChannels b ->
  i < AudioBuffer.length b ->
  (forall channel, channel < AudioBuffer.numberOfChannels b ->
                   readNum (AudioBuffer.getChannelData b channel) i = Num x) ->
  readNum (convertToMono b) i = Num x.
Proof.
  intros Hn Hi Hsame. rewrite convertToMono_mean; trivial.
  - f_equal. rewrite (sumTo_constant _ x).
    + field. apply not_0_INR. lia.
    + intros channel Hc. unfold sampleOf. rewrite Hsame by exact Hc. reflexivity.
  - intros channel Hc. exists x. apply Hsame, Hc.
Qed.

Lemma convertToMono_identical_channels_witness :
  readNum (convertToMono (AudioBuffer.mk 2 [[Num 1; Num (-3)]; [Num 1; Num (-3)]])) 1
  = Num (-3).
Proof.
  apply (convertToMono_identical_channels
           (AudioBuffer.mk 2 [[Num 1; Num (-3)]; [Num 1; Num (-3)]]) 1 (-3)).
  - apply Nat.le_refl.
  - apply Nat.lt_succ_diag_r.
  - intros [|[|channel]] Hc; [reflexivity | reflexivity|].
    cbn in Hc. lia.
Defined.

(* ================================================================== *)
(** ** The Hann window *)

Lemma hann_range (len i : nat) : (0 <= hann len i <= 1)%R.
Proof.
  unfold hann. pose proof (COS_bound (2 * PI * INR i / (INR len - 1))). lra.
Qed.

Lemma hann_first (len : nat) : hann len 0 = 0%R.
Proof.
  unfold hann. rewrite INR_0.
  replace (2 * PI * 0 / (INR len - 1))%R with 0%R by (unfold Rdiv; ring).
  rewrite cos_0. lra.
Qed.

Lemma hann_last (len : nat) : 2 <= len -> hann len (len - 1) = 0%R.
Proof.
  intros Hlen. unfold hann. rewrite minus_INR by lia. rewrite INR_1.
  assert (Hpos : (1 < INR len)%R) by (apply lt_1_INR; lia).
  replace (2 * PI * (INR len - 1) / (INR len - 1))%R with (2 * PI)%R
    by (field; lra).
  rewrite cos_2PI. lra.
Qed.

(** X4: the Hann window keeps the length of a buffer of two or more
    finite samples, multiplies each sample by a weight between 0 and 1,
    and brings the first and the last sample to 0. *)
Theorem applyHannWindow_tapers (buffer : list num) :
  Forall finite buffer -> 2 <= List.length buffer ->
  List.length (applyHannWindow buffer) = List.length buffer
  /\ readNum (applyHannWindow buffer) 0 = Num 0
  /\ readNum (applyHannWindow buffer) (List.length buffer - 1) = Num 0
  /\ (forall i, i < List.length buffer ->
                exists weight,
                  (0 <= weight <= 1)%R
                  /\ readNum (applyHannWindow buffer) i
                     = Num (sampleOf buffer i * weight)).
Proof.
  intros Hfin Hlen. split; [apply applyHannWindow_length|].
  assert (Hne : List.length buffer <> 1) by lia.
  split; [|split].
  - rewrite applyHannWindow_read by (trivial; lia). unfold windowed.
    rewrite hann_first. f_equal. ring.
  - rewrite applyHannWindow_read by (trivial; lia). unfold windowed.
    rewrite hann_last by exact Hlen. f_equal. ring.
  - intros i Hi. exists (hann (List.length buffer) i).
    split; [apply hann_range|]. apply applyHannWindow_read; assumption.
Qed.

Lemma applyHannWindow_tapers_witness :
  List.length (applyHannWindow [Num 1; Num 1; Num 1]) = 3
  /\ readNum (applyHannWindow [Num 1; Num 1; Num 1]) 0 = Num 0
  /\ readNum (applyHannWindow [Num 1; Num 1; Num 1]) (3 - 1) = Num 0
  /\ (forall i, i < 3 ->
                exists weight,
                  (0 <= weight <= 1)%R
                  /\ readNum (applyHannWindow [Num 1; Num 1; Num 1]) i
                     = Num (sampleOf [Num 1; Num 1; Num 1] i * weight)).
Proof.
  apply (applyHannWindow_tapers [Num 1; Num 1; Num 1]).
  - repeat constructor; eexists; reflexivity.
  - cbn. lia.
Defined.

(** X5: a buffer of a single sample has no Hann weight: [i / (length - 1)]
    is [0 / 0], and the windowed sample is [NaN], whatever the sample. *)
Theorem applyHannWindow_single_sample (x : num) :
  applyHannWindow [x] = [NaN].
Proof.
  unfold applyHannWindow. cbn [List.length seq map]. unfold windowValue, ndiv.
  rewrite INR_1.
  destruct (Req_dec_T (1 - 1) 0) as [_|Hne]; [|exfalso; apply Hne; ring].
  cbn [ncos]. destruct (readNum [x] 0); reflexivity.
Qed.

(* ================================================================== *)
(** ** What the estimator can answer *)

Lemma peakSearch_index (autocorrelation : list num) (lo n : nat) :
  let st := fold_left (peakStep autocorrelation) (seq lo n) (0%R, (-1)%Z) in
  snd st = (-1)%Z \/ exists lag, lo <= lag < lo + n /\ snd st = Z.of_nat lag.
Proof.
  induction n as [|n IH]; intros st.
  - left. reflexivity.
  - subst st. rewrite seq_S, fold_left_app. cbn [fold_left].
    cbv zeta in IH.
    set (st0 := fold_left (peakStep autocorrelation) (seq lo n) (0%R, (-1)%Z)) in *.
    clearbody st0. unfold peakStep.
    destruct (readNum autocorrelation (lo + n)) as [x|].
    + destruct (Rlt_dec _ x).
      * right. exists (lo + n). split; [lia | reflexivity].
      * destruct IH as [IH | (lag & Hlag & IH)]; [left; exact IH|].
        right. exists lag. split; [lia | exact IH].
    + destruct IH as [IH | (lag & Hlag & IH)]; [left; exact IH|].
      right. exists lag. split; [lia | exact IH].
Qed.

Lemma detectPitchAutocorrelation_zero_or_lag (buffer : list num) :
  detectPitchAutocorrelation buffer = 0%Q
  \/ exists lag, minSamples <= lag < maxSamples
                 /\ detectPitchAutocorrelation buffer = frequencyOfLag lag.
Proof.
  unfold detectPitchAutocorrelation, peakSearch.
  pose proof (peakSearch_index (autocorrelationOf (applyHannWindow buffer))
                               minSamples (maxSamples - minSamples)) as H.
  cbv zeta in H. destruct H as [-> | (lag & Hlag & ->)].
  - left. reflexivity.
  - destruct (Z.ltb_spec 0 (Z.of_nat lag)) as [_|Hle].
    + right. exists lag. split; [sizes; lia | reflexivity].
    + left. reflexivity.
Qed.

(** X6: whatever the buffer (any length, missing samples included), the
    estimator answers 0 or [sampleRate / lag] for a lag of
    [minSamples, maxSamples) = [44, 552). *)
Theorem detectPitchAutocorrelation_values (buffer : list num) :
  detectPitchAutocorrelation buffer = 0%Q
  \/ exists lag, minSamples <= lag < maxSamples
                 /\ detectPitchAutocorrelation buffer = frequencyOfLag lag.
Proof. exact (detectPitchAutocorrelation_zero_or_lag buffer). Qed.

Lemma inRange_lags :
  forallb (fun lag => Bool.eqb (inRange (frequencyOfLag lag))
                               ((45 <=? lag) && (lag <=? 551)))
          (seq 44 508) = true.
Proof. vm_compute. reflexivity. Qed.

(** Of the lags searched, all but the lowest give a frequency inside the
    detection range: [44100 / 44] is above [maxFrequency]. *)
Lemma inRange_frequencyOfLag (lag : nat) :
  minSamples <= lag < maxSamples ->
  inRange (frequencyOfLag lag) = true <-> 45 <= lag <= 551.
Proof.
  intros Hlag. pose proof inRange_lags as H. rewrite forallb_forall in H.
  specialize (H lag). rewrite in_seq in H.
  assert (Hin : 44 <= lag < 44 + 508) by (sizes; lia).
  apply H, Bool.eqb_prop in Hin. rewrite Hin, andb_true_iff, !Nat.leb_le.
  reflexivity.
Qed.

Lemma samplesFrom_entries (segments : list (list num)) :
  forall i,
  Forall (fun p => noteOfFrequency p
                   /\ exists lag, 45 <= lag <= 551
                                  /\ Pitch.frequency p = frequencyOfLag lag)
         (samplesFrom i segments).
Proof.
  induction segments as [|segment rest IH]; intros i.
  - cbn [samplesFrom]. constructor.
  - rewrite samplesFrom_cons.
    destruct (inRange (detectPitchAutocorrelation segment)) eqn:Hr;
      cbn [app]; [|apply IH].
    constructor; [|apply IH]. split; [reflexivity|].
    cbn [pitchAt Pitch.frequency].
    destruct (detectPitchAutocorrelation_zero_or_lag segment) as [H0 | (lag & Hlag & Hf)].
    + rewrite H0 in Hr. discriminate Hr.
    + exists lag. rewrite Hf in Hr. apply inRange_frequencyOfLag in Hr;
        [|exact Hlag]. split; [exact Hr | exact Hf].
Qed.

(** Merging changes the end time only: every consolidated note has the
    note and frequency of one of the samples. *)
Lemma consolidateFrom_Forall (P : Pitch.t -> Prop) (notes : list Pitch.t) :
  (forall p e, P p -> P (Pitch.withEndTime p e)) ->
  forall currentNote,
  Forall P (currentNote :: notes) -> Forall P (consolidateFrom currentNote notes).
Proof.
  intros Hwith. induction notes as [|note rest IH]; intros currentNote Hall;
    cbn [consolidateFrom]; [exact Hall|].
  inversion Hall as [|? ? Hcur Hrest]; subst.
  inversion Hrest as [|? ? Hnote Hrest']; subst.
  destruct (sameNote note currentNote).
  - apply IH. constructor; [apply Hwith, Hcur | exact Hrest'].
  - constructor; [exact Hcur | apply IH, Hrest].
Qed.

Lemma consolidateNotes_Forall (P : Pitch.t -> Prop) (notes : list Pitch.t) :
  (forall p e, P p -> P (Pitch.withEndTime p e)) ->
  Forall P notes -> Forall P (consolidateNotes notes).
Proof.
  intros Hwith Hall. destruct notes as [|first rest]; [constructor|].
  rewrite consolidateNotes_from. apply consolidateFrom_Forall; assumption.
Qed.

(** X7: every frequency in the raw pitch data of an analysis is
    [sampleRate / lag] for a whole lag between 45 and 551: 507 values
    between 80.04 Hz and 980 Hz, and no others, can be reported; and each
    entry carries the note [frequencyToNote] gives for its frequency. *)
Theorem analyzeAudio_frequency_grid (b : AudioBuffer.t) (result : TranscriptionResult) :
  analyzeAudio b = Resolved result ->
  Forall (fun p => Pitch.note p = frequencyToNote (Pitch.frequency p)
                   /\ exists lag, 45 <= lag <= 551
                                  /\ Pitch.frequency p = frequencyOfLag lag)
         (rawPitchData result).
Proof.
  intros Hr. apply analyzeAudio_Resolved in Hr. subst result.
  cbn [convertToMusicalNotation rawPitchData].
  apply consolidateNotes_Forall.
  - intros p e Hp. exact Hp.
  - apply samplesFrom_entries.
Qed.

Lemma analyzeAudio_frequency_grid_witness :
  Forall (fun p => Pitch.note p = frequencyToNote (Pitch.frequency p)
                   /\ exists lag, 45 <= lag <= 551
                                  /\ Pitch.frequency p = frequencyOfLag lag)
         (rawPitchData
            (convertToMusicalNotation
               (consolidateNotes
                  (perSegmentSamples (segmentAudio (convertToMono twoNotesBuffer)))))).
Proof.
  apply (analyzeAudio_frequency_grid twoNotesBuffer).
  apply analyzeAudio_eq.
Defined.

(* ================================================================== *)
(** ** Times on the segment grid *)

Lemma chain_weaken (hi : nat) (samples : list Pitch.t) :
  forall lo lo', lo' <= lo -> chain lo hi samples -> chain lo' hi samples.
Proof.
  destruct samples as [|p rest]; intros lo lo' Hlo; cbn [chain]; [trivial|].
  intros (i & Hi & Hhi & Hs & He & Hrest).
  exists i. repeat split; trivial. lia.
Qed.

Lemma chain_extend (lo : nat) (samples : list Pitch.t) :
  forall hi hi', hi <= hi' -> chain lo hi samples -> chain lo hi' samples.
Proof.
  revert lo. induction samples as [|p rest IH]; intros lo hi hi' Hhi;
    cbn [chain]; [trivial|].
  intros (i & Hi & Hlt & Hs & He & Hrest).
  exists i. repeat split; trivial; [lia|]. apply (IH _ hi); assumption.
Qed.

Lemma samplesFrom_chain (segments : list (list num)) :
  forall i, chain i (i + List.length segments) (samplesFrom i segments).
Proof.
  induction segments as [|segment rest IH]; intros i.
  - cbn [samplesFrom chain]. trivial.
  - rewrite samplesFrom_cons. specialize (IH (S i)).
    cbn [List.length]. replace (i + S (List.length rest))
      with (S i + List.length rest) by lia.
    destruct (inRange (detectPitchAutocorrelation segment)); cbn [app].
    + cbn [chain]. exists i. cbn [pitchAt Pitch.startTime Pitch.endTime].
      repeat split; trivial; lia.
    + apply (chain_weaken _ _ (S i)); [lia | exact IH].
Qed.

Lemma spans_weaken (lo lo' hi : nat) (p : Pitch.t) :
  lo' <= lo -> spans lo hi p -> spans lo' hi p.
Proof.
  intros Hlo (i & j & Hi & Hij & Hj & Hs & He).
  exists i, j. repeat split; trivial. lia.
Qed.

Lemma consolidateFrom_spans (hi : nat) (notes : list Pitch.t) :
  forall lo i j currentNote,
  lo <= i -> i <= j -> j < hi ->
  Pitch.startTime currentNote = segmentStart i ->
  Pitch.endTime currentNote = (segmentStart j + segmentDuration)%Q ->
  chain (S j) hi notes ->
  Forall (spans lo hi) (consolidateFrom currentNote notes).
Proof.
  induction notes as [|note rest IH];
    intros lo i j currentNote Hlo Hij Hj Hs He Hchain; cbn [consolidateFrom].
  - constructor; [|constructor]. exists i, j. repeat split; trivial.
  - cbn [chain] in Hchain.
    destruct Hchain as (m & Hm & Hmhi & Hms & Hme & Hrest).
    destruct (sameNote note currentNote).
    + apply (IH lo i m); trivial; lia.
    + constructor; [exists i, j; repeat split; trivial|].
      apply (IH lo m m); trivial; lia.
Qed.

(** X8: in every result of [analyzeAudio] each raw pitch entry starts at
    the start of one analysed segment and ends at the end of the same or a
    later one: its start is [i] half-segments after 0, its end [j + 2]
    half-segments, for segment indices [i <= j] below the number of
    segments. *)
Theorem analyzeAudio_time_grid (b : AudioBuffer.t) (result : TranscriptionResult) :
  analyzeAudio b = Resolved result ->
  Forall (spans 0 (segmentCount (List.length (convertToMono b))))
         (rawPitchData result).
Proof.
  intros Hr. apply analyzeAudio_Resolved in Hr. subst result.
  cbn [convertToMusicalNotation rawPitchData].
  pose proof (samplesFrom_chain (segmentAudio (convertToMono b)) 0) as Hchain.
  fold (perSegmentSamples (segmentAudio (convertToMono b))) in Hchain.
  replace (0 + List.length (segmentAudio (convertToMono b)))
    with (segmentCount (List.length (convertToMono b))) in Hchain
    by (rewrite segmentAudio_offsets, length_map, length_seq; reflexivity).
  destruct (perSegmentSamples (segmentAudio (convertToMono b))) as [|first rest];
    [constructor|].
  rewrite consolidateNotes_from. cbn [chain] in Hchain.
  destruct Hchain as (i & Hi & Hhi & Hs & He & Hrest).
  apply (consolidateFrom_spans _ _ 0 i i); trivial.
Qed.

Lemma analyzeAudio_time_grid_witness :
  Forall (spans 0 (segmentCount (List.length (convertToMono sameNoteBuffer))))
         (rawPitchData
            (convertToMusicalNotation
               (consolidateNotes
                  (perSegmentSamples (segmentAudio (convertToMono sameNoteBuffer)))))).
Proof.
  apply (analyzeAudio_time_grid sameNoteBuffer).
  apply analyzeAudio_eq.
Defined.

(* ================================================================== *)
(** ** Exact periods and gain *)

(** X9: a full segment that is 1 at two positions [lag] samples apart,
    away from both ends, and 0 elsewhere, is recognised exactly: for a lag
    in [minSamples, maxSamples) the estimator answers [sampleRate / lag]. *)
Theorem detectPitchAutocorrelation_recovers_period (segment : list num) (a lag : nat) :
  List.length segment = bufferSize -> Forall finite segment ->
  0 < a -> a + lag < bufferSize - 1 ->
  minSamples <= lag < maxSamples ->
  (forall i, i < bufferSize ->
             sampleOf segment i
             = if (i =? a) || (i =? a + lag) then 1%R else 0%R) ->
  detectPitchAutocorrelation segment = frequencyOfLag lag.
Proof. exact (detectPitchAutocorrelation_two_impulses segment a lag). Qed.

Lemma detectPitchAutocorrelation_recovers_period_witness :
  detectPitchAutocorrelation
    (segmentAt (impulseSignal (3 * overlap + 1) [3000; 3100]) 0)
  = frequencyOfLag 100.
Proof.
  destruct (segmentAt_impulseSignal_ok [3000; 3100] 0) as [Hlen Hfin];
    [apply Nat.lt_0_succ|].
  apply (detectPitchAutocorrelation_recovers_period _ 3000 100);
    trivial; try (vm_compute; lia).
  impulse_positions.
Defined.

(* ================================================================== *)
(** ** Polarity *)

Lemma scaleBy_length (gain : R) (segment : list num) :
  List.length (scaleBy gain segment) = List.length segment.
Proof. unfold scaleBy. apply length_map. Qed.

Lemma scaleBy_read (gain : R) (buffer : list num) (i : nat) :
  readNum (scaleBy gain buffer) i = nmul (Num gain) (readNum buffer i).
Proof.
  unfold scaleBy, readNum.
  change NaN with (nmul (Num gain) NaN) at 1. apply map_nth.
Qed.

Lemma applyHannWindow_scaleBy (gain : R) (buffer : list num) :
  applyHannWindow (scaleBy gain buffer) = scaleBy gain (applyHannWindow buffer).
Proof.
  unfold applyHannWindow. rewrite scaleBy_length.
  unfold scaleBy at 2. rewrite map_map. apply map_ext. intros i.
  rewrite scaleBy_read.
  destruct (readNum buffer i) as [x|], (windowValue (List.length buffer) i) as [w|];
    cbn [nmul]; try reflexivity.
  f_equal. ring.
Qed.

Lemma fold_left_ext_in {A B : Type} (f g : A -> B -> A) (l : list B) :
  (forall a b, In b l -> f a b = g a b) ->
  forall a, fold_left f l a = fold_left g l a.
Proof.
  induction l as [|b l IH]; intros Hfg a; cbn [fold_left]; [reflexivity|].
  rewrite (Hfg a b) by (left; reflexivity).
  apply IH. intros a' b' Hb'. apply Hfg. right. exact Hb'.
Qed.

Lemma autocorrelationOf_inverted (windowedBuffer : list num) :
  autocorrelationOf (scaleBy (-1) windowedBuffer)
  = autocorrelationOf windowedBuffer.
Proof.
  unfold autocorrelationOf. apply map_ext. intros lag.
  unfold autocorrelationAt. apply fold_left_ext_in. intros sum i _.
  rewrite !scaleBy_read. f_equal.
  destruct (readNum windowedBuffer i) as [x|],
           (readNum windowedBuffer (i + lag)) as [y|];
    cbn [nmul]; try reflexivity.
  f_equal. ring.
Qed.

(** X10: the estimate does not depend on the polarity of the signal: for
    every buffer, inverting every sample leaves the array of correlations,
    and with it the detected frequency, unchanged. *)
Theorem detectPitchAutocorrelation_polarity (buffer : list num) :
  autocorrelationOf (applyHannWindow (scaleBy (-1) buffer))
  = autocorrelationOf (applyHannWindow buffer)
  /\ detectPitchAutocorrelation (scaleBy (-1) buffer)
     = detectPitchAutocorrelation buffer.
Proof.
  assert (H : autocorrelationOf (applyHannWindow (scaleBy (-1) buffer))
              = autocorrelationOf (applyHannWindow buffer)).
  { rewrite applyHannWindow_scaleBy. apply autocorrelationOf_inverted. }
  split; [exact H|].
  rewrite !detectPitchAutocorrelation_stages, H. reflexivity.
Qed.

(* ================================================================== *)
(** ** The note mapper: cents *)

(** X11: for every frequency of the detection range, from [minFrequency]
    to [maxFrequency], the note carries a deviation between -50 and 50
    cents. *)
Theorem frequencyToNote_cents_bounded (frequency : Q) :
  (inject_Z minFrequency <= frequency <= inject_Z maxFrequency)%Q ->
  (-50 <= Note.cents (frequencyToNote frequency) <= 50)%Z.
Proof.
  intros [Hlo _]. apply frequencyToNote_cents_range.
  eapply Qlt_le_trans; [|exact Hlo]. reflexivity.
Qed.

Lemma frequencyToNote_cents_bounded_witness :
  (-50 <= Note.cents (frequencyToNote (26163 # 100)) <= 50)%Z.
Proof.
  apply (frequencyToNote_cents_bounded (26163 # 100)).
  split; vm_compute; discriminate.
Defined.

(* ================================================================== *)
(** ** Consolidation *)

Lemma consolidateFrom_In (notes : list Pitch.t) :
  forall currentNote p,
  In p (consolidateFrom currentNote notes) ->
  exists q q',
    In q (currentNote :: notes) /\ In q' (currentNote :: notes)
    /\ Pitch.note p = Pitch.note q
    /\ Pitch.frequency p = Pitch.frequency q
    /\ Pitch.startTime p = Pitch.startTime q
    /\ Pitch.endTime p = Pitch.endTime q'.
Proof.
  induction notes as [|note rest IH]; intros currentNote p Hp;
    cbn [consolidateFrom] in Hp.
  - destruct Hp as [<- | []]. exists currentNote, currentNote.
    repeat split; left; reflexivity.
  - destruct (sameNote note currentNote).
    + apply IH in Hp. destruct Hp as (q & q' & Hq & Hq' & Hn & Hf & Hs & He).
      assert (Hq1 : exists q1, In q1 (currentNote :: note :: rest)
                               /\ Pitch.note q = Pitch.note q1
                               /\ Pitch.frequency q = Pitch.frequency q1
                               /\ Pitch.startTime q = Pitch.startTime q1).
      { destruct Hq as [<- | Hq].
        - exists currentNote. repeat split. left. reflexivity.
        - exists q. repeat split. right. right. exact Hq. }
      assert (Hq2 : exists q2, In q2 (currentNote :: note :: rest)
                               /\ Pitch.endTime q' = Pitch.endTime q2).
      { destruct Hq' as [<- | Hq'].
        - exists note. split; [right; left; reflexivity | reflexivity].
        - exists q'. split; [right; right; exact Hq' | reflexivity]. }
      destruct Hq1 as (q1 & Hin1 & Hn1 & Hf1 & Hs1).
      destruct Hq2 as (q2 & Hin2 & He2).
      exists q1, q2. repeat split; trivial; congruence.
    + destruct Hp as [<- | Hp].
      * exists currentNote, currentNote. repeat split; left; reflexivity.
      * apply IH in Hp. destruct Hp as (q & q' & Hq & Hq' & Hrest).
        exists q, q'. split; [right; exact Hq|]. split; [right; exact Hq'|].
        exact Hrest.
Qed.

(** X13: consolidation invents nothing and never lengthens the sequence:
    every consolidated note takes its note, frequency and start time from
    one input sample and its end time from an input sample, and there are
    at most as many notes as samples. *)
Theorem consolidateNotes_entries (notes : list Pitch.t) (p : Pitch.t) :
  In p (consolidateNotes notes) ->
  (exists q q',
      In q notes /\ In q' notes
      /\ Pitch.note p = Pitch.note q
      /\ Pitch.frequency p = Pitch.frequency q
      /\ Pitch.startTime p = Pitch.startTime q
      /\ Pitch.endTime p = Pitch.endTime q')
  /\ List.length (consolidateNotes notes) <= List.length notes.
Proof.
  intros Hp. split; [|apply consolidateNotes_length].
  destruct notes as [|first rest]; [destruct Hp|].
  rewrite consolidateNotes_from in Hp. apply consolidateFrom_In, Hp.
Qed.

Lemma consolidateNotes_entries_witness :
  (exists q q',
      In q [mkPitch "A" 4 0 (1 # 10); mkPitch "A" 4 (1 # 10) (2 # 10)]
      /\ In q' [mkPitch "A" 4 0 (1 # 10); mkPitch "A" 4 (1 # 10) (2 # 10)]
      /\ Pitch.note (mkPitch "A" 4 0 (2 # 10)) = Pitch.note q
      /\ Pitch.frequency (mkPitch "A" 4 0 (2 # 10)) = Pitch.frequency q
      /\ Pitch.startTime (mkPitch "A" 4 0 (2 # 10)) = Pitch.startTime q
      /\ Pitch.endTime (mkPitch "A" 4 0 (2 # 10)) = Pitch.endTime q')
  /\ List.length
       (consolidateNotes [mkPitch "A" 4 0 (1 # 10); mkPitch "A" 4 (1 # 10) (2 # 10)])
     <= List.length [mkPitch "A" 4 0 (1 # 10); mkPitch "A" 4 (1 # 10) (2 # 10)].
Proof.
  apply (consolidateNotes_entries
           [mkPitch "A" 4 0 (1 # 10); mkPitch "A" 4 (1 # 10) (2 # 10)]
           (mkPitch "A" 4 0 (2 # 10))).
  vm_compute. left. reflexivity.
Defined.

(* ================================================================== *)
(** ** Intervals and the chord table *)

Lemma indexOfFrom_range (x : string) (l : list string) :
  forall i, indexOfFrom x l i = (-1)%Z
            \/ (i <= indexOfFrom x l i < i + Z.of_nat (List.length l))%Z.
Proof.
  induction l as [|y l IH]; intros i; cbn [indexOfFrom List.length].
  - left. reflexivity.
  - destruct (String.eqb y x); [right; lia|].
    destruct (IH (i + 1)%Z) as [-> | H]; [left; reflexivity | right; lia].
Qed.

(** X14: the interval between two note names is always a number of
    semitones between 0 and 11, whatever the two strings. *)
Theorem calculateInterval_range (rootNote noteName : string) :
  (0 <= calculateInterval rootNote noteName <= 11)%Z.
Proof.
  unfold calculateInterval, indexOf.
  pose proof (indexOfFrom_range rootNote chromatic 0) as Hr.
  pose proof (indexOfFrom_range noteName chromatic 0) as Hn.
  change (Z.of_nat (List.length chromatic)) with 12%Z in Hr, Hn.
  set (r := indexOfFrom rootNote chromatic 0) in *.
  set (n := indexOfFrom noteName chromatic 0) in *.
  destruct (Z.eqb_spec r (-1)); cbn [orb]; [lia|].
  destruct (Z.eqb_spec n (-1)); [lia|].
  destruct (Z.ltb_spec (Z.rem (n - r) 12) 0); Z.quot_rem_to_equations; lia.
Qed.

Lemma indexOfFrom_absent (x : string) (l : list string) :
  ~ In x l -> forall i, indexOfFrom x l i = (-1)%Z.
Proof.
  induction l as [|y l IH]; intros Hx i; cbn [indexOfFrom]; [reflexivity|].
  destruct (String.eqb_spec y x) as [->|_].
  - exfalso. apply Hx. left. reflexivity.
  - apply IH. intros Hin. apply Hx. right. exact Hin.
Qed.

Lemma calculateInterval_absent (rootNote noteName : string) :
  ~ In rootNote chromatic \/ ~ In noteName chromatic ->
  calculateInterval rootNote noteName = 0%Z.
Proof.
  intros H. unfold calculateInterval, indexOf. destruct H as [H | H].
  - rewrite (indexOfFrom_absent rootNote chromatic H). reflexivity.
  - rewrite (indexOfFrom_absent noteName chromatic H).
    rewrite orb_true_r. reflexivity.
Qed.

(** X15: a name that is not one of the twelve sharp-spelled names (a flat
    such as Bb, or any other string) is not rejected: its interval to or
    from any note is 0, as if it were the root itself. *)
Theorem calculateInterval_unknown (rootNote noteName : string) :
  ~ In rootNote chromatic \/ ~ In noteName chromatic ->
  calculateInterval rootNote noteName = 0%Z.
Proof. exact (calculateInterval_absent rootNote noteName). Qed.

Lemma calculateInterval_unknown_witness : calculateInterval "C" "Bb" = 0%Z.
Proof.
  apply (calculateInterval_unknown "C" "Bb"). right.
  cbn [chromatic In]. intuition discriminate.
Defined.

Lemma calculateInterval_table :
  forallb (fun pair =>
             let r := fst pair in
             let n := snd pair in
             Z.eqb (calculateInterval n r)
                   ((12 - calculateInterval r n) mod 12)
             && Bool.eqb (Z.eqb (calculateInterval r n) 0) (String.eqb r n))
          (list_prod chromatic chromatic) = true.
Proof. vm_compute. reflexivity. Qed.

Lemma calculateInterval_back (rootNote noteName : string) :
  In rootNote chromatic -> In noteName chromatic ->
  calculateInterval noteName rootNote
  = ((12 - calculateInterval rootNote noteName) mod 12)%Z
  /\ (calculateInterval rootNote noteName = 0%Z <-> rootNote = noteName).
Proof.
  intros Hr Hn. pose proof calculateInterval_table as H.
  rewrite forallb_forall in H. specialize (H (rootNote, noteName)).
  cbv zeta in H. cbn [fst snd] in H.
  apply andb_true_iff in H; [|apply in_prod; assumption].
  destruct H as [H1 H2]. apply Z.eqb_eq in H1. apply Bool.eqb_prop in H2.
  split; [exact H1|]. rewrite <- Z.eqb_eq, H2. apply String.eqb_eq.
Qed.

(** X16: between two of the twelve names, the interval up from one to
    the other and the interval back add up to an octave: the interval
    back is [(12 - interval) mod 12], and the interval is 0 exactly when
    the names are equal. *)
Theorem calculateInterval_inverse (rootNote noteName : string) :
  In rootNote chromatic -> In noteName chromatic ->
  calculateInterval noteName rootNote
  = ((12 - calculateInterval rootNote noteName) mod 12)%Z
  /\ (calculateInterval rootNote noteName = 0%Z <-> rootNote = noteName).
Proof. exact (calculateInterval_back rootNote noteName). Qed.

Lemma calculateInterval_inverse_witness :
  calculateInterval "G" "C" = ((12 - calculateInterval "C" "G") mod 12)%Z
  /\ (calculateInterval "C" "G" = 0%Z <-> "C" = "G").
Proof.
  apply (calculateInterval_inverse "C" "G"); cbn [chromatic In]; tauto.
Defined.

(** X17: what "at least 3 tones and at least 75%" means for the two
    chord sizes of the table: a three-tone chord matches only when all
    three of its tones are present, a four-tone chord as soon as any
    three of its four are. *)
Theorem intervalsMatchChord_sizes (detected : list Z) (a b c d : Z) :
  intervalsMatchChord detected [a; b; c]
  = includes detected a && includes detected b && includes detected c
  /\ intervalsMatchChord detected [a; b; c; d]
     = (includes detected a && includes detected b && includes detected c)
       || (includes detected a && includes detected b && includes detected d)
       || (includes detected a && includes detected c && includes detected d)
       || (includes detected b && includes detected c && includes detected d).
Proof.
  unfold intervalsMatchChord. cbn [fold_left List.length].
  destruct (includes detected a), (includes detected b),
    (includes detected c), (includes detected d); split; reflexivity.
Qed.

Lemma firstChordType_with_minor_triad (intervals : list Z) :
  includes intervals 0%Z = true ->
  includes intervals 3%Z = true ->
  includes intervals 7%Z = true ->
  firstChordType intervals chordDefinitions = Some "Major"
  \/ firstChordType intervals chordDefinitions = Some "Minor".
Proof.
  intros H0 H3 H7.
  unfold chordDefinitions, firstChordType, intervalsMatchChord.
  cbn [fold_left List.length]. rewrite H0, H3, H7.
  destruct (includes intervals 4%Z); [left | right]; reflexivity.
Qed.

Lemma firstChordType_In (intervals : list Z) (definitions : list (string * list Z))
      (chordType : string) :
  firstChordType intervals definitions = Some chordType ->
  exists chordIntervals,
    In (chordType, chordIntervals) definitions
    /\ intervalsMatchChord intervals chordIntervals = true.
Proof.
  induction definitions as [|[t l] rest IH]; cbn [firstChordType]; [discriminate|].
  destruct (intervalsMatchChord intervals l) eqn:Hm.
  - intros [= <-]. exists l. split; [left; reflexivity | exact Hm].
  - intros H. destruct (IH H) as (l' & Hin & Hm').
    exists l'. split; [right; exact Hin | exact Hm'].
Qed.

Lemma tryRoots_Some (noteNames roots : list string) (chord : Chord.id) :
  tryRoots noteNames roots = Some chord ->
  In (Chord.idRoot chord) roots
  /\ firstChordType (sortZ (map (calculateInterval (Chord.idRoot chord)) noteNames))
                    chordDefinitions
     = Some (Chord.idType chord).
Proof.
  induction roots as [|rootNote rest IH]; cbn [tryRoots]; [discriminate|].
  destruct (firstChordType (sortZ (map (calculateInterval rootNote) noteNames))
                           chordDefinitions) as [t|] eqn:Ht.
  - intros [= <-]. cbn [Chord.idRoot Chord.idType].
    split; [left; reflexivity | exact Ht].
  - intros H. destruct (IH H) as [Hin Hf]. split; [right; exact Hin | exact Hf].
Qed.

Lemma includes_In (l : list Z) (x : Z) : includes l x = true <-> In x l.
Proof. unfold includes. apply existsb_eqb_In. Qed.

Lemma includes_sortZ (l : list Z) (x : Z) : includes (sortZ l) x = includes l x.
Proof.
  apply eq_true_iff_eq. rewrite !includes_In. apply sortZ_In.
Qed.

(** X18: a seventh chord is reported only when its triad is incomplete.
    If the third and the fifth above the chosen root are both present,
    the answer is a triad ("Major" or "Minor"), never "Major 7",
    "Dominant 7" or "Minor 7". *)
Theorem identifyChord_sevenths (noteNames : list string) (chord : Chord.id) :
  identifyChord noteNames = Some chord ->
  let intervals := map (calculateInterval (Chord.idRoot chord)) noteNames in
  (In (Chord.idType chord) ["Major 7"; "Dominant 7"] ->
   ~ (includes intervals 4%Z = true /\ includes intervals 7%Z = true))
  /\ (Chord.idType chord = "Minor 7" ->
      ~ (includes intervals 3%Z = true /\ includes intervals 7%Z = true)).
Proof.
  unfold identifyChord. destruct (List.length noteNames <? 2); [discriminate|].
  intros H. apply tryRoots_Some in H. destruct H as [Hroot Htype]. cbv zeta.
  assert (H0 : includes (sortZ (map (calculateInterval (Chord.idRoot chord))
                                    noteNames)) 0%Z = true).
  { rewrite includes_sortZ. apply includes_In. apply in_map_iff.
    exists (Chord.idRoot chord). split; [|exact Hroot].
    destruct (in_dec string_dec (Chord.idRoot chord) chromatic) as [Hc|Hc].
    - apply (calculateInterval_back _ _ Hc Hc). reflexivity.
    - apply calculateInterval_absent. left. exact Hc. }
  split.
  - intros Hseventh [H4 H7]. rewrite <- includes_sortZ in H4, H7.
    rewrite (firstChordType_with_major_triad _ H0 H4 H7) in Htype.
    injection Htype as Htype. rewrite <- Htype in Hseventh.
    cbn [In] in Hseventh. intuition discriminate.
  - intros Hminor [H3 H7]. rewrite <- includes_sortZ in H3, H7.
    destruct (firstChordType_with_minor_triad _ H0 H3 H7) as [Ht | Ht];
      rewrite Ht in Htype; injection Htype as Htype; congruence.
Qed.

Lemma identifyChord_sevenths_witness :
  let intervals := map (calculateInterval "C") ["C"; "E"; "A#"] in
  (In "Dominant 7" ["Major 7"; "Dominant 7"] ->
   ~ (includes intervals 4%Z = true /\ includes intervals 7%Z = true))
  /\ ("Dominant 7" = "Minor 7" ->
      ~ (includes intervals 3%Z = true /\ includes intervals 7%Z = true)).
Proof.
  apply (identifyChord_sevenths ["C"; "E"; "A#"] (Chord.mkId "C" "Dominant 7")).
  reflexivity.
Defined.

Lemma matchCount_filter (detected chordIntervals : list Z) :
  forall count,
  fold_left (fun matchCount interval =>
               if includes detected interval then (matchCount + 1)%Z
               else matchCount)
            chordIntervals count
  = (count + Z.of_nat (List.length (filter (includes detected) chordIntervals)))%Z.
Proof.
  induction chordIntervals as [|x l IH]; intros count; cbn [fold_left filter].
  - simpl. lia.
  - rewrite IH. destruct (includes detected x); cbn [List.length]; lia.
Qed.

(** A chord of distinct tones cannot match more tones than were detected. *)
Lemma intervalsMatchChord_needs_three (detected chordIntervals : list Z) :
  NoDup chordIntervals ->
  intervalsMatchChord detected chordIntervals = true ->
  3 <= List.length detected.
Proof.
  intros Hnd Hm. unfold intervalsMatchChord in Hm.
  apply andb_true_iff in Hm. destruct Hm as [Hm _]. apply Z.leb_le in Hm.
  rewrite matchCount_filter in Hm.
  assert (Hlen : List.length (filter (includes detected) chordIntervals)
                 <= List.length detected).
  { apply NoDup_incl_length; [apply NoDup_filter, Hnd|].
    intros x Hx. apply filter_In in Hx. apply includes_In, Hx. }
  lia.
Qed.

Lemma chordDefinitions_NoDup :
  Forall (fun definition => NoDup (snd definition)) chordDefinitions.
Proof.
  unfold chordDefinitions.
  repeat (constructor;
          [cbn [snd]; repeat (constructor; [cbn [In]; lia|]); constructor|]).
  constructor.
Qed.

Lemma insertZ_length (x : Z) (l : list Z) :
  List.length (insertZ x l) = S (List.length l).
Proof.
  induction l as [|y l IH]; cbn [insertZ]; [reflexivity|].
  destruct (x <=? y)%Z; cbn [List.length]; [reflexivity | rewrite IH; reflexivity].
Qed.

Lemma sortZ_length (l : list Z) : List.length (sortZ l) = List.length l.
Proof.
  induction l as [|x l IH]; cbn [sortZ]; [reflexivity|].
  rewrite insertZ_length, IH. reflexivity.
Qed.

Lemma identifyChord_Some (noteNames : list string) (chord : Chord.id) :
  identifyChord noteNames = Some chord ->
  3 <= List.length noteNames
  /\ In (Chord.idRoot chord) noteNames
  /\ In (Chord.idType chord) (map fst chordDefinitions).
Proof.
  unfold identifyChord. destruct (List.length noteNames <? 2); [discriminate|].
  intros H. apply tryRoots_Some in H. destruct H as [Hroot Htype].
  apply firstChordType_In in Htype. destruct Htype as (l & Hin & Hm).
  split; [|split; [exact Hroot|]].
  - pose proof chordDefinitions_NoDup as Hnd. rewrite Forall_forall in Hnd.
    apply (intervalsMatchChord_needs_three _ l (Hnd _ Hin)) in Hm.
    rewrite sortZ_length, length_map in Hm. exact Hm.
  - apply in_map_iff. exists (Chord.idType chord, l). split; [reflexivity | exact Hin].
Qed.

(** X19: a chord is identified from three or more names only, although
    the function guards against fewer than two; its root is one of the
    names given and its type one of the nine of the table. *)
Theorem identifyChord_sound (noteNames : list string) (chord : Chord.id) :
  identifyChord noteNames = Some chord ->
  3 <= List.length noteNames
  /\ In (Chord.idRoot chord) noteNames
  /\ In (Chord.idType chord) (map fst chordDefinitions).
Proof. exact (identifyChord_Some noteNames chord). Qed.

Lemma identifyChord_sound_witness :
  3 <= List.length ["C"; "E"; "G"]
  /\ In "C" ["C"; "E"; "G"]
  /\ In "Major" (map fst chordDefinitions).
Proof.
  apply (identifyChord_sound ["C"; "E"; "G"] (Chord.mkId "C" "Major")).
  reflexivity.
Defined.

(* ================================================================== *)
(** ** Chords and their windows *)

Lemma uniqueStrings_fold_NoDup (a : list string) :
  forall seen,
  NoDup seen ->
  NoDup (fold_left (fun seen x => if existsb (String.eqb x) seen then seen
                                  else seen ++ [x]) a seen).
Proof.
  induction a as [|x a IH]; intros seen Hseen; cbn [fold_left]; [exact Hseen|].
  apply IH. destruct (existsb (String.eqb x) seen) eqn:He; [exact Hseen|].
  apply NoDup_app; [exact Hseen | repeat constructor; intros [] |].
  intros y Hy [Heq | []]. subst y.
  assert (Ht : existsb (String.eqb x) seen = true).
  { apply existsb_exists. exists x. split; [exact Hy | apply String.eqb_refl]. }
  congruence.
Qed.

Lemma uniqueStrings_NoDup (a : list string) : NoDup (uniqueStrings a).
Proof. apply uniqueStrings_fold_NoDup. constructor. Qed.

Lemma fold_Qmin_le_all (a : list Q) :
  forall x y, In y (x :: a) -> (fold_left Qmin a x <= y)%Q.
Proof.
  induction a as [|z a IH]; intros x y Hy; cbn [fold_left].
  - destruct Hy as [<- | []]. apply Qle_refl.
  - destruct Hy as [<- | [<- | Hy]].
    + eapply Qle_trans; [apply fold_Qmin_le | apply Q.le_min_l].
    + eapply Qle_trans; [apply fold_Qmin_le | apply Q.le_min_r].
    + apply IH. right. exact Hy.
Qed.

Lemma fold_Qmax_ge_all (a : list Q) :
  forall x y, In y (x :: a) -> (y <= fold_left Qmax a x)%Q.
Proof.
  induction a as [|z a IH]; intros x y Hy; cbn [fold_left].
  - destruct Hy as [<- | []]. apply Qle_refl.
  - destruct Hy as [<- | [<- | Hy]].
    + eapply Qle_trans; [apply Q.le_max_l | apply fold_Qmax_ge].
    + eapply Qle_trans; [apply Q.le_max_r | apply fold_Qmax_ge].
    + apply IH. right. exact Hy.
Qed.

Lemma minOf_le (a : list Q) (y : Q) : In y a -> (minOf a <= y)%Q.
Proof.
  destruct a as [|x a]; [intros []|]. cbn [minOf]. apply fold_Qmin_le_all.
Qed.

Lemma maxOf_ge (a : list Q) (y : Q) : In y a -> (y <= maxOf a)%Q.
Proof.
  destruct a as [|x a]; [intros []|]. cbn [maxOf]. apply fold_Qmax_ge_all.
Qed.

Lemma chordOfWindow_identified (notes : list Pitch.t) (chord : Chord.t) :
  chordOfWindow notes = Some chord ->
  identifyChord (Chord.notes chord)
  = Some (Chord.mkId (Chord.root chord) (Chord.type chord)).
Proof.
  unfold chordOfWindow. destruct (2 <=? List.length notes); [|discriminate].
  destruct (identifyChord _) as [[r t]|] eqn:Hid; [|discriminate].
  intros [= <-]. cbn [Chord.notes Chord.root Chord.type Chord.idRoot Chord.idType].
  exact Hid.
Qed.

Lemma fold_Qmax_In (a : list Q) :
  forall x, fold_left Qmax a x = x \/ In (fold_left Qmax a x) a.
Proof.
  induction a as [|y a IH]; intros x; cbn [fold_left]; [left; reflexivity|].
  destruct (IH (Qmax x y)) as [H|H].
  - rewrite H. destruct (Qmax_cases x y) as [-> | ->]; [left | right; left]; reflexivity.
  - right. right. exact H.
Qed.

(** [Math.max] of a non-empty list is one of its elements. *)
Lemma maxOf_In (a : list Q) : a <> [] -> In (maxOf a) a.
Proof.
  destruct a as [|x a]; [contradiction|]. intros _. cbn [maxOf].
  destruct (fold_Qmax_In a x) as [-> | H]; [left; reflexivity | right; exact H].
Qed.

Lemma uniqueStrings_fold_complete (a : list string) :
  forall seen x,
  In x seen \/ In x a ->
  In x (fold_left (fun seen x => if existsb (String.eqb x) seen then seen
                                 else seen ++ [x]) a seen).
Proof.
  induction a as [|y a IH]; intros seen x Hx; cbn [fold_left].
  - destruct Hx as [Hx | []]. exact Hx.
  - apply IH. destruct Hx as [Hx | [<- | Hx]].
    + left. destruct (existsb (String.eqb y) seen); [exact Hx|].
      apply in_or_app. left. exact Hx.
    + left. destruct (existsb (String.eqb y) seen) eqn:He.
      * apply existsb_exists in He. destruct He as (z & Hz & Heq).
        apply String.eqb_eq in Heq. subst z. exact Hz.
      * apply in_or_app. right. left. reflexivity.
    + right. exact Hx.
Qed.

Lemma uniqueStrings_complete (a : list string) (x : string) :
  In x a -> In x (uniqueStrings a).
Proof. intros Hx. apply uniqueStrings_fold_complete. right. exact Hx. Qed.

(** X20: every chord [detectChords] reports is built from a group of the
    notes given that is contiguous in start time, the notes of one time
    window: the chord starts with the earliest start of the group and ends
    with the latest end, both attained, its duration is end minus start,
    and it lists the names of the notes of the group, each once: three or
    more, its root among them, its type one of the table. *)
Theorem detectChords_window (pitchData : list Pitch.t) (chord : Chord.t) :
  In chord (detectChords pitchData) ->
  exists window,
    contiguous pitchData window
    /\ spansWindow window chord
    /\ 3 <= List.length (Chord.notes chord)
    /\ NoDup (Chord.notes chord)
    /\ In (Chord.root chord) (Chord.notes chord)
    /\ In (Chord.type chord) (map fst chordDefinitions).
Proof.
  rewrite detectChords_chordsOfKeys. intros Hin.
  apply chordsOfKeys_In in Hin. destruct Hin as (key & _ & Hchord).
  pose proof (chordOfWindow_identified _ _ Hchord) as Hid.
  apply identifyChord_Some in Hid. cbn [Chord.idRoot Chord.idType] in Hid.
  destruct Hid as (Hthree & _ & Htype).
  apply chordOfWindow_Some in Hchord.
  destruct Hchord as (Hlen & Hs & He & Hd & Hnotes & Hroot).
  rewrite lookupWindow_groupByWindow in Hlen, Hs, He, Hnotes.
  set (window := filter (fun pitch => (windowKey pitch =? key)%Z) pitchData) in *.
  assert (Hwin : forall p, In p window <-> In p pitchData /\ windowKey p = key).
  { intros p. unfold window. rewrite filter_In, Z.eqb_eq. reflexivity. }
  assert (Hne : window <> []) by (destruct window; [simpl in Hlen; lia | discriminate]).
  exists window.
  split; [|split; [|split; [exact Hthree|split;
    [rewrite Hnotes; apply uniqueStrings_NoDup|split; [exact Hroot|exact Htype]]]]].
  - split.
    + intros p Hp. apply Hwin, Hp.
    + intros p q r Hp Hr Hq Hpq Hqr. apply Hwin. split; [exact Hq|].
      apply Hwin in Hp. apply Hwin in Hr. destruct Hp as [_ Hp], Hr as [_ Hr].
      pose proof (windowKey_mono p q Hpq). pose proof (windowKey_mono q r Hqr). lia.
  - unfold spansWindow. split; [|split; [|split; [|split; [exact Hd|]]]].
    + intros p Hp. rewrite Hs, He. split.
      * apply minOf_le. apply in_map, Hp.
      * apply maxOf_ge. apply in_map, Hp.
    + assert (Hmin : In (minOf (map Pitch.startTime window))
                        (map Pitch.startTime window)).
      { apply minOf_In. destruct window; [contradiction | discriminate]. }
      apply in_map_iff in Hmin. destruct Hmin as (p & Hp & Hpw).
      exists p. split; [exact Hpw | congruence].
    + assert (Hmax : In (maxOf (map Pitch.endTime window))
                        (map Pitch.endTime window)).
      { apply maxOf_In. destruct window; [contradiction | discriminate]. }
      apply in_map_iff in Hmax. destruct Hmax as (p & Hp & Hpw).
      exists p. split; [exact Hpw | congruence].
    + intros name. rewrite Hnotes. split.
      * intros Hname. apply uniqueStrings_incl, in_map_iff in Hname.
        destruct Hname as (p & Hp & Hpw). exists p. split; assumption.
      * intros (p & Hpw & Hp). apply uniqueStrings_complete, in_map_iff.
        exists p. split; assumption.
Qed.

Lemma detectChords_window_witness :
  exists window,
    contiguous [mkPitch "C" 4 0 (1 # 10); mkPitch "E" 4 (5 # 100) (15 # 100);
                mkPitch "G" 4 (1 # 10) (25 # 100)] window
    /\ spansWindow window
         (Chord.mk "C" "Major" ["C"; "E"; "G"] 0 (25 # 100) ((25 # 100) - 0)%Q)
    /\ 3 <= List.length ["C"; "E"; "G"]
    /\ NoDup ["C"; "E"; "G"]
    /\ In "C" ["C"; "E"; "G"]
    /\ In "Major" (map fst chordDefinitions).
Proof.
  apply (detectChords_window
           [mkPitch "C" 4 0 (1 # 10); mkPitch "E" 4 (5 # 100) (15 # 100);
            mkPitch "G" 4 (1 # 10) (25 # 100)]
           (Chord.mk "C" "Major" ["C"; "E"; "G"] 0 (25 # 100) ((25 # 100) - 0)%Q)).
  vm_compute. left. reflexivity.
Defined.

(* ================================================================== *)
(** ** The three views, side by side *)

(** X21: simple notes, sheet-music notes and raw pitch data of a result
    correspond entry by entry: the three sequences have one length, and
    entry by entry the same start times and the same octaves; there are
    at most as many entries as analysed segments. *)
Theorem analyzeAudio_views_aligned (b : AudioBuffer.t) (result : TranscriptionResult) :
  analyzeAudio b = Resolved result ->
  map SimpleNote.startTime (simpleNotes result)
  = map Pitch.startTime (rawPitchData result)
  /\ map Sheet.startTime (Sheet.notes (sheetMusic result))
     = map Pitch.startTime (rawPitchData result)
  /\ map SimpleNote.octave (simpleNotes result)
     = map (fun p => Note.octave (Pitch.note p)) (rawPitchData result)
  /\ map Sheet.octave (Sheet.notes (sheetMusic result))
     = map (fun p => Note.octave (Pitch.note p)) (rawPitchData result)
  /\ List.length (rawPitchData result)
     <= segmentCount (List.length (convertToMono b))
  /\ Sheet.timeSignature (sheetMusic result) = (4, 4)%Z
  /\ Sheet.clef (sheetMusic result) = "treble".
Proof.
  intros Hr. apply analyzeAudio_Resolved in Hr. subst result.
  cbn [convertToMusicalNotation rawPitchData simpleNotes sheetMusic].
  assert (Hcount : List.length (perSegmentSamples (segmentAudio (convertToMono b)))
                   <= segmentCount (List.length (convertToMono b))).
  { unfold perSegmentSamples. rewrite segmentAudio_offsets.
    rewrite <- (length_seq (segmentCount (List.length (convertToMono b))) 0) at 2.
    rewrite <- (length_map (segmentAt (convertToMono b))).
    generalize (map (segmentAt (convertToMono b))
                    (seq 0 (segmentCount (List.length (convertToMono b))))).
    generalize 0. intros i segments. revert i.
    induction segments as [|segment rest IH]; intros i; [apply Nat.le_refl|].
    rewrite samplesFrom_cons, length_app. specialize (IH (S i)).
    destruct (inRange (detectPitchAutocorrelation segment));
      cbn [List.length]; lia. }
  pose proof (consolidateNotes_length
                (perSegmentSamples (segmentAudio (convertToMono b)))) as Hlen.
  set (pitchData := consolidateNotes _) in *.
  rewrite generateSimpleNotes_startTimes, generateSheetMusic_startTimes.
  unfold generateSimpleNotes, generateSheetMusic. cbn [Sheet.notes Sheet.timeSignature
    Sheet.clef]. rewrite !map_map. cbn [SimpleNote.octave Sheet.octave].
  repeat split; trivial. lia.
Qed.

Lemma analyzeAudio_views_aligned_witness :
  let result := convertToMusicalNotation
                  (consolidateNotes
                     (perSegmentSamples (segmentAudio (convertToMono twoNotesBuffer)))) in
  map SimpleNote.startTime (simpleNotes result)
  = map Pitch.startTime (rawPitchData result)
  /\ map Sheet.startTime (Sheet.notes (sheetMusic result))
     = map Pitch.startTime (rawPitchData result)
  /\ map SimpleNote.octave (simpleNotes result)
     = map (fun p => Note.octave (Pitch.note p)) (rawPitchData result)
  /\ map Sheet.octave (Sheet.notes (sheetMusic result))
     = map (fun p => Note.octave (Pitch.note p)) (rawPitchData result)
  /\ List.length (rawPitchData result)
     <= segmentCount (List.length (convertToMono twoNotesBuffer))
  /\ Sheet.timeSignature (sheetMusic result) = (4, 4)%Z
  /\ Sheet.clef (sheetMusic result) = "treble".
Proof.
  intros result. apply (analyzeAudio_views_aligned twoNotesBuffer result).
  apply analyzeAudio_eq.
Defined.

(* ================================================================== *)
(** ** The renderer: measures, lines, accidentals, durations *)

Lemma ceilDiv_4_bounds (n : nat) : n <= ceilDiv n 4 * 4 < n + 4.
Proof.
  unfold ceilDiv. pose proof (Nat.div_mod_eq (n + 4 - 1) 4) as H.
  pose proof (Nat.mod_upper_bound (n + 4 - 1) 4). lia.
Qed.

Lemma slice_after_firstn {A : Type} (l : list A) (start stop : nat) :
  start <= stop -> firstn start l ++ slice l start stop = firstn stop l.
Proof.
  intros Hle. unfold slice. rewrite <- skipn_firstn_comm.
  rewrite <- (firstn_skipn start (firstn stop l)) at 2.
  rewrite firstn_firstn. replace (Nat.min start stop) with start by lia.
  reflexivity.
Qed.

Lemma slice_length {A : Type} (l : list A) (start stop : nat) :
  List.length (slice l start stop)
  = Nat.min (stop - start) (List.length l - start).
Proof. unfold slice. rewrite length_firstn, length_skipn. reflexivity. Qed.

Lemma measures_prefix {A : Type} (notes : list A) (k : nat) :
  List.concat (map (fun i => slice notes (i * notesPerMeasure)
                              (Nat.min (i * notesPerMeasure + notesPerMeasure)
                                       (List.length notes)))
              (seq 0 k))
  = firstn (Nat.min (k * notesPerMeasure) (List.length notes)) notes.
Proof.
  unfold notesPerMeasure. induction k as [|k IH]; [reflexivity|].
  rewrite seq_S, map_app, concat_app, IH. cbn [map List.concat Nat.add].
  rewrite app_nil_r.
  destruct (Nat.le_gt_cases (k * 4) (List.length notes)) as [Hle|Hgt].
  - replace (Nat.min (k * 4) (List.length notes)) with (k * 4) by lia.
    replace (Nat.min (S k * 4) (List.length notes))
      with (Nat.min (k * 4 + 4) (List.length notes)) by lia.
    apply slice_after_firstn. lia.
  - replace (Nat.min (k * 4) (List.length notes)) with (List.length notes) by lia.
    replace (Nat.min (S k * 4) (List.length notes)) with (List.length notes) by lia.
    assert (Hempty : slice notes (k * 4) (Nat.min (k * 4 + 4) (List.length notes)) = []).
    { apply length_zero_iff_nil. rewrite slice_length. lia. }
    rewrite Hempty. apply app_nil_r.
Qed.

(** X22: the measures [renderNotation] forms are a partition of the
    notes: put end to end they give the notes back, in order and with
    none lost or repeated; there are [ceil (n / 4)] of them, and each
    holds between one and four notes. *)
Theorem groupMeasures_partition {A : Type} (notes : list A) :
  List.concat (groupMeasures notes) = notes
  /\ List.length (groupMeasures notes) = ceilDiv (List.length notes) 4
  /\ Forall (fun measure => 1 <= List.length measure <= 4) (groupMeasures notes).
Proof.
  unfold groupMeasures, totalMeasuresOf. cbv zeta.
  pose proof (ceilDiv_4_bounds (List.length notes)) as Hb.
  split; [|split].
  - rewrite measures_prefix. unfold notesPerMeasure.
    replace (Nat.min (ceilDiv (List.length notes) 4 * 4) (List.length notes))
      with (List.length notes) by lia.
    apply firstn_all.
  - rewrite length_map, length_seq. reflexivity.
  - apply Forall_forall. intros measure Hm. apply in_map_iff in Hm.
    destruct Hm as (i & <- & Hi). apply in_seq in Hi.
    rewrite slice_length. unfold notesPerMeasure in *. lia.
Qed.

Lemma lineMeasures_seq (totalMeasures line : nat) (fuel : nat) :
  forall m, m + fuel = measuresPerLine ->
  lineMeasures fuel totalMeasures line m
  = seq (line * measuresPerLine + m)
        (Nat.min fuel (totalMeasures - (line * measuresPerLine + m))).
Proof.
  unfold measuresPerLine.
  induction fuel as [|fuel IH]; intros m Hm; cbn [lineMeasures]; [reflexivity|].
  unfold measuresPerLine.
  destruct (Nat.ltb_spec m 4) as [_|Hge]; [|lia].
  destruct (Nat.ltb_spec (line * 4 + m) totalMeasures) as [Hlt|Hge]; cbn [andb].
  - rewrite IH by lia.
    replace (Nat.min (S fuel) (totalMeasures - (line * 4 + m)))
      with (S (Nat.min fuel (totalMeasures - (line * 4 + S m)))) by lia.
    cbn [seq]. replace (S (line * 4 + m)) with (line * 4 + S m) by lia.
    reflexivity.
  - replace (Nat.min (S fuel) (totalMeasures - (line * 4 + m))) with 0 by lia.
    reflexivity.
Qed.

Lemma lines_prefix (totalMeasures lines : nat) :
  flat_map (fun line => lineMeasures measuresPerLine totalMeasures line 0)
           (seq 0 lines)
  = seq 0 (Nat.min (lines * measuresPerLine) totalMeasures).
Proof.
  induction lines as [|lines IH]; [reflexivity|].
  rewrite seq_S, flat_map_app, IH. cbn [flat_map Nat.add].
  rewrite app_nil_r, lineMeasures_seq by reflexivity. unfold measuresPerLine.
  rewrite Nat.add_0_r.
  destruct (Nat.le_gt_cases (lines * 4) totalMeasures) as [Hle|Hgt].
  - replace (Nat.min (lines * 4) totalMeasures) with (lines * 4) by lia.
    replace (Nat.min (S lines * 4) totalMeasures)
      with (lines * 4 + Nat.min 4 (totalMeasures - lines * 4)) by lia.
    rewrite seq_app. reflexivity.
  - replace (Nat.min 4 (totalMeasures - lines * 4)) with 0 by lia.
    replace (Nat.min (S lines * 4) totalMeasures)
      with (Nat.min (lines * 4) totalMeasures) by lia.
    apply app_nil_r.
Qed.

(** X23: the drawing loops of [renderNotation] draw every measure exactly
    once, in order: the indices drawn are 0, 1, ..., totalMeasures - 1. *)
Theorem renderNotation_draws_each_measure_once (n : nat) :
  drawnMeasures n = seq 0 (totalMeasuresOf n).
Proof.
  unfold drawnMeasures, linesOf. rewrite lines_prefix.
  pose proof (ceilDiv_4_bounds (totalMeasuresOf n)) as Hb.
  unfold measuresPerLine. f_equal. lia.
Qed.

(** X24: on every line drawn the stave width divides by the number of
    measures on that line, which is between 1 and 4: never by 0. *)
Theorem renderNotation_staves_on_line (n line : nat) :
  line < linesOf n ->
  1 <= stavesOnLine (totalMeasuresOf n) line <= measuresPerLine.
Proof.
  unfold linesOf, stavesOnLine, measuresPerLine. intros Hline.
  pose proof (ceilDiv_4_bounds (totalMeasuresOf n)) as Hb. lia.
Qed.

Lemma renderNotation_staves_on_line_witness :
  1 <= stavesOnLine (totalMeasuresOf 18) 1 <= measuresPerLine.
Proof.
  apply (renderNotation_staves_on_line 18 1). vm_compute. lia.
Defined.

Lemma accidentalOf_noteNames (name : string) :
  In name noteNames ->
  accidentalOf name = (if hasHash name then Some "#" else None)
  /\ accidentalOf name <> Some "b".
Proof.
  unfold noteNames. cbn [In]. intros H.
  repeat (destruct H as [<- | H]; [split; [reflexivity | discriminate]|]).
  destruct H.
Qed.

(** X25: for every sheet-music note of an analysis the renderer adds a
    sharp accidental exactly when the pitch name has a ['#'], and never
    a flat: the upper-case note name B does not count as the flat sign
    'b'. *)
Theorem analyzeAudio_accidentals (b : AudioBuffer.t) (result : TranscriptionResult) :
  analyzeAudio b = Resolved result ->
  Forall (fun note =>
            accidentalOf (Sheet.pitch note)
            = (if hasHash (Sheet.pitch note) then Some "#" else None)
            /\ accidentalOf (Sheet.pitch note) <> Some "b")
         (Sheet.notes (sheetMusic result)).
Proof.
  intros Hr. apply analyzeAudio_Resolved in Hr. subst result.
  destruct (pipeline_props b) as [Hall _].
  cbn [convertToMusicalNotation sheetMusic].
  set (pitchData := consolidateNotes _) in *.
  unfold generateSheetMusic. cbn [Sheet.notes].
  apply Forall_forall. intros note Hnote. apply in_map_iff in Hnote.
  destruct Hnote as (p & <- & Hp). cbn [Sheet.pitch].
  rewrite Forall_forall in Hall. destruct (Hall p Hp) as (_ & _ & _ & Hname).
  apply accidentalOf_noteNames, Hname.
Qed.

Lemma analyzeAudio_accidentals_witness :
  Forall (fun note =>
            accidentalOf (Sheet.pitch note)
            = (if hasHash (Sheet.pitch note) then Some "#" else None)
            /\ accidentalOf (Sheet.pitch note) <> Some "b")
         (Sheet.notes
            (sheetMusic
               (convertToMusicalNotation
                  (consolidateNotes
                     (perSegmentSamples
                        (segmentAudio (convertToMono twoNotesBuffer))))))).
Proof.
  apply (analyzeAudio_accidentals twoNotesBuffer).
  apply analyzeAudio_eq.
Defined.

(** X26: the duration class the quantizer gives is always one the
    renderer knows, so that the renderer's fallback to a quarter note is
    never taken for it: at 1000 ms and above the renderer draws a whole
    note ("w"), from 500 ms a half ("h"), from 250 ms a quarter ("q"),
    from 125 ms an eighth ("8"), below that a sixteenth ("16"). *)
Theorem convertDuration_notationType (durationMs : Q) :
  exists code,
    convertDuration (notationType durationMs) = Str code
    /\ (code = "w" <-> (1000 <= durationMs)%Q)
    /\ (code = "h" <-> (500 <= durationMs < 1000)%Q)
    /\ (code = "q" <-> (250 <= durationMs < 500)%Q)
    /\ (code = "8" <-> (125 <= durationMs < 250)%Q)
    /\ (code = "16" <-> (durationMs < 125)%Q).
Proof.
  unfold notationType.
  destruct (Qle_bool 1000 durationMs) eqn:H1000;
    [|destruct (Qle_bool 500 durationMs) eqn:H500;
      [|destruct (Qle_bool 250 durationMs) eqn:H250;
        [|destruct (Qle_bool 125 durationMs) eqn:H125]]];
    repeat match goal with
           | H : Qle_bool _ _ = true |- _ => apply Qle_bool_iff in H
           | H : Qle_bool ?x ?y = false |- _ =>
               assert (y < x)%Q
                 by (apply Qnot_le_lt; intros Hle;
                     apply Qle_bool_iff in Hle; congruence);
               clear H
           end;
    eexists; (split; [reflexivity|]);
    repeat split; intros; try discriminate; try Lqa.lra.
Qed.
